(** * xv6 buffer cache (kernel/bio.c, sharded design) and socket receive path

    A shallow embedding of the final, sharded version of the buffer
    cache: a static pool of [struct buf], [NBUCKETS] hash chains
    ([bcache.elems]) threaded through [next_hash], and [NBUCKETS] circular
    doubly linked LRU lists ([bcache.lrus]) threaded through [prev]/[next].
    Pointers into the static arrays are indices; every C statement that
    dereferences a pointer is a monadic step that faults on [Null]. *)

From Stdlib Require Import ZArith List Bool Lia String Arith.
From Stdlib.Strings Require Import Byte.
Import ListNotations.
Local Open Scope Z_scope.

(** ** Data model *)

Definition NBUCKETS : Z := 13.
Definition NSHARD : nat := 13.

(** [uint] arithmetic: the result of [++]/[--] is reduced modulo 2^32. *)
Definition wrap32 (z : Z) : Z := z mod 2 ^ 32.

(** A [struct buf *]: null, [&bcache.buf[i]] or [&bcache.lrus[i]]. *)
Inductive ptr : Type :=
| Null
| Buf (i : nat)
| Lru (i : nat).

Definition ptr_eqb (p q : ptr) : bool :=
  match p, q with
  | Null, Null => true
  | Buf i, Buf j => Nat.eqb i j
  | Lru i, Lru j => Nat.eqb i j
  | _, _ => false
  end.

Definition is_null (p : ptr) : bool :=
  match p with Null => true | _ => false end.

Definition block : Type := list byte.

(** Modelled from the spec: sleeplock.h is not part of the sources; the
    content lock is "mutually exclusive, may suspend a waiting thread".
    As in xv6 it records whether it is held and the holder's pid. *)
Record sleeplock : Type := mksleeplock { locked : bool; pid : Z }.

(** Modelled from the spec: buf.h is not part of the sources.  The fields
    are the ones bio.c touches; section 3 of the specification lists them
    (device id, block number, validity flag, reference count >= 0, content
    lock, hash-chain link, LRU links); [refcnt] is an unsigned 32-bit
    counter. *)
Record buf : Type := mkbuf {
  valid : Z;
  dev : Z;
  blockno : Z;
  lock : sleeplock;
  refcnt : Z;
  prev : ptr;
  next : ptr;
  next_hash : ptr;
  data : block
}.

Definition set_valid (v : Z) (b : buf) : buf :=
  mkbuf v (dev b) (blockno b) (lock b) (refcnt b) (prev b) (next b) (next_hash b) (data b).
Definition set_dev (v : Z) (b : buf) : buf :=
  mkbuf (valid b) v (blockno b) (lock b) (refcnt b) (prev b) (next b) (next_hash b) (data b).
Definition set_blockno (v : Z) (b : buf) : buf :=
  mkbuf (valid b) (dev b) v (lock b) (refcnt b) (prev b) (next b) (next_hash b) (data b).
Definition set_lock (v : sleeplock) (b : buf) : buf :=
  mkbuf (valid b) (dev b) (blockno b) v (refcnt b) (prev b) (next b) (next_hash b) (data b).
Definition set_refcnt (v : Z) (b : buf) : buf :=
  mkbuf (valid b) (dev b) (blockno b) (lock b) v (prev b) (next b) (next_hash b) (data b).
Definition set_prev (v : ptr) (b : buf) : buf :=
  mkbuf (valid b) (dev b) (blockno b) (lock b) (refcnt b) v (next b) (next_hash b) (data b).
Definition set_next (v : ptr) (b : buf) : buf :=
  mkbuf (valid b) (dev b) (blockno b) (lock b) (refcnt b) (prev b) v (next_hash b) (data b).
Definition set_next_hash (v : ptr) (b : buf) : buf :=
  mkbuf (valid b) (dev b) (blockno b) (lock b) (refcnt b) (prev b) (next b) v (data b).
Definition set_data (v : block) (b : buf) : buf :=
  mkbuf (valid b) (dev b) (blockno b) (lock b) (refcnt b) (prev b) (next b) (next_hash b) v.

Definition zero_buf : buf :=
  mkbuf 0 0 0 (mksleeplock false 0) 0 Null Null Null [].

(** The [bcache] structure together with the block device behind it.
    [disk], [nread] and [nwrite] stand for the external collaborator
    (virtio_disk.c): the content of every block and the number of device
    reads and writes issued so far. *)
Record state : Type := mkstate {
  bufs : nat -> buf;
  lrus : nat -> buf;
  elems : nat -> ptr;
  disk : Z -> Z -> block;
  nread : nat;
  nwrite : nat
}.

(** The record a non-null pointer designates. *)
Definition node (s : state) (p : ptr) : buf :=
  match p with
  | Null => zero_buf
  | Buf i => bufs s i
  | Lru i => lrus s i
  end.

(** [*p = f ( *p )] for a non-null [p]. *)
Definition upd (s : state) (p : ptr) (f : buf -> buf) : state :=
  mkstate
    (fun j => if ptr_eqb p (Buf j) then f (bufs s j) else bufs s j)
    (fun j => if ptr_eqb p (Lru j) then f (lrus s j) else lrus s j)
    (elems s) (disk s) (nread s) (nwrite s).

Definition set_elems (s : state) (i : nat) (v : ptr) : state :=
  mkstate (bufs s) (lrus s)
    (fun j => if Nat.eqb i j then v else elems s j)
    (disk s) (nread s) (nwrite s).

(** ** Outcomes and the kernel monad *)

Inductive res (A : Type) : Type :=
| Ok (a : A) (s : state)      (* normal return *)
| Panic (msg : string)        (* panic(): the kernel stops *)
| Fault                       (* null pointer dereference *)
| Blocked (s : state)         (* the thread sleeps on a held sleeplock *)
| Diverge.                    (* a loop ran out of fuel *)

Arguments Ok {A} a s.
Arguments Panic {A} msg.
Arguments Fault {A}.
Arguments Blocked {A} s.
Arguments Diverge {A}.

Definition M (A : Type) : Type := state -> res A.

Definition ret {A} (a : A) : M A := fun s => Ok a s.

Definition bind {A B} (m : M A) (f : A -> M B) : M B :=
  fun s =>
    match m s with
    | Ok a s' => f a s'
    | Panic msg => Panic msg
    | Fault => Fault
    | Blocked s' => Blocked s'
    | Diverge => Diverge
    end.

Notation "x <- m ;; k" := (bind m (fun x => k))
  (at level 61, m at next level, right associativity).
Notation "m ;;; k" := (bind m (fun _ => k))
  (at level 61, right associativity).

Definition panic {A} (msg : string) : M A := fun _ => Panic msg.

(** [*p] as an rvalue. *)
Definition load (p : ptr) : M buf :=
  fun s => match p with Null => Fault | _ => Ok (node s p) s end.

(** An assignment to a field of [*p]. *)
Definition store (p : ptr) (f : buf -> buf) : M unit :=
  fun s => match p with Null => Fault | _ => Ok tt (upd s p f) end.

(** ** The hash table: find_ptr, btable_insert, btable_remove, btable_find *)

(** A [struct buf **]: the address of [bcache.elems[i]] or of the
    [next_hash] field of a record. *)
Inductive slot : Type :=
| Elem (i : nat)
| NextHash (p : ptr).

Definition slot_get (p : slot) : M ptr :=
  match p with
  | Elem i => fun s => Ok (elems s i) s
  | NextHash q => x <- load q ;; ret (next_hash x)
  end.

Definition slot_set (p : slot) (v : ptr) : M unit :=
  match p with
  | Elem i => fun s => Ok tt (set_elems s i v)
  | NextHash q => store q (set_next_hash v)
  end.

Definition hash (blk : Z) : nat := Z.to_nat (blk mod NBUCKETS).

(** The guard of find_ptr's loop, for a non-null [*p]. *)
Definition differs (d blk : Z) (x : buf) : bool :=
  negb (Z.eqb (blockno x) blk) || negb (Z.eqb (dev x) d).

Fixpoint find_ptr_loop (fuel : nat) (d blk : Z) (p : slot) : M slot :=
  match fuel with
  | O => fun _ => Diverge
  | S fuel' =>
      q <- slot_get p ;;
      if is_null q then ret p
      else
        x <- load q ;;
        if differs d blk x then find_ptr_loop fuel' d blk (NextHash q)
        else ret p
  end.

Section Cache.

(** Bound on the number of iterations of find_ptr's [while] loop. *)
Variable fuel : nat.

(** What other threads do to the cache while bget, in its stealing loop,
    has released the home shard's lock and not yet re-acquired it
    (iteration [i], [i > idx]). *)
Variable env : nat -> state -> state.

Definition find_ptr (d blk : Z) : M slot :=
  find_ptr_loop fuel d blk (Elem (hash blk)).

Definition btable_insert (b : ptr) : M unit :=
  x <- load b ;;
  p <- find_ptr (dev x) (blockno x) ;;
  slot_set p b ;;;
  store b (set_next_hash Null).

Definition btable_remove (b : ptr) : M unit :=
  x <- load b ;;
  p <- find_ptr (dev x) (blockno x) ;;
  q <- slot_get p ;;
  if is_null q then ret tt
  else
    y <- load q ;;
    slot_set p (next_hash y).

Definition btable_find (d blk : Z) : M ptr :=
  p <- find_ptr d blk ;;
  slot_get p.

(** ** The LRU lists *)

Definition lru_remove (b : ptr) : M unit :=
  x <- load b ;;
  store (next x) (set_prev (prev x)) ;;;
  x <- load b ;;
  store (prev x) (set_next (next x)).

Definition lru_add (b head : ptr) : M unit :=
  store b (set_next head) ;;;
  h <- load head ;;
  store b (set_prev (prev h)) ;;;
  x <- load b ;;
  store (prev x) (set_next b) ;;;
  x <- load b ;;
  store (next x) (set_prev b).

Fixpoint binit_heads (n : nat) (i : nat) : M unit :=
  match n with
  | O => ret tt
  | S n' =>
      store (Lru i) (set_next (Lru i)) ;;;
      store (Lru i) (set_prev (Lru i)) ;;;
      binit_heads n' (S i)
  end.

Fixpoint binit_bufs (n : nat) (i : nat) : M unit :=
  match n with
  | O => ret tt
  | S n' =>
      lru_add (Buf i) (Lru (Nat.modulo i NSHARD)) ;;;
      binit_bufs n' (S i)
  end.

(** [NBUF] comes from param.h, which is not part of the sources; it is a
    parameter of the model. *)
Definition binit (NBUF : nat) : M unit :=
  binit_heads NSHARD 0 ;;;
  binit_bufs NBUF 0.

(** ** Sleeplocks (content locks) *)

(** Modelled from the spec: sleeplock.c is not part of the sources.
    [acquiresleep] takes a free lock for the calling process [me] and puts
    the caller to sleep on a held one. *)
Definition acquiresleep (me : Z) (b : ptr) : M unit :=
  x <- load b ;;
  if locked (lock x) then (fun s => Blocked s)
  else store b (set_lock (mksleeplock true me)).

Definition releasesleep (b : ptr) : M unit :=
  store b (set_lock (mksleeplock false 0)).

Definition holdingsleep (me : Z) (l : sleeplock) : bool :=
  locked l && Z.eqb (pid l) me.

(** ** bget *)

(** Which [return] of bget produced the buffer (ghost information). *)
Inductive via : Type :=
| ByHit                 (* line 112: found in the home chain *)
| ByLocal               (* line 126: victim from the home shard's LRU *)
| ByRecheck (i : nat)   (* line 147: found by the re-check of iteration i *)
| BySteal (i : nat).    (* line 167: victim stolen from shard i *)

Definition interfere (i : nat) : M unit := fun s => Ok tt (env i s).

Definition incr_refcnt (b : ptr) : M unit :=
  x <- load b ;; store b (set_refcnt (wrap32 (refcnt x + 1))).

Definition decr_refcnt (b : ptr) : M unit :=
  x <- load b ;; store b (set_refcnt (wrap32 (refcnt x - 1))).

(** The body of the [for] loop of lines 129-168 once both locks are
    held (lines 140-167); [None] stands for [continue]. *)
Definition steal_iter (me d blk : Z) (i : nat) : M (option (ptr * via)) :=
  b <- btable_find d blk ;;
  if negb (is_null b) then
    incr_refcnt b ;;;
    acquiresleep me b ;;;
    ret (Some (b, ByRecheck i))
  else
    h <- load (Lru i) ;;
    if ptr_eqb (next h) (Lru i) then ret None
    else
      let b := next h in
      h' <- load (Lru i) ;;
      lru_remove (next h') ;;;
      btable_insert b ;;;
      store b (set_refcnt 1) ;;;
      store b (set_blockno blk) ;;;
      store b (set_dev d) ;;;
      store b (set_valid 0) ;;;
      acquiresleep me b ;;;
      ret (Some (b, BySteal i)).

(** The [for] loop itself; [n] iterations remain, [i] is the loop
    variable. *)
Fixpoint steal_loop (me d blk : Z) (idx : nat) (n : nat) (i : nat)
  : M (ptr * via) :=
  match n with
  | O => panic "bget: no buffers"%string
  | S n' =>
      if Nat.eqb i idx then steal_loop me d blk idx n' (S i)
      else
        (if Nat.ltb i idx then ret tt      (* acquire(&bcache.locks[i]) *)
         else interfere i) ;;;             (* release(lk); acquire(..i); acquire(lk) *)
        r <- steal_iter me d blk i ;;
        match r with
        | Some x => ret x
        | None => steal_loop me d blk idx n' (S i)
        end
  end.

Definition bget_via (me d blk : Z) : M (ptr * via) :=
  let idx := hash blk in
  b <- btable_find d blk ;;
  if negb (is_null b) then
    incr_refcnt b ;;;
    acquiresleep me b ;;;
    ret (b, ByHit)
  else
    h <- load (Lru idx) ;;
    if negb (ptr_eqb (next h) (Lru idx)) then
      let b := next h in
      store b (set_refcnt 1) ;;;
      store b (set_blockno blk) ;;;
      store b (set_dev d) ;;;
      store b (set_valid 0) ;;;
      btable_insert b ;;;
      lru_remove b ;;;
      acquiresleep me b ;;;
      ret (b, ByLocal)
    else steal_loop me d blk idx NSHARD 0.

Definition bget (me d blk : Z) : M ptr :=
  r <- bget_via me d blk ;; ret (fst r).

(** ** Block I/O, bread, bwrite, brelse, bpin, bunpin *)

(** Modelled from the spec: virtio_disk.c is not part of the sources;
    "read(device, buffer) fills buffer content synchronously;
    write(device, buffer) persists content synchronously". *)
Definition virtio_disk_rw (d : Z) (b : ptr) (write : bool) : M unit :=
  x <- load b ;;
  if write then
    fun s => Ok tt (mkstate (bufs s) (lrus s) (elems s)
                      (fun d' n' => if Z.eqb d' d && Z.eqb n' (blockno x)
                                    then data x else disk s d' n')
                      (nread s) (S (nwrite s)))
  else
    (fun s => Ok tt (mkstate (bufs s) (lrus s) (elems s) (disk s)
                       (S (nread s)) (nwrite s))) ;;;
    (fun s => store b (set_data (disk s d (blockno x))) s).

Definition bread_via (me d blk : Z) : M (ptr * via) :=
  r <- bget_via me d blk ;;
  let b := fst r in
  x <- load b ;;
  (if Z.eqb (valid x) 0 then
     virtio_disk_rw (dev x) b false ;;;
     store b (set_valid 1)
   else ret tt) ;;;
  ret r.

Definition bread (me d blk : Z) : M ptr :=
  r <- bread_via me d blk ;; ret (fst r).

Definition bwrite (me : Z) (b : ptr) : M unit :=
  x <- load b ;;
  if negb (holdingsleep me (lock x)) then panic "bwrite"%string
  else virtio_disk_rw (dev x) b true.

Definition brelse (me : Z) (b : ptr) : M unit :=
  x <- load b ;;
  if negb (holdingsleep me (lock x)) then panic "brelse"%string
  else
    releasesleep b ;;;
    x <- load b ;;
    let idx := hash (blockno x) in
    decr_refcnt b ;;;
    x <- load b ;;
    if Z.eqb (refcnt x) 0 then
      lru_add b (Lru idx) ;;;
      btable_remove b
    else ret tt.

Definition bpin (b : ptr) : M unit := incr_refcnt b.

Definition bunpin (b : ptr) : M unit := decr_refcnt b.

End Cache.

(** The memory image before binit: static storage is zero-initialised. *)
Definition boot (dsk : Z -> Z -> block) : state :=
  mkstate (fun _ => zero_buf) (fun _ => zero_buf) (fun _ => Null) dsk O O.

(** No interference: the stealing loop runs alone. *)
Definition quiet : nat -> state -> state := fun _ s => s.

(** * The socket receive path (kernel/sysnet.c) *)

Module Sysnet.

(** A received packet: the bytes [m->head[0 .. m->len)]. *)
Definition mbuf : Type := list byte.

(** The part of [struct sock] sockread touches: whether [s->lock] is
    held, and the receive queue. *)
Record sock : Type := mksock { held : bool; rxq : list mbuf }.

(** What the process finds when sleep() returns: the queue as the other
    threads left it and its own [killed] flag.  Modelled from the spec:
    proc.c (sleep, wakeup, kill) is not part of the sources; "a thread
    asleep ... must be wakeable by an external abort signal". *)
Record wake : Type := mkwake { wk_rxq : list mbuf; wk_killed : bool }.

Inductive result : Type :=
| Returned (v : Z) (s : sock) (out : option mbuf)
| Asleep                       (* blocked in sleep(), no wake-up came *)
| Panicked (msg : string).

(** How the [while] loop of lines 87-93 ends. *)
Inductive waited : Type :=
| Killed                       (* line 88: pr->killed seen *)
| Data (m : mbuf) (q : list mbuf)   (* the queue is not empty *)
| Forever.                     (* still in sleep() *)

Fixpoint wait_for_data (q : list mbuf) (killed : bool) (wakes : list wake) : waited :=
  match q with
  | m :: q' => Data m q'
  | [] =>
      if killed then Killed
      else
        match wakes with
        | [] => Forever
        | w :: wakes' => wait_for_data (wk_rxq w) (wk_killed w) wakes'
        end
  end.

(** sockread; [copyout] stands for copyout() of vm.c: whether copying
    [m] to the user address succeeds.  [killed] is [pr->killed] on entry,
    [wakes] what the process finds at each return of sleep(). *)
Definition sockread (copyout : Z -> mbuf -> bool)
           (killed : bool) (s : sock) (addr n : Z) (wakes : list wake)
  : result :=
  (* acquire(&s->lock) *)
  match wait_for_data (rxq s) killed wakes with
  | Killed => Returned (-1) (mksock false []) None
  | Forever => Asleep
  | Data m q =>
      let j := Z.of_nat (List.length m) in
      if Z.ltb n j then Panicked "smallbuf"%string
      else if negb (copyout addr m) then Returned (-1) (mksock false q) None
      else Returned j (mksock false q) (Some m)
  end.

End Sysnet.

(** * The locking skeleton of bio.c *)

Module ShardLocks.

(** The locks of the cache: [bcache.locks[i]], [bcache.lock] and the
    content (sleep) lock of buffer [b]. *)
Inductive lockid : Type :=
| Shard (i : nat)
| Pool
| Content (b : nat).

Definition lockid_eqb (l l' : lockid) : bool :=
  match l, l' with
  | Shard i, Shard j => Nat.eqb i j
  | Pool, Pool => true
  | Content b, Content c => Nat.eqb b c
  | _, _ => false
  end.

(** Where a thread stands in the code of the cache. *)
Inductive pc : Type :=
| Out                               (* in the caller, outside the cache *)
| GetAcquire (idx : nat)            (* bget, line 104: acquire(lk) *)
| GetHome (idx : nat)               (* lines 107-127, lk held *)
| GetLoop (idx i : nat)             (* line 129, lk held *)
| GetAcquireLow (idx i : nat)       (* line 133: acquire(&locks[i]), lk held *)
| GetAcquireHigh (idx i : nat)      (* line 136: acquire(&locks[i]), lk released *)
| GetReacquire (idx i : nat)        (* line 137: acquire(lk), locks[i] held *)
| GetBoth (idx i : nat)             (* lines 141-162, both held *)
| GetReleaseOther (i : nat)         (* lines 145/164: lk released, locks[i] held *)
| GetSleep (b : nat)                (* acquiresleep(&b->lock), no spinlock held *)
| PinAcquire                        (* bpin/bunpin: acquire(&bcache.lock) *)
| PinHold                           (* bcache.lock held *)
| RelAcquire (idx : nat)            (* brelse, line 208: acquire(lk) *)
| RelHome (idx : nat)               (* brelse, lines 210-214, lk held *)
| Halted (lk : option nat).         (* panic: in bget (line 170) with lk held,
                                       in brelse (line 202) with no spinlock *)

(** A thread: the buffers whose content lock it holds, and where it
    stands.  A caller may hold several buffers and may call bget while it
    holds some. *)
Definition thread : Type := list nat * pc.

(** The spinlocks held at a program point. *)
Definition spins (p : pc) : list lockid :=
  match p with
  | GetHome idx | GetLoop idx _ | GetAcquireLow idx _ | RelHome idx
  | Halted (Some idx) => [Shard idx]
  | GetReacquire _ i | GetReleaseOther i => [Shard i]
  | GetBoth idx i => [Shard idx; Shard i]
  | PinHold => [Pool]
  | _ => []
  end.

(** The locks a thread holds. *)
Definition holds (th : thread) : list lockid :=
  spins (snd th) ++ map Content (fst th).

(** The lock a thread is about to acquire, if its next statement is an
    acquire. *)
Definition wants (p : pc) : option lockid :=
  match p with
  | GetAcquire idx | GetReacquire idx _ | RelAcquire idx => Some (Shard idx)
  | GetAcquireLow _ i | GetAcquireHigh _ i => Some (Shard i)
  | GetSleep b => Some (Content b)
  | PinAcquire => Some Pool
  | _ => None
  end.

(** The statements of bget, brelse, bpin and bunpin that touch a lock.
    The data of the cache decide which branch a thread takes and which
    buffer bget returns; here every branch and every buffer is possible. *)
Inductive local_step : thread -> thread -> Prop :=
(* the caller calls bget(dev, blockno), idx = blockno % NBUCKETS *)
| step_bget h idx :
    (idx < NSHARD)%nat -> local_step (h, Out) (h, GetAcquire idx)
(* line 104 *)
| step_get_lk h idx : local_step (h, GetAcquire idx) (h, GetHome idx)
(* lines 109-113 and 117-127: release(lk) before acquiresleep *)
| step_home_found h idx b : local_step (h, GetHome idx) (h, GetSleep b)
(* line 129: neither cached nor a local victim *)
| step_home_loop h idx : local_step (h, GetHome idx) (h, GetLoop idx 0)
(* line 170 *)
| step_loop_panic h idx i :
    (NSHARD <= i)%nat -> local_step (h, GetLoop idx i) (h, Halted (Some idx))
(* lines 130-131 *)
| step_loop_skip h idx i :
    (i < NSHARD)%nat -> i = idx -> local_step (h, GetLoop idx i) (h, GetLoop idx (S i))
(* lines 132-133 *)
| step_loop_low h idx i :
    (i < NSHARD)%nat -> (i < idx)%nat ->
    local_step (h, GetLoop idx i) (h, GetAcquireLow idx i)
(* lines 134-135: release(lk) *)
| step_loop_high h idx i :
    (i < NSHARD)%nat -> (idx < i)%nat ->
    local_step (h, GetLoop idx i) (h, GetAcquireHigh idx i)
(* line 133 *)
| step_low h idx i : local_step (h, GetAcquireLow idx i) (h, GetBoth idx i)
(* line 136 *)
| step_high h idx i : local_step (h, GetAcquireHigh idx i) (h, GetReacquire idx i)
(* line 137 *)
| step_reacquire h idx i : local_step (h, GetReacquire idx i) (h, GetBoth idx i)
(* lines 144 and 163: release(lk) *)
| step_both_found h idx i : local_step (h, GetBoth idx i) (h, GetReleaseOther i)
(* lines 150-153: release(&bcache.locks[i]); continue *)
| step_both_empty h idx i : local_step (h, GetBoth idx i) (h, GetLoop idx (S i))
(* lines 145 and 164: release(&bcache.locks[i]) *)
| step_other h i b : local_step (h, GetReleaseOther i) (h, GetSleep b)
(* acquiresleep(&b->lock); return b *)
| step_sleep h b : local_step (h, GetSleep b) (b :: h, Out)
(* the caller calls bpin(b) or bunpin(b) *)
| step_pin h : local_step (h, Out) (h, PinAcquire)
| step_pin_lock h : local_step (h, PinAcquire) (h, PinHold)
| step_pin_done h : local_step (h, PinHold) (h, Out)
(* the caller calls brelse(b) on a buffer it holds: releasesleep,
   idx = b->blockno % NBUCKETS *)
| step_brelse h b idx :
    In b h -> (idx < NSHARD)%nat ->
    local_step (h, Out) (remove Nat.eq_dec b h, RelAcquire idx)
(* line 202: brelse(b) on a buffer it does not hold *)
| step_brelse_panic h b : ~ In b h -> local_step (h, Out) (h, Halted None)
(* line 208 *)
| step_rel_lk h idx : local_step (h, RelAcquire idx) (h, RelHome idx)
(* line 215 *)
| step_rel_done h idx : local_step (h, RelHome idx) (h, Out).

Definition config : Type := list thread.

Definition free (c : config) (l : lockid) : bool :=
  forallb (fun th => negb (existsb (lockid_eqb l) (holds th))) c.

Definition enabled (c : config) (th : thread) : bool :=
  match wants (snd th) with
  | Some l => free c l
  | None => true
  end.

Fixpoint set_nth (c : config) (t : nat) (th : thread) : config :=
  match c, t with
  | [], _ => []
  | _ :: c', O => th :: c'
  | q :: c', S t' => q :: set_nth c' t' th
  end.

(** One thread takes one step; an acquire needs its lock free. *)
Inductive step : config -> config -> Prop :=
| step_thread c t th th' :
    nth_error c t = Some th -> enabled c th = true -> local_step th th' ->
    step c (set_nth c t th').

(** Initially every thread is outside the cache and holds nothing. *)
Inductive reachable (n : nat) : config -> Prop :=
| reach_init : reachable n (repeat ([], Out) n)
| reach_step c c' : reachable n c -> step c c' -> reachable n c'.

(** The indices a program point mentions are consistent with the code:
    the loop only acquires a lower shard while holding the home lock, and
    re-acquires the home lock only while holding a higher shard. *)
Definition valid_pc (p : pc) : Prop :=
  match p with
  | GetAcquireLow idx i => (i < idx)%nat
  | GetAcquireHigh idx i | GetReacquire idx i => (idx < i)%nat
  | GetBoth idx i => i <> idx
  | _ => True
  end.

(** The order in which the spinlocks are taken: a shard before any lower
    shard, the pool lock with no other lock. *)
Definition rank (l : lockid) : nat :=
  match l with
  | Shard i => i
  | Pool => S NSHARD
  | Content _ => S (S NSHARD)
  end.

(** The thread is inside bget, brelse, bpin or bunpin and its next
    statement is not acquiresleep. *)
Definition running (p : pc) : bool :=
  match p with
  | Out | GetSleep _ | Halted _ => false
  | _ => true
  end.

Definition halted (p : pc) : bool :=
  match p with Halted _ => true | _ => false end.

(** No thread of the configuration has panicked. *)
Definition no_panic (c : config) : Prop :=
  forall t th, nth_error c t = Some th -> halted (snd th) = false.

(** Thread [t] can take its next step. *)
Definition can_step (c : config) (t : nat) : Prop :=
  exists th th', nth_error c t = Some th /\ enabled c th = true /\ local_step th th'.

(** Some thread that is inside the cache and not asleep can take its next
    step. *)
Definition some_runs (c : config) : Prop :=
  exists t th, nth_error c t = Some th /\ running (snd th) = true /\ can_step c t.

(** Thread [t] is outside the cache, holds buffer [b] and can call
    brelse on it. *)
Definition can_release (c : config) (t b : nat) : Prop :=
  exists h idx, nth_error c t = Some (h, Out) /\ In b h /\
                step c (set_nth c t (remove Nat.eq_dec b h, RelAcquire idx)).

(** Threads acquire buffers one at a time: a thread asleep in bget holds
    no buffer. *)
Definition one_at_a_time (c : config) : Prop :=
  forall t h b, nth_error c t = Some (h, GetSleep b) -> h = [].

(** No lock is held by two threads. *)
Definition exclusive (c : config) : Prop :=
  forall t t' th th' l,
    nth_error c t = Some th -> nth_error c t' = Some th' ->
    In l (holds th) -> In l (holds th') -> t = t'.

(** Two threads stealing towards each other: thread 0, whose home shard
    is 1, holds lock 1 and is about to acquire lock 0; thread 1, whose home
    shard is 0, has released lock 0 and is about to acquire lock 1. *)
Definition crossing : config := [([], GetAcquireLow 1 0); ([], GetAcquireHigh 0 1)].

(** Thread 0 holds buffer 0 and waits for thread 1 to release buffer 13
    while thread 2 is inside bpin. *)
Definition waiting : config :=
  [([], GetSleep 13); ([13%nat], Out); ([], PinHold)].

(** Thread 0 holds buffer 0 and sleeps in bget on buffer 13; thread 1 holds
    buffer 13 and sleeps in bget on buffer 0. *)
Definition embrace : config := [([0%nat], GetSleep 13); ([13%nat], GetSleep 0)].

End ShardLocks.

(** * Vocabulary of the specification

    The predicates and auxiliary functions in which the properties of the
    cache are stated, and the concrete scenarios. *)

(** [chain s p l]: following [next_hash] from [p] visits exactly the
    buffers [l] and then reaches the null pointer. *)
Fixpoint chain (s : state) (p : ptr) (l : list nat) : Prop :=
  match l with
  | [] => p = Null
  | k :: l' => p = Buf k /\ chain s (next_hash (bufs s k)) l'
  end.

Definition slot_val (s : state) (p : slot) : ptr :=
  match p with
  | Elem i => elems s i
  | NextHash q => next_hash (node s q)
  end.

(** Where find_ptr's loop stops on a chain [l] entered through [p]. *)
Fixpoint walk (s : state) (d blk : Z) (p : slot) (l : list nat) : slot :=
  match l with
  | [] => p
  | k :: l' =>
      if differs d blk (bufs s k) then walk s d blk (NextHash (Buf k)) l' else p
  end.

(** The first buffer of [l] with identity [(d, blk)], if any. *)
Fixpoint lookup (s : state) (d blk : Z) (l : list nat) : ptr :=
  match l with
  | [] => Null
  | k :: l' => if differs d blk (bufs s k) then lookup s d blk l' else Buf k
  end.

Definition good_slot (p : slot) : Prop :=
  match p with NextHash Null => False | _ => True end.

(** Two states with the same hash table: same chain heads, and the same
    identity and [next_hash] link in every buffer. *)
Definition same_table (s s' : state) : Prop :=
  (forall i, elems s' i = elems s i) /\
  (forall k, next_hash (bufs s' k) = next_hash (bufs s k) /\
             dev (bufs s' k) = dev (bufs s k) /\
             blockno (bufs s' k) = blockno (bufs s k)).

(** Two states that differ at most in the hash table. *)
Definition same_but_hash (s s' : state) : Prop :=
  (forall q, set_next_hash Null (node s' q) = set_next_hash Null (node s q)) /\
  disk s' = disk s /\ nread s' = nread s /\ nwrite s' = nwrite s.

(** The state after [*p = v] for a slot [p]. *)
Definition slot_put (s : state) (p : slot) (v : ptr) : state :=
  match p with
  | Elem i => set_elems s i v
  | NextHash q => upd s q (set_next_hash v)
  end.

(** The chain [l] with its first buffer of identity [(d, blk)] unlinked. *)
Fixpoint drop_match (s : state) (d blk : Z) (l : list nat) : list nat :=
  match l with
  | [] => []
  | k :: l' => if differs d blk (bufs s k) then k :: drop_match s d blk l' else l'
  end.

(** The slot is not the [next_hash] field of a buffer of [l]. *)
Definition slot_off (p : slot) (l : list nat) : Prop :=
  match p with
  | NextHash (Buf q) => ~ In q l
  | _ => True
  end.

(** [path s p l q]: following [next] from [p] visits the buffers [l] and
    then reaches [q]; every [prev] link points back. *)
Fixpoint path (s : state) (p : ptr) (l : list nat) (q : ptr) : Prop :=
  match l with
  | [] => next (node s p) = q /\ prev (node s q) = p
  | k :: l' =>
      next (node s p) = Buf k /\ prev (bufs s k) = p /\ path s (Buf k) l' q
  end.

(** Shard [i]'s circular list holds exactly the buffers [l], the next
    victim ([bcache.lrus[i].next]) first and the most recently released
    buffer ([bcache.lrus[i].prev]) last. *)
Definition lru_list (s : state) (i : nat) (l : list nat) : Prop :=
  NoDup l /\ path s (Lru i) l (Lru i).

(** The state after [lru_add(&buf[k], &lrus[i])] when the list's last
    node is [t]. *)
Definition lru_add_state (s : state) (k i : nat) (t : ptr) : state :=
  upd (upd (upd (upd s (Buf k) (set_next (Lru i)))
                (Buf k) (set_prev t))
           t (set_next (Buf k)))
      (Lru i) (set_prev (Buf k)).

(** Apart from [prev] and [next], lru_add changes nothing. *)
Definition same_but_links (s s' : state) : Prop :=
  (forall q, set_prev Null (set_next Null (node s' q)) =
             set_prev Null (set_next Null (node s q))) /\
  (forall i, elems s' i = elems s i) /\
  disk s' = disk s /\ nread s' = nread s /\ nwrite s' = nwrite s.

(** The state after [lru_remove(b)] when [b->next = n] and [b->prev = pv]. *)
Definition lru_remove_state (s : state) (n pv : ptr) : state :=
  upd (upd s n (set_prev pv)) pv (set_next n).

(** The successor of a list's first buffer. *)
Definition after_head (i : nat) (l : list nat) : ptr :=
  match l with [] => Lru i | m :: _ => Buf m end.

Definition same_links (s s' : state) : Prop :=
  forall q, next (node s' q) = next (node s q) /\
            prev (node s' q) = prev (node s q).

Definition same_refs (s s' : state) : Prop :=
  forall k, refcnt (bufs s' k) = refcnt (bufs s k).

Definition setL (L : nat -> list nat) (i : nat) (l : list nat) : nat -> list nat :=
  fun j => if Nat.eqb j i then l else L j.

(** The shards' lists are well formed, hold buffers of the pool only and
    are pairwise disjoint. *)
Definition lists_ok (NBUF : nat) (s : state) (L : nat -> list nat) : Prop :=
  (forall i, (i < NSHARD)%nat -> lru_list s i (L i)) /\
  (forall i k, (i < NSHARD)%nat -> In k (L i) -> (k < NBUF)%nat) /\
  (forall i j k, (i < NSHARD)%nat -> (j < NSHARD)%nat ->
                 In k (L i) -> In k (L j) -> i = j).

(** Reference counts are in the range of [uint], and a buffer is
    unreferenced exactly when it is on some shard's list. *)
Definition refs_ok (NBUF : nat) (s : state) (L : nat -> list nat) : Prop :=
  forall k, (k < NBUF)%nat ->
    0 <= refcnt (bufs s k) < 2 ^ 32 /\
    (refcnt (bufs s k) = 0 <-> exists i, (i < NSHARD)%nat /\ In k (L i)).

(** The two-state invariant of the buffers, with the lists [L] of the
    shards as witness: a referenced buffer is on no list, an unreferenced
    one on exactly one. *)
Definition two_state (NBUF : nat) (s : state) (L : nat -> list nat) : Prop :=
  lists_ok NBUF s L /\ refs_ok NBUF s L.

Definition unlocked : sleeplock := mksleeplock false 0.

(** The state brelse leaves when the count stays positive. *)
Definition released (s : state) (k : nat) : state :=
  upd (upd s (Buf k) (set_lock unlocked))
      (Buf k) (set_refcnt (wrap32 (refcnt (bufs s k) - 1))).

(** A record with its three links erased. *)
Definition core (x : buf) : buf :=
  set_next_hash Null (set_prev Null (set_next Null x)).

(** Two states that agree on the disk and on every field of every record
    except [prev], [next] and [next_hash] (and on [bcache.elems] possibly
    not). *)
Definition same_core (s s' : state) : Prop :=
  (forall q, core (node s' q) = core (node s q)) /\
  disk s' = disk s /\ nread s' = nread s /\ nwrite s' = nwrite s.

(** The four assignments that give a victim its new identity. *)
Definition victim_set (d blk : Z) (s : state) (v : nat) : state :=
  upd (upd (upd (upd s (Buf v) (set_refcnt 1)) (Buf v) (set_blockno blk))
           (Buf v) (set_dev d))
      (Buf v) (set_valid 0).

(** The outcome of [acquiresleep(&b->lock); return b] in state [s]. *)
Definition lock_and_return {A : Type} (me : Z) (s : state) (k : nat) (a : A) : res A :=
  if locked (lock (bufs s k)) then Blocked s
  else Ok a (upd s (Buf k) (set_lock (mksleeplock true me))).

Definition bumped (s : state) (k : nat) : state :=
  upd s (Buf k) (set_refcnt (wrap32 (refcnt (bufs s k) + 1))).

(** [keeps P m]: whatever [m] does, it leaves [P] true, also when it puts
    the caller to sleep. *)
Definition keeps {A : Type} (P : state -> Prop) (m : M A) : Prop :=
  forall s, P s ->
    match m s with
    | Ok _ s' => P s'
    | Blocked s' => P s'
    | _ => True
    end.

(** Reference counts of all records are in the range of [uint]. *)
Definition refs_in_range (s : state) : Prop :=
  forall q, 0 <= refcnt (node s q) < 2 ^ 32.

(** Nothing to find: the identity is in no chain position that the lookup
    reaches, and every shard's LRU list is empty. *)
Definition exhausted (fuel : nat) (d blk : Z) (s : state) : Prop :=
  btable_find fuel d blk s = Ok Null s /\
  forall i, (i < NSHARD)%nat -> next (lrus s i) = Lru i.

(** The state after a device write of buffer [k]. *)
Definition disk_written (s : state) (k : nat) : state :=
  mkstate (bufs s) (lrus s) (elems s)
    (fun d' n' => if Z.eqb d' (dev (bufs s k)) && Z.eqb n' (blockno (bufs s k))
                  then data (bufs s k) else disk s d' n')
    (nread s) (S (nwrite s)).

(** The state after a device read into buffer [v]. *)
Definition disk_read (s : state) (v : nat) : state :=
  upd (mkstate (bufs s) (lrus s) (elems s) (disk s) (S (nread s)) (nwrite s))
      (Buf v) (set_data (disk s (dev (bufs s v)) (blockno (bufs s v)))).

(** Every hash chain is a finite list short enough for find_ptr. *)
Definition chains_wf (fuel : nat) (s : state) : Prop :=
  forall c, (c < NSHARD)%nat ->
    exists C, chain s (elems s c) C /\ (List.length C < fuel)%nat.

(** A lookup of [(d, blk)] that succeeds finds a referenced buffer of the
    pool (whose count can still be incremented). *)
Definition hits_referenced (NBUF : nat) (d blk : Z) (s : state) : Prop :=
  forall C k, chain s (elems s (hash blk)) C -> lookup s d blk C = Buf k ->
    (k < NBUF)%nat /\ 0 < refcnt (bufs s k) < 2 ^ 32 - 1.

Definition bget_ready (NBUF fuel : nat) (d blk : Z) (s : state) : Prop :=
  (exists L, two_state NBUF s L) /\ chains_wf fuel s /\ hits_referenced NBUF d blk s.

(** bget returned or went to sleep with the invariant intact, or found no
    buffer at all. *)
Definition invariant_kept {A : Type} (NBUF : nat) (r : res A) : Prop :=
  match r with
  | Ok _ s' => exists L, two_state NBUF s' L
  | Blocked s' => exists L, two_state NBUF s' L
  | Panic msg => msg = "bget: no buffers"%string
  | Fault => False
  | Diverge => False
  end.

Definition gets {A : Type} (f : state -> A) : M A := fun s => Ok (f s) s.

Definition final_state {A : Type} (r : res A) (dflt : state) : state :=
  match r with Ok _ s => s | _ => dflt end.

Definition blank : Z -> Z -> block := fun _ _ => [].

(** The cache after [binit()] with [NBUF] buffers. *)
Definition pool (NBUF : nat) : state :=
  final_state (binit NBUF (boot blank)) (boot blank).

(** The lists binit builds: buffer [k] goes to shard [k mod 13]. *)
Definition round_robin (NBUF : nat) (i : nat) : list nat :=
  filter (fun k => Nat.eqb (Nat.modulo k NSHARD) i) (seq 0 NBUF).

(** The value a computation returns, if it returns. *)
Definition returned {A : Type} (r : res A) : option A :=
  match r with Ok a _ => Some a | _ => None end.

Definition memb (k : nat) (l : list nat) : bool := existsb (Nat.eqb k) l.

Fixpoint nodupb (l : list nat) : bool :=
  match l with
  | [] => true
  | k :: l' => negb (memb k l') && nodupb l'
  end.

Fixpoint pathb (s : state) (p : ptr) (l : list nat) (q : ptr) : bool :=
  match l with
  | [] => ptr_eqb (next (node s p)) q && ptr_eqb (prev (node s q)) p
  | k :: l' =>
      ptr_eqb (next (node s p)) (Buf k) && ptr_eqb (prev (bufs s k)) p &&
      pathb s (Buf k) l' q
  end.

Definition lru_listb (s : state) (i : nat) (l : list nat) : bool :=
  nodupb l && pathb s (Lru i) l (Lru i).

Fixpoint chainb (s : state) (p : ptr) (l : list nat) : bool :=
  match l with
  | [] => is_null p
  | k :: l' => ptr_eqb p (Buf k) && chainb s (next_hash (bufs s k)) l'
  end.

Definition listsb (NBUF : nat) (s : state) (L : nat -> list nat) : bool :=
  forallb (fun i =>
             lru_listb s i (L i) && forallb (fun k => Nat.ltb k NBUF) (L i) &&
             forallb (fun j => Nat.eqb i j ||
                               forallb (fun k => negb (memb k (L j))) (L i))
                     (seq 0 NSHARD))
          (seq 0 NSHARD).

Definition refsb (NBUF : nat) (s : state) (L : nat -> list nat) : bool :=
  forallb (fun k =>
             let r := refcnt (bufs s k) in
             Z.leb 0 r && Z.ltb r (2 ^ 32) &&
             Bool.eqb (Z.eqb r 0) (existsb (fun i => memb k (L i)) (seq 0 NSHARD)))
          (seq 0 NBUF).

Definition two_stateb (NBUF : nat) (s : state) (L : nat -> list nat) : bool :=
  listsb NBUF s L && refsb NBUF s L.

(** The state a computation leaves, for computations that return. *)
Definition after {A : Type} (m : M A) (s : state) : state := final_state (m s) s.

(** Thread 1 reads block 0 of device 1, fills the buffer, writes it,
    releases it and reads the block again. *)
Definition reread_scenario : M (ptr * via * nat * (ptr * via) * nat * block) :=
  r1 <- bread_via 64 quiet 1 1 0 ;;
  store (fst r1) (set_data ["042"%byte]) ;;;
  bwrite 1 (fst r1) ;;;
  brelse 64 1 (fst r1) ;;;
  n <- gets nread ;;
  r2 <- bread_via 64 quiet 1 1 0 ;;
  n' <- gets nread ;;
  c <- gets (fun s => data (node s (fst r2))) ;;
  ret (r1, n, r2, n', c).

(** Three threads and block 16 of device 1 (shard 3).  Thread 1 reads
    block 3 and so takes shard 3's only buffer; thread 2 reads block 16 and
    gets a stolen buffer; thread 1 releases; thread 3 reads block 16, pins
    its buffer and releases it.  Thread 2 then pins its buffer, fills it,
    writes it, releases it and reads block 16 again. *)
Definition stale_reread_scenario
  : M (ptr * via * (ptr * via) * nat * (ptr * via) * nat * block * block) :=
  r1 <- bread_via 64 quiet 1 1 3 ;;
  r2 <- bread_via 64 quiet 2 1 16 ;;
  brelse 64 1 (fst r1) ;;;
  r3 <- bread_via 64 quiet 3 1 16 ;;
  bpin (fst r3) ;;;
  brelse 64 3 (fst r3) ;;;
  bpin (fst r2) ;;;
  store (fst r2) (set_data ["042"%byte]) ;;;
  bwrite 2 (fst r2) ;;;
  brelse 64 2 (fst r2) ;;;
  n <- gets nread ;;
  r4 <- bread_via 64 quiet 2 1 16 ;;
  n' <- gets nread ;;
  c <- gets (fun s => data (node s (fst r4))) ;;
  w <- gets (fun s => disk s 1 16) ;;
  ret (r2, r3, n, r4, n', c, w).

(** Buffer 0 held by thread 1 with identity (1, 0) and fresh content. *)
Definition held0 : state :=
  after (r <- bread_via 64 quiet 1 1 0 ;; store (fst r) (set_data ["042"%byte]))
        (pool 16).

(** The same, with an additional pin on buffer 0. *)
Definition pinned0 : state := after (bpin (Buf 0)) held0.

(** Identity and reference count of the record behind a pointer. *)
Definition ident (s : state) (b : ptr) : Z * Z * Z :=
  (dev (node s b), blockno (node s b), refcnt (node s b)).

(** Blocks 0, 13 and 26 of device [d], all of shard 0, requested by one
    thread that releases nothing; then the identities and counts of the
    three buffers. *)
Definition three_blocks (me d : Z)
  : M (ptr * via * (ptr * via) * (ptr * via) * list (Z * Z * Z)) :=
  r1 <- bget_via 64 quiet me d 0 ;;
  r2 <- bget_via 64 quiet me d 13 ;;
  r3 <- bget_via 64 quiet me d 26 ;;
  ids <- gets (fun s => map (ident s) [fst r1; fst r2; fst r3]) ;;
  ret (r1, r2, r3, ids).

(** Three threads on device [d]: the first takes shard 3's only buffer,
    the second and the third both ask for block 16 (shard 3). *)
Definition duplicate_scenario (d : Z)
  : M (ptr * via * (ptr * via) * (ptr * via) * list (Z * Z * Z) * list ptr) :=
  r1 <- bget_via 64 quiet 1 d 3 ;;
  r2 <- bget_via 64 quiet 2 d 16 ;;
  r3 <- bget_via 64 quiet 3 d 16 ;;
  ids <- gets (fun s => map (ident s) [fst r2; fst r3]) ;;
  ch <- gets (fun s => [elems s 3; next_hash (bufs s 3);
                        elems s 0; next_hash (bufs s 0); next_hash (bufs s 13)]) ;;
  ret (r1, r2, r3, ids, ch).

(** The state in which a computation went to sleep. *)
Definition is_blocked {A : Type} (r : res A) : bool :=
  match r with Blocked _ => true | _ => false end.

Definition blocked_state {A : Type} (r : res A) (dflt : state) : state :=
  match r with Blocked s => s | _ => dflt end.

(** Thread 1 holds block 0 and thread 2 holds block 13 of device 1. *)
Definition held_both : state :=
  after (bget 64 quiet 1 1 0 ;;; bget 64 quiet 2 1 13) (pool 16).

(** Buffer 0 acquired, pinned and released: still referenced by the pin. *)
Definition pinned_only : state :=
  after (r <- bget_via 64 quiet 1 1 0 ;; bpin (fst r) ;;; brelse 64 1 (fst r))
        (pool 16).

(** ** The invariant of the cache and the operations of its callers *)

(** The hash table after [btable_insert(&buf[v])]: buffer [v] ends its
    chain, and a chain head or a [next_hash] link may point to [v] now;
    nothing else changed. *)
Definition relinked (v : nat) (s s' : state) : Prop :=
  next_hash (bufs s' v) = Null /\
  (forall k, k <> v -> next_hash (bufs s' k) = next_hash (bufs s k) \/
                       next_hash (bufs s' k) = Buf v) /\
  (forall c, elems s' c = elems s c \/ elems s' c = Buf v).

(** The hash table after btable_remove: a chain head or a [next_hash]
    link may skip the buffer it pointed to; nothing else changed. *)
Definition unlinked (s s' : state) : Prop :=
  (forall k, next_hash (bufs s' k) = next_hash (bufs s k) \/
             exists q, next_hash (bufs s k) = Buf q /\
                       next_hash (bufs s' k) = next_hash (bufs s q)) /\
  (forall c, elems s' c = elems s c \/
             exists q, elems s c = Buf q /\ elems s' c = next_hash (bufs s q)).

(** The invariant of the cache, with the lists [L] of the shards as
    witness: the lists are well formed; a buffer on a list is unreferenced;
    every chain is a finite list of buffers of the pool; a buffer that a
    lookup can find (it is in the chain of the shard of its own block
    number) is on no list; and no two such buffers of a chain carry the same
    identity. *)
Definition cache_inv (NBUF : nat) (s : state) (L : nat -> list nat) : Prop :=
  lists_ok NBUF s L /\
  (forall i k, (i < NSHARD)%nat -> In k (L i) -> refcnt (bufs s k) = 0) /\
  (forall c, (c < NSHARD)%nat ->
     exists C, chain s (elems s c) C /\ forall k, In k C -> (k < NBUF)%nat) /\
  (forall c C k, (c < NSHARD)%nat -> chain s (elems s c) C -> In k C ->
     hash (blockno (bufs s k)) = c ->
     forall i, (i < NSHARD)%nat -> ~ In k (L i)) /\
  (forall c C j k, (c < NSHARD)%nat -> chain s (elems s c) C -> In j C -> In k C ->
     hash (blockno (bufs s j)) = c ->
     dev (bufs s j) = dev (bufs s k) -> blockno (bufs s j) = blockno (bufs s k) ->
     j = k).

Definition cache_ok (NBUF : nat) (s : state) : Prop := exists L, cache_inv NBUF s L.

(** An operation left the cache invariant intact, whether it returned or
    put the caller to sleep, or it found no buffer at all. *)
Definition cache_kept {A : Type} (NBUF : nat) (r : res A) : Prop :=
  match r with
  | Ok _ s' => cache_ok NBUF s'
  | Blocked s' => cache_ok NBUF s'
  | Panic msg => msg = "bget: no buffers"%string
  | Fault => False
  | Diverge => False
  end.

(** bget came to an end: it returned, put the caller to sleep on the
    buffer's lock, or found no buffer at all; it neither dereferenced a null
    pointer nor looped forever. *)
Definition completes {A : Type} (r : res A) : Prop :=
  match r with
  | Ok _ _ => True
  | Blocked _ => True
  | Panic msg => msg = "bget: no buffers"%string
  | Fault => False
  | Diverge => False
  end.

(** One operation on the cache by a caller that respects the interface
    (lines 8-14): a buffer is used, released, pinned or unpinned only while
    the caller holds a reference to it, so its count is positive. *)
Inductive op (NBUF fuel : nat) (env : nat -> state -> state) : state -> state -> Prop :=
| op_bread me d blk s b s' :           (* bread returns a buffer *)
    bread fuel env me d blk s = Ok b s' -> op NBUF fuel env s s'
| op_bread_sleep me d blk s s' :       (* bread sleeps on the buffer's lock *)
    bread fuel env me d blk s = Blocked s' -> op NBUF fuel env s s'
| op_wakeup me k s s' :                (* a sleeper obtains the lock *)
    (k < NBUF)%nat -> 0 < refcnt (bufs s k) ->
    acquiresleep me (Buf k) s = Ok tt s' -> op NBUF fuel env s s'
| op_load me k s s' :                  (* and completes bread, lines 180-183 *)
    holdingsleep me (lock (bufs s k)) = true ->
    (virtio_disk_rw (dev (bufs s k)) (Buf k) false ;;;
     store (Buf k) (set_valid 1)) s = Ok tt s' ->
    op NBUF fuel env s s'
| op_fill me k c s :                   (* the holder changes the data *)
    holdingsleep me (lock (bufs s k)) = true ->
    op NBUF fuel env s (upd s (Buf k) (set_data c))
| op_bwrite me k s s' :
    bwrite me (Buf k) s = Ok tt s' -> op NBUF fuel env s s'
| op_brelse me k s s' :
    (k < NBUF)%nat -> 0 < refcnt (bufs s k) ->
    brelse fuel me (Buf k) s = Ok tt s' -> op NBUF fuel env s s'
| op_bpin k s s' :
    (k < NBUF)%nat -> 0 < refcnt (bufs s k) ->
    bpin (Buf k) s = Ok tt s' -> op NBUF fuel env s s'
| op_bunpin k s s' :
    (k < NBUF)%nat -> 0 < refcnt (bufs s k) ->
    bunpin (Buf k) s = Ok tt s' -> op NBUF fuel env s s'.

(** Any number of operations. *)
Inductive ops (NBUF fuel : nat) (env : nat -> state -> state) : state -> state -> Prop :=
| ops_refl s : ops NBUF fuel env s s
| ops_step s s1 s2 :
    ops NBUF fuel env s s1 -> op NBUF fuel env s1 s2 -> ops NBUF fuel env s s2.

(** The states the cache reaches from binit through operations of callers
    that respect the interface. *)
Definition legal (NBUF fuel : nat) (env : nat -> state -> state) (s : state) : Prop :=
  exists dsk s0, binit NBUF (boot dsk) = Ok tt s0 /\ ops NBUF fuel env s0 s.

(** The state in which the body of iteration [i + m] of the stealing loop
    runs when the loop is at iteration [i] in state [s] and no iteration in
    between changes the cache: before each iteration [j > idx] the home lock
    is released and other threads run. *)
Definition ahead (env : nat -> state -> state) (idx i m : nat) (s : state) : state :=
  fold_left (fun s j => if Nat.ltb idx j then env j s else s) (seq i (S m)) s.

(** The state in which the stealing loop of a bget that started in [s]
    runs the body of iteration [i]. *)
Definition seen (env : nat -> state -> state) (idx i : nat) (s : state) : state :=
  ahead env idx 0 i s.

(** The buffer bget returned through a victim path was unreferenced when
    it was selected: in [s] on the local path, and on the stealing path in
    the state in which the iteration that took it ran. *)
Definition victim_unreferenced (NBUF fuel : nat) (env : nat -> state -> state)
           (me d blk : Z) (s s' : state) (r : ptr * via) : Prop :=
  match snd r with
  | ByLocal =>
      exists k, fst r = Buf k /\ (k < NBUF)%nat /\ refcnt (bufs s k) = 0
  | BySteal i =>
      let s0 := seen env (hash blk) i s in
      exists k, fst r = Buf k /\ (k < NBUF)%nat /\ refcnt (bufs s0 k) = 0 /\
                steal_iter fuel me d blk i s0 = Ok (Some r) s'
  | _ => True
  end.

(** Two states with the same hash-table links. *)
Definition same_hash (s s' : state) : Prop :=
  (forall c, elems s' c = elems s c) /\
  (forall k, next_hash (bufs s' k) = next_hash (bufs s k)).

(** What one iteration of the stealing loop returns. *)
Definition iter_result (NBUF : nat) (i : nat) (s : state)
           (r : res (option (ptr * via))) : Prop :=
  match r with
  | Ok (Some (b, BySteal j)) _ =>
      j = i /\ exists k, b = Buf k /\ (k < NBUF)%nat /\ refcnt (bufs s k) = 0
  | Ok (Some (b, ByRecheck _)) _ => exists k, b = Buf k
  | Ok _ _ => False
  | _ => True
  end.

(** What the stealing loop returns when it is at iteration [i] in state
    [s]. *)
Definition loop_result (NBUF fuel : nat) (env : nat -> state -> state)
           (me d blk : Z) (idx i : nat) (s : state) (r : res (ptr * via)) : Prop :=
  match r with
  | Ok (b, BySteal j) s' =>
      exists m, j = (i + m)%nat /\
        exists k, b = Buf k /\ (k < NBUF)%nat /\
                  refcnt (bufs (ahead env idx i m s) k) = 0 /\
                  steal_iter fuel me d blk j (ahead env idx i m s) =
                    Ok (Some (b, BySteal j)) s'
  | Ok (b, ByRecheck _) _ => exists k, b = Buf k
  | Ok _ _ => False
  | _ => True
  end.

(** Thread 1 holds blocks 0 and 13 of device 1, read with bread. *)
Definition two_held : state :=
  after (bread 64 quiet 1 1 13) (after (bread 64 quiet 1 1 0) (pool 16)).

(** * Properties *)

(** ** Pointers and updates *)

Lemma ptr_eqb_eq (p q : ptr) : ptr_eqb p q = true <-> p = q.
Proof.
  destruct p, q; simpl; split; intro H; try discriminate; try reflexivity;
    try (apply Nat.eqb_eq in H; subst; reflexivity);
    inversion H; apply Nat.eqb_refl.
Qed.

Lemma ptr_eqb_refl (p : ptr) : ptr_eqb p p = true.
Proof. apply ptr_eqb_eq; reflexivity. Qed.

Lemma ptr_eqb_neq (p q : ptr) : ptr_eqb p q = false <-> p <> q.
Proof.
  split.
  - intros H E. apply ptr_eqb_eq in E. congruence.
  - intro H. destruct (ptr_eqb p q) eqn:E; [apply ptr_eqb_eq in E; tauto | reflexivity].
Qed.

Lemma node_upd (s : state) (p q : ptr) (f : buf -> buf) :
  p <> Null ->
  node (upd s p f) q = if ptr_eqb p q then f (node s q) else node s q.
Proof.
  intro Hp. destruct q; simpl; try reflexivity.
  destruct p; simpl; congruence.
Qed.

Lemma node_upd_same (s : state) (p : ptr) (f : buf -> buf) :
  p <> Null -> node (upd s p f) p = f (node s p).
Proof. intro H. rewrite node_upd, ptr_eqb_refl by assumption. reflexivity. Qed.

Lemma node_upd_other (s : state) (p q : ptr) (f : buf -> buf) :
  p <> Null -> p <> q -> node (upd s p f) q = node s q.
Proof.
  intros H Hn. rewrite node_upd by assumption.
  apply ptr_eqb_neq in Hn. rewrite Hn. reflexivity.
Qed.

Lemma load_ok (s : state) (p : ptr) : p <> Null -> load p s = Ok (node s p) s.
Proof. destruct p; simpl; congruence. Qed.

Lemma store_ok (s : state) (p : ptr) (f : buf -> buf) :
  p <> Null -> store p f s = Ok tt (upd s p f).
Proof. destruct p; simpl; congruence. Qed.

Lemma Buf_not_null (k : nat) : Buf k <> Null.
Proof. discriminate. Qed.

Lemma Lru_not_null (i : nat) : Lru i <> Null.
Proof. discriminate. Qed.

#[local] Hint Resolve Buf_not_null Lru_not_null : core.

Lemma hash_lt (blk : Z) : (hash blk < NSHARD)%nat.
Proof.
  unfold hash, NSHARD, NBUCKETS.
  pose proof (Z.mod_pos_bound blk 13 ltac:(lia)). lia.
Qed.

(** ** Hash chains as lists *)

Lemma slot_get_ok (s : state) (p : slot) :
  good_slot p -> slot_get p s = Ok (slot_val s p) s.
Proof. destruct p as [i|[|k|i]]; simpl; intro H; tauto || reflexivity. Qed.

Lemma find_ptr_loop_walk (s : state) (d blk : Z) (l : list nat) :
  forall (n : nat) (p : slot),
    good_slot p -> chain s (slot_val s p) l -> (List.length l < n)%nat ->
    find_ptr_loop n d blk p s = Ok (walk s d blk p l) s.
Proof.
  induction l as [|k l IH]; intros n p Hp Hc Hn; destruct n; simpl in Hn; try lia.
  - simpl in *. unfold bind. rewrite slot_get_ok by assumption. rewrite Hc. reflexivity.
  - simpl in Hc. destruct Hc as [Hk Hc].
    simpl. unfold bind. rewrite slot_get_ok by assumption. rewrite Hk. simpl.
    destruct (differs d blk (bufs s k)); [|reflexivity].
    apply IH; [exact I | exact Hc | lia].
Qed.

Lemma walk_good (s : state) (d blk : Z) (l : list nat) :
  forall p, good_slot p -> good_slot (walk s d blk p l).
Proof.
  induction l as [|k l IH]; intros p Hp; simpl; [assumption|].
  destruct (differs d blk (bufs s k)); [apply IH; exact I | assumption].
Qed.

Lemma walk_val (s : state) (d blk : Z) (l : list nat) :
  forall p, chain s (slot_val s p) l ->
    slot_val s (walk s d blk p l) = lookup s d blk l.
Proof.
  induction l as [|k l IH]; intros p Hc; simpl in *; [assumption|].
  destruct Hc as [Hk Hc].
  destruct (differs d blk (bufs s k)); [apply IH; exact Hc | assumption].
Qed.

Lemma chain_ext (s s' : state) (l : list nat) :
  forall p, (forall k, In k l -> next_hash (bufs s' k) = next_hash (bufs s k)) ->
    chain s p l -> chain s' p l.
Proof.
  induction l as [|k l IH]; intros p He Hc; simpl in *; [assumption|].
  destruct Hc as [Hk Hc]. split; [assumption|].
  rewrite He by (left; reflexivity). apply IH; [|assumption].
  intros j Hj. apply He. right. assumption.
Qed.

Lemma chain_det (s : state) (l : list nat) :
  forall p l', chain s p l -> chain s p l' -> l = l'.
Proof.
  induction l as [|k l IH]; intros p l' H H'; destruct l' as [|k' l']; simpl in *;
    try reflexivity; try (destruct H; congruence); try (destruct H'; congruence).
  destruct H as [E H], H' as [E' H']. assert (k = k') by congruence. subst k'.
  f_equal. eapply IH; eassumption.
Qed.

Lemma chain_suffix (s : state) (l1 : list nat) :
  forall p l2, chain s p (l1 ++ l2) ->
    exists q, chain s q l2.
Proof.
  induction l1 as [|k l1 IH]; intros p l2 H; simpl in *.
  - exists p; assumption.
  - destruct H as [_ H]. eapply IH; eassumption.
Qed.

(** A chain that reaches null visits no buffer twice. *)
Lemma chain_NoDup (s : state) (l : list nat) :
  forall p, chain s p l -> NoDup l.
Proof.
  induction l as [|k l IH]; intros p H; [constructor|].
  simpl in H. destruct H as [Hk H]. constructor; [|eapply IH; eassumption].
  intro Hin. apply in_split in Hin. destruct Hin as (l1 & l2 & E).
  subst l. destruct (chain_suffix _ _ _ _ H) as (q & Hq).
  simpl in Hq. destruct Hq as [_ Hq].
  pose proof (chain_det _ _ _ _ H Hq) as E.
  apply (f_equal (@List.length nat)) in E. rewrite length_app in E. simpl in E. lia.
Qed.

Lemma lookup_cases (s : state) (d blk : Z) (l : list nat) :
  lookup s d blk l = Null \/
  exists k, lookup s d blk l = Buf k /\ In k l /\ differs d blk (bufs s k) = false.
Proof.
  induction l as [|k l IH]; simpl; [left; reflexivity|].
  destruct (differs d blk (bufs s k)) eqn:E.
  - destruct IH as [IH|(j & Hj & Hin & Hd)]; [left; assumption|].
    right. exists j. auto.
  - right. exists k. auto.
Qed.

Lemma same_table_refl (s : state) : same_table s s.
Proof. split; auto. Qed.

Lemma same_table_trans (s1 s2 s3 : state) :
  same_table s1 s2 -> same_table s2 s3 -> same_table s1 s3.
Proof.
  intros [E1 B1] [E2 B2]. split.
  - intro i. rewrite E2. apply E1.
  - intro k. destruct (B1 k) as (a & b & c), (B2 k) as (a' & b' & c').
    repeat split; congruence.
Qed.

Lemma same_but_hash_refl (s : state) : same_but_hash s s.
Proof. repeat split; auto. Qed.

Lemma same_but_hash_trans (s1 s2 s3 : state) :
  same_but_hash s1 s2 -> same_but_hash s2 s3 -> same_but_hash s1 s3.
Proof.
  intros (N1 & D1 & R1 & W1) (N2 & D2 & R2 & W2).
  split; [intro q; rewrite N2; apply N1 | repeat split; congruence].
Qed.

Lemma same_table_upd (s : state) (p : ptr) (f : buf -> buf) :
  p <> Null ->
  (forall x, next_hash (f x) = next_hash x /\ dev (f x) = dev x /\
             blockno (f x) = blockno x) ->
  same_table s (upd s p f).
Proof.
  intros Hp Hf. split; [reflexivity|].
  intro k. change (bufs (upd s p f) k) with (node (upd s p f) (Buf k)).
  rewrite node_upd by assumption.
  destruct (ptr_eqb p (Buf k)); [apply Hf | auto].
Qed.

Lemma chain_same_table (s s' : state) (p : ptr) (l : list nat) :
  same_table s s' -> chain s p l -> chain s' p l.
Proof. intros [_ H]. apply chain_ext. intros k _. apply H. Qed.

Lemma differs_same_table (s s' : state) (d blk : Z) (k : nat) :
  same_table s s' -> differs d blk (bufs s' k) = differs d blk (bufs s k).
Proof.
  intros [_ H]. destruct (H k) as (_ & Hd & Hb). unfold differs. rewrite Hd, Hb.
  reflexivity.
Qed.

Lemma lookup_same_table (s s' : state) (d blk : Z) (l : list nat) :
  same_table s s' -> lookup s' d blk l = lookup s d blk l.
Proof.
  intro H. induction l as [|k l IH]; simpl; [reflexivity|].
  rewrite (differs_same_table _ _ _ _ _ H), IH. reflexivity.
Qed.

Lemma slot_set_ok (s : state) (p : slot) (v : ptr) :
  good_slot p -> slot_set p v s = Ok tt (slot_put s p v).
Proof. destruct p as [i|[|k|i]]; simpl; intro H; tauto || reflexivity. Qed.

Lemma slot_put_same_but_hash (s : state) (p : slot) (v : ptr) :
  good_slot p -> same_but_hash s (slot_put s p v).
Proof.
  intro Hp. destruct p as [i|q]; simpl.
  - repeat split.
  - assert (q <> Null) by (destruct q; simpl in Hp; congruence).
    repeat split. intro r. rewrite node_upd by assumption.
    destruct (ptr_eqb q r); reflexivity.
Qed.

Lemma upd_next_hash_same_but_hash (s : state) (p : ptr) (v : ptr) :
  p <> Null -> same_but_hash s (upd s p (set_next_hash v)).
Proof. intro H. apply (slot_put_same_but_hash s (NextHash p) v). destruct p; simpl; tauto. Qed.

Lemma slot_val_put_other (s : state) (p p' : slot) (v : ptr) :
  good_slot p' -> p <> p' -> slot_val (slot_put s p' v) p = slot_val s p.
Proof.
  intros Hg Hne. destruct p' as [i'|q']; destruct p as [i|q]; simpl; try reflexivity.
  - destruct (Nat.eqb i' i) eqn:E; [|reflexivity].
    apply Nat.eqb_eq in E. congruence.
  - assert (q' <> Null) by (destruct q'; simpl in Hg; congruence).
    rewrite node_upd by assumption.
    destruct (ptr_eqb q' q) eqn:E; [|reflexivity].
    apply ptr_eqb_eq in E. congruence.
Qed.

Lemma slot_val_put_same (s : state) (p : slot) (v : ptr) :
  good_slot p -> slot_val (slot_put s p v) p = v.
Proof.
  intro Hg. destruct p as [i|q]; simpl.
  - rewrite Nat.eqb_refl. reflexivity.
  - assert (q <> Null) by (destruct q; simpl in Hg; congruence).
    rewrite node_upd_same by assumption. reflexivity.
Qed.

Lemma walk_cases (s : state) (d blk : Z) (l : list nat) :
  forall p, walk s d blk p l = p \/
            exists m, In m l /\ walk s d blk p l = NextHash (Buf m).
Proof.
  induction l as [|k l IH]; intro p; simpl; [left; reflexivity|].
  destruct (differs d blk (bufs s k)); [|left; reflexivity].
  destruct (IH (NextHash (Buf k))) as [E|(m & Hm & E)].
  - right. exists k. auto.
  - right. exists m. auto.
Qed.

Lemma chain_put_off (s : state) (p : slot) (v : ptr) (l : list nat) (q : ptr) :
  good_slot p -> slot_off p l -> chain s q l -> chain (slot_put s p v) q l.
Proof.
  intros Hg Hoff. apply chain_ext. intros k Hk.
  destruct p as [i|r]; [reflexivity|].
  assert (r <> Null) by (destruct r; simpl in Hg; congruence).
  unfold slot_put.
  change (bufs (upd s r (set_next_hash v)) k) with
    (node (upd s r (set_next_hash v)) (Buf k)).
  rewrite node_upd_other; [reflexivity | assumption |].
  intro E. subst r. simpl in Hoff. tauto.
Qed.

(** Unlinking the first match from a chain leaves the rest of the chain. *)
Lemma drop_match_chain (s : state) (d blk : Z) (l : list nat) :
  forall (p : slot) (k : nat),
    good_slot p -> slot_off p l -> NoDup l ->
    chain s (slot_val s p) l ->
    lookup s d blk l = Buf k ->
    let s' := slot_put s (walk s d blk p l) (next_hash (bufs s k)) in
    chain s' (slot_val s' p) (drop_match s d blk l).
Proof.
  induction l as [|j l IH]; intros p k Hg Hoff Hnd Hc Hl; simpl in *; [discriminate|].
  destruct Hc as [Hj Hc]. inversion Hnd as [|? ? Hjl Hnd']; subst.
  destruct (differs d blk (bufs s j)) eqn:E.
  - specialize (IH (NextHash (Buf j)) k I Hjl Hnd' Hc Hl). simpl in IH.
    assert (Hw : good_slot (walk s d blk (NextHash (Buf j)) l)) by (apply walk_good; exact I).
    assert (Hne : p <> walk s d blk (NextHash (Buf j)) l).
    { destruct (walk_cases s d blk l (NextHash (Buf j))) as [W|(m & Hm & W)];
        rewrite W; intro Ep; subst p; simpl in Hoff; tauto. }
    split.
    + rewrite slot_val_put_other by assumption. assumption.
    + exact IH.
  - inversion Hl; subst k.
    rewrite slot_val_put_same by assumption.
    apply chain_put_off; try assumption.
    destruct p as [i|[|q|i]]; simpl in *; tauto.
Qed.

Lemma drop_match_none (s : state) (d blk : Z) (l : list nat) :
  lookup s d blk l = Null -> drop_match s d blk l = l.
Proof.
  induction l as [|k l IH]; simpl; [reflexivity|].
  destruct (differs d blk (bufs s k)); [|discriminate].
  intro H. rewrite IH by assumption. reflexivity.
Qed.

Lemma lookup_all_differ (s : state) (d blk : Z) (l : list nat) :
  (forall j, In j l -> differs d blk (bufs s j) = true) ->
  lookup s d blk l = Null.
Proof.
  induction l as [|j l IH]; intro H; simpl; [reflexivity|].
  rewrite (H j) by (left; reflexivity). apply IH.
  intros i Hi. apply H. right. assumption.
Qed.

(** If at most the buffer [k] of the chain carries the identity, nothing
    carries it once the first match is unlinked. *)
Lemma lookup_drop_match (s : state) (d blk : Z) (k : nat) (l : list nat) :
  NoDup l ->
  (forall j, In j l -> j <> k -> differs d blk (bufs s j) = true) ->
  lookup s d blk (drop_match s d blk l) = Null.
Proof.
  induction l as [|j l IH]; intros Hnd Hu; simpl; [reflexivity|].
  inversion Hnd as [|? ? Hjl Hnd']; subst.
  destruct (differs d blk (bufs s j)) eqn:E.
  - simpl. rewrite E. apply IH; [assumption|].
    intros i Hi. apply Hu. right. assumption.
  - assert (j = k).
    { destruct (Nat.eq_dec j k) as [|Hne]; [assumption|].
      rewrite (Hu j) in E by (auto; left; reflexivity). discriminate. }
    subst j. apply lookup_all_differ.
    intros i Hi. apply Hu; [right; assumption|].
    intro; subst. tauto.
Qed.

Section TableFacts.

Variable fuel : nat.

Lemma find_ptr_chain (s : state) (d blk : Z) (l : list nat) :
  chain s (elems s (hash blk)) l -> (List.length l < fuel)%nat ->
  find_ptr fuel d blk s = Ok (walk s d blk (Elem (hash blk)) l) s.
Proof. intros Hc Hn. apply find_ptr_loop_walk; [exact I | exact Hc | exact Hn]. Qed.

Lemma btable_find_chain (s : state) (d blk : Z) (l : list nat) :
  chain s (elems s (hash blk)) l -> (List.length l < fuel)%nat ->
  btable_find fuel d blk s = Ok (lookup s d blk l) s.
Proof.
  intros Hc Hn. unfold btable_find, bind.
  rewrite (find_ptr_chain s d blk l Hc Hn).
  rewrite slot_get_ok by (apply walk_good; exact I).
  rewrite walk_val by exact Hc. reflexivity.
Qed.

(** btable_insert returns and touches nothing but the hash table. *)
Lemma btable_insert_ok (s : state) (v : nat) (l : list nat) :
  chain s (elems s (hash (blockno (bufs s v)))) l -> (List.length l < fuel)%nat ->
  exists s', btable_insert fuel (Buf v) s = Ok tt s' /\ same_but_hash s s'.
Proof.
  intros Hc Hn. unfold btable_insert, bind. simpl load. cbv beta iota.
  rewrite (find_ptr_chain s _ _ l Hc Hn).
  set (p := walk s _ _ _ l).
  assert (Hg : good_slot p) by (apply walk_good; exact I).
  rewrite slot_set_ok by assumption. simpl store.
  eexists. split; [reflexivity|].
  apply (same_but_hash_trans _ (slot_put s p (Buf v)));
    [apply slot_put_same_but_hash; assumption|].
  apply upd_next_hash_same_but_hash. discriminate.
Qed.

(** btable_remove returns, touches nothing but the hash table, and
    unlinks the first buffer of the home chain that carries the identity
    of [Buf v]. *)
Lemma btable_remove_ok (s : state) (v : nat) (l : list nat) :
  let d := dev (bufs s v) in
  let blk := blockno (bufs s v) in
  chain s (elems s (hash blk)) l -> (List.length l < fuel)%nat ->
  exists s', btable_remove fuel (Buf v) s = Ok tt s' /\ same_but_hash s s' /\
             chain s' (elems s' (hash blk)) (drop_match s d blk l).
Proof.
  intros d blk Hc Hn. unfold btable_remove, bind. simpl load. cbv beta iota.
  fold d blk. rewrite (find_ptr_chain s d blk l Hc Hn).
  set (p := walk s d blk (Elem (hash blk)) l).
  assert (Hg : good_slot p) by (apply walk_good; exact I).
  rewrite slot_get_ok by assumption.
  unfold p. rewrite walk_val by exact Hc.
  destruct (lookup_cases s d blk l) as [E|(k & E & Hin & Hd)]; rewrite E; simpl.
  - exists s. split; [reflexivity|]. split; [apply same_but_hash_refl|].
    rewrite drop_match_none by assumption. assumption.
  - rewrite slot_set_ok by assumption.
    eexists. split; [reflexivity|]. split; [apply slot_put_same_but_hash; assumption|].
    apply (drop_match_chain s d blk l (Elem (hash blk)) k); try assumption; try exact I.
    eapply chain_NoDup; eassumption.
Qed.

End TableFacts.

(** ** LRU lists as lists *)

Lemma path_ext (s s' : state) (l : list nat) (q : ptr) :
  forall p,
    next (node s' p) = next (node s p) ->
    prev (node s' q) = prev (node s q) ->
    (forall k, In k l -> next (bufs s' k) = next (bufs s k) /\
                         prev (bufs s' k) = prev (bufs s k)) ->
    path s p l q -> path s' p l q.
Proof.
  induction l as [|k l IH]; intros p Hp Hq Hl H; simpl in *.
  - destruct H as [H1 H2]. split; congruence.
  - destruct H as (H1 & H2 & H3).
    destruct (Hl k (or_introl eq_refl)) as [Hn Hv].
    split; [congruence|]. split; [congruence|].
    apply IH; auto.
Qed.

Lemma last_In {A : Type} (l : list A) :
  forall a d, In (last (a :: l) d) (a :: l).
Proof.
  induction l as [|b l IH]; intros a d; [left; reflexivity|].
  right. apply (IH b d).
Qed.

Lemma path_last (s : state) (l : list nat) (q : ptr) :
  forall p, path s p l q -> prev (node s q) = last (p :: map Buf l) Null.
Proof.
  induction l as [|k l IH]; intros p H; simpl in H.
  - destruct H as [_ H]. exact H.
  - destruct H as (_ & _ & H). rewrite (IH _ H). reflexivity.
Qed.

Lemma lru_add_ok (s : state) (k i : nat) :
  let t := prev (lrus s i) in
  t <> Null -> t <> Buf k ->
  lru_add (Buf k) (Lru i) s = Ok tt (lru_add_state s k i t).
Proof.
  intros t Ht Hk. unfold lru_add, bind. simpl store at 1. cbv beta iota.
  rewrite load_ok by auto. rewrite node_upd_other by (auto; discriminate).
  simpl node at 1. fold t. rewrite store_ok by auto.
  rewrite load_ok by auto. rewrite node_upd_same by auto.
  simpl prev at 1. rewrite store_ok by assumption.
  rewrite load_ok by auto.
  rewrite node_upd_other by auto. rewrite node_upd_same by auto.
  rewrite node_upd_same by auto. simpl next at 1.
  rewrite store_ok by auto. reflexivity.
Qed.

Lemma lru_add_next (s : state) (k i : nat) (t q : ptr) :
  t <> Null ->
  next (node (lru_add_state s k i t) q) =
    if ptr_eqb t q then Buf k
    else if ptr_eqb (Buf k) q then Lru i else next (node s q).
Proof.
  intro Ht. unfold lru_add_state. rewrite !node_upd by auto.
  destruct (ptr_eqb (Lru i) q), (ptr_eqb t q), (ptr_eqb (Buf k) q); reflexivity.
Qed.

Lemma lru_add_prev (s : state) (k i : nat) (t q : ptr) :
  t <> Null ->
  prev (node (lru_add_state s k i t) q) =
    if ptr_eqb (Lru i) q then Buf k
    else if ptr_eqb (Buf k) q then t else prev (node s q).
Proof.
  intro Ht. unfold lru_add_state. rewrite !node_upd by auto.
  destruct (ptr_eqb (Lru i) q), (ptr_eqb t q), (ptr_eqb (Buf k) q); reflexivity.
Qed.

Lemma lru_add_same_but_links (s : state) (k i : nat) (t : ptr) :
  t <> Null -> same_but_links s (lru_add_state s k i t).
Proof.
  intro Ht. repeat split. intro q. unfold lru_add_state.
  rewrite !node_upd by auto.
  destruct (ptr_eqb (Lru i) q), (ptr_eqb t q), (ptr_eqb (Buf k) q); reflexivity.
Qed.

Ltac ptr_cases :=
  repeat match goal with
  | |- context [ptr_eqb ?a ?b] =>
      let E := fresh "E" in
      destruct (ptr_eqb a b) eqn:E;
      [apply ptr_eqb_eq in E | apply ptr_eqb_neq in E]
  end.

(** Appending at the tail: the path through [l] is extended by [k]. *)
Lemma lru_add_path (s : state) (k i : nat) (l : list nat) :
  forall p,
    p <> Null -> p <> Buf k -> ~ In k l -> NoDup l -> ~ In p (map Buf l) ->
    path s p l (Lru i) ->
    path (lru_add_state s k i (prev (lrus s i))) p (l ++ [k]) (Lru i).
Proof.
  set (t := prev (lrus s i)).
  induction l as [|m l IH]; intros p Hp Hpk Hk Hnd Hpl H.
  - simpl in H. destruct H as [H1 H2]. change (prev (lrus s i)) with t in H2.
    assert (Ht : t <> Null) by congruence.
    cbn [path app].
    change (bufs (lru_add_state s k i t) k) with (node (lru_add_state s k i t) (Buf k)).
    rewrite !lru_add_next, !lru_add_prev by assumption.
    rewrite H2. rewrite !ptr_eqb_refl.
    assert (E1 : ptr_eqb p (Buf k) = false) by (apply ptr_eqb_neq; assumption).
    assert (E2 : ptr_eqb (Lru i) (Buf k) = false) by reflexivity.
    rewrite E1, E2. auto.
  - simpl in H. destruct H as (H1 & H2 & H3).
    pose proof (path_last _ _ _ _ H3) as Hlast. change (node s (Lru i)) with (lrus s i) in Hlast.
    fold t in Hlast.
    assert (Htin : In t (map Buf (m :: l))).
    { rewrite Hlast. apply (last_In (map Buf l) (Buf m) Null). }
    assert (Ht : t <> Null).
    { apply in_map_iff in Htin. destruct Htin as (j & Ej & _). congruence. }
    apply NoDup_cons_iff in Hnd. destruct Hnd as [Hml Hnd'].
    cbn [path app]. split; [|split].
    + rewrite lru_add_next by assumption.
      assert (E1 : ptr_eqb t p = false).
      { apply ptr_eqb_neq. intro E. apply Hpl. rewrite <- E. exact Htin. }
      assert (E2 : ptr_eqb (Buf k) p = false) by (apply ptr_eqb_neq; congruence).
      rewrite E1, E2. assumption.
    + change (bufs (lru_add_state s k i t) m) with (node (lru_add_state s k i t) (Buf m)).
      rewrite lru_add_prev by assumption.
      assert (E2 : ptr_eqb (Buf k) (Buf m) = false).
      { apply ptr_eqb_neq. intro E. inversion E. subst. apply Hk. left. reflexivity. }
      simpl ptr_eqb at 1. rewrite E2. assumption.
    + apply IH; auto.
      * intro E. inversion E. subst. apply Hk. left. reflexivity.
      * intro Hin. apply Hk. right. assumption.
      * intro Hin. apply in_map_iff in Hin. destruct Hin as (j & Ej & Hj).
        inversion Ej. subst. tauto.
Qed.

Lemma lru_list_frame (s s' : state) (j : nat) (l : list nat) :
  (forall q, q = Lru j \/ (exists m, In m l /\ q = Buf m) ->
             next (node s' q) = next (node s q) /\
             prev (node s' q) = prev (node s q)) ->
  lru_list s j l -> lru_list s' j l.
Proof.
  intros Hf [Hnd Hp]. split; [assumption|].
  apply (path_ext s s' l (Lru j) (Lru j)); try assumption.
  - apply Hf. left. reflexivity.
  - apply Hf. left. reflexivity.
  - intros k Hk. apply (Hf (Buf k)). right. exists k. auto.
Qed.

Lemma lru_list_tail (s : state) (i : nat) (l : list nat) :
  lru_list s i l ->
  let t := prev (lrus s i) in
  t <> Null /\ (t = Lru i \/ exists m, In m l /\ t = Buf m).
Proof.
  intros [_ Hp] t. pose proof (path_last _ _ _ _ Hp) as E.
  change (node s (Lru i)) with (lrus s i) in E. fold t in E.
  pose proof (last_In (map Buf l) (Lru i) Null) as Hin. rewrite <- E in Hin.
  destruct Hin as [Hin|Hin].
  - split; [congruence | left; congruence].
  - apply in_map_iff in Hin. destruct Hin as (m & Em & Hm).
    split; [congruence | right; exists m; auto].
Qed.

(** lru_add appends the buffer at the far end from the next victim. *)
Lemma lru_list_add (s : state) (k i : nat) (l : list nat) :
  lru_list s i l -> ~ In k l ->
  let s' := lru_add_state s k i (prev (lrus s i)) in
  lru_add (Buf k) (Lru i) s = Ok tt s' /\ lru_list s' i (l ++ [k]) /\
  prev (lrus s' i) = Buf k.
Proof.
  intros Hl Hk s'. destruct (lru_list_tail _ _ _ Hl) as [Ht Hcase].
  assert (Htk : prev (lrus s i) <> Buf k).
  { destruct Hcase as [E|(m & Hm & E)]; rewrite E; [discriminate|].
    intro E'. inversion E'. subst. tauto. }
  split; [apply lru_add_ok; assumption|]. destruct Hl as [Hnd Hp]. split; [split|].
  - apply NoDup_app; [assumption | constructor; [simpl; tauto | constructor] |].
    intros a Ha [E|[]]. subst. tauto.
  - apply lru_add_path; auto; try discriminate.
    intro Hin. apply in_map_iff in Hin. destruct Hin as (m & E & _). discriminate.
  - change (lrus s' i) with (node s' (Lru i)). unfold s'.
    rewrite lru_add_prev by assumption. rewrite ptr_eqb_refl. reflexivity.
Qed.

(** The other shards' lists are untouched by an lru_add on shard [i]. *)
Lemma lru_list_add_other (s : state) (k i j : nat) (l l' : list nat) :
  lru_list s i l -> lru_list s j l' -> j <> i -> ~ In k l' ->
  (forall m, In m l -> ~ In m l') ->
  lru_list (lru_add_state s k i (prev (lrus s i))) j l'.
Proof.
  intros Hl Hl' Hji Hk Hdisj. destruct (lru_list_tail _ _ _ Hl) as [Ht Hcase].
  apply (lru_list_frame s); [|assumption].
  intros q Hq. rewrite lru_add_next, lru_add_prev by assumption.
  assert (E1 : ptr_eqb (Lru i) q = false).
  { apply ptr_eqb_neq. destruct Hq as [E|(m & _ & E)]; subst q; congruence. }
  assert (E2 : ptr_eqb (Buf k) q = false).
  { apply ptr_eqb_neq. destruct Hq as [E|(m & Hm & E)]; subst q; [discriminate|].
    intro E'. inversion E'. subst. tauto. }
  assert (E3 : ptr_eqb (prev (lrus s i)) q = false).
  { apply ptr_eqb_neq. intro E. rewrite E in Hcase.
    destruct Hq as [Eq|(m & Hm & Eq)]; subst q;
      destruct Hcase as [E'|(m' & Hm' & E')]; try congruence.
    inversion E'. subst. apply (Hdisj m'); assumption. }
  rewrite E1, E2, E3. auto.
Qed.

Lemma lru_remove_ok (s : state) (v : nat) :
  let n := next (bufs s v) in
  let pv := prev (bufs s v) in
  n <> Null -> pv <> Null -> n <> Buf v ->
  lru_remove (Buf v) s = Ok tt (lru_remove_state s n pv).
Proof.
  intros n pv Hn Hpv Hnv. unfold lru_remove, bind. simpl load at 1. cbv beta iota.
  fold n pv. rewrite store_ok by assumption.
  rewrite load_ok by auto. rewrite node_upd_other by assumption.
  simpl node. fold n pv. rewrite store_ok by assumption. reflexivity.
Qed.

Lemma lru_remove_next (s : state) (n pv q : ptr) :
  n <> Null -> pv <> Null ->
  next (node (lru_remove_state s n pv) q) =
    if ptr_eqb pv q then n else next (node s q).
Proof.
  intros Hn Hpv. unfold lru_remove_state. rewrite !node_upd by auto.
  destruct (ptr_eqb pv q), (ptr_eqb n q); reflexivity.
Qed.

Lemma lru_remove_prev (s : state) (n pv q : ptr) :
  n <> Null -> pv <> Null ->
  prev (node (lru_remove_state s n pv) q) =
    if ptr_eqb n q then pv else prev (node s q).
Proof.
  intros Hn Hpv. unfold lru_remove_state. rewrite !node_upd by auto.
  destruct (ptr_eqb pv q), (ptr_eqb n q); reflexivity.
Qed.

Lemma lru_remove_same_but_links (s : state) (n pv : ptr) :
  n <> Null -> pv <> Null -> same_but_links s (lru_remove_state s n pv).
Proof.
  intros Hn Hpv. repeat split. intro q. unfold lru_remove_state.
  rewrite !node_upd by auto.
  destruct (ptr_eqb pv q), (ptr_eqb n q); reflexivity.
Qed.

Lemma lru_list_head (s : state) (i v : nat) (l : list nat) :
  lru_list s i (v :: l) ->
  next (lrus s i) = Buf v /\ prev (bufs s v) = Lru i /\
  next (bufs s v) = after_head i l /\ after_head i l <> Buf v.
Proof.
  intros [Hnd (H1 & H2 & H3)]. apply NoDup_cons_iff in Hnd. destruct Hnd as [Hv _].
  repeat split; try assumption.
  - destruct l; simpl in *; tauto.
  - destruct l as [|m l]; simpl; [discriminate|].
    intro E. inversion E. subst. apply Hv. left. reflexivity.
Qed.

(** Unlinking the first buffer of shard [i]'s list. *)
Lemma lru_list_remove (s : state) (i v : nat) (l : list nat) :
  lru_list s i (v :: l) ->
  let s' := lru_remove_state s (after_head i l) (Lru i) in
  lru_remove (Buf v) s = Ok tt s' /\ lru_list s' i l.
Proof.
  intros Hl s'. destruct (lru_list_head _ _ _ _ Hl) as (Hh & Hp & Hn & Hne).
  assert (Hnn : after_head i l <> Null) by (destruct l; discriminate).
  split.
  - pose proof (lru_remove_ok s v) as H. simpl in H. rewrite Hn, Hp in H.
    apply H; auto.
  - destruct Hl as [Hnd (_ & _ & H3)]. apply NoDup_cons_iff in Hnd.
    destruct Hnd as [Hv Hnd]. split; [assumption|].
    destruct l as [|m l]; cbn [path after_head] in *.
    + change (lrus s' i) with (node s' (Lru i)). unfold s'.
      rewrite lru_remove_next, lru_remove_prev by auto.
      rewrite ptr_eqb_refl. auto.
    + destruct H3 as (H4 & H5 & H6). apply NoDup_cons_iff in Hnd.
      destruct Hnd as [Hm Hnd].
      change (lrus s' i) with (node s' (Lru i)).
      change (bufs s' m) with (node s' (Buf m)). unfold s'.
      rewrite lru_remove_next, lru_remove_prev by auto.
      rewrite !ptr_eqb_refl. split; [reflexivity|]. split; [reflexivity|].
      apply (path_ext s); try assumption.
      * rewrite lru_remove_next by auto. reflexivity.
      * rewrite lru_remove_prev by auto. reflexivity.
      * intros k Hk.
        change (bufs (lru_remove_state s (Buf m) (Lru i)) k)
          with (node (lru_remove_state s (Buf m) (Lru i)) (Buf k)).
        rewrite lru_remove_next, lru_remove_prev by auto.
        assert (E : ptr_eqb (Buf m) (Buf k) = false).
        { apply ptr_eqb_neq. intro E. inversion E. subst. tauto. }
        rewrite E. auto.
Qed.

Lemma lru_list_remove_other (s : state) (i j : nat) (l l' : list nat) :
  lru_list s j l' -> j <> i ->
  (forall m, In m l -> ~ In m l') ->
  lru_list (lru_remove_state s (after_head i l) (Lru i)) j l'.
Proof.
  intros Hl' Hji Hdisj.
  assert (Hnn : after_head i l <> Null) by (destruct l; discriminate).
  apply (lru_list_frame s); [|assumption].
  intros q Hq. rewrite lru_remove_next, lru_remove_prev by auto.
  assert (E1 : ptr_eqb (Lru i) q = false).
  { apply ptr_eqb_neq. destruct Hq as [E|(m & _ & E)]; subst q; congruence. }
  assert (E2 : ptr_eqb (after_head i l) q = false).
  { apply ptr_eqb_neq. destruct l as [|m l]; simpl;
      destruct Hq as [E|(m' & Hm' & E)]; subst q; try congruence.
    intro E. inversion E. subst. apply (Hdisj m'); [left; reflexivity | assumption]. }
  rewrite E1, E2. auto.
Qed.

(** ** The two-state invariant *)

Lemma two_state_referenced (NBUF : nat) (s : state) (L : nat -> list nat) (k : nat) :
  two_state NBUF s L -> (k < NBUF)%nat -> 0 < refcnt (bufs s k) ->
  forall i, (i < NSHARD)%nat -> ~ In k (L i).
Proof.
  intros [_ Hr] Hk Hpos i Hi Hin. destruct (Hr k Hk) as [_ [_ H]].
  rewrite H in Hpos; [lia | eauto].
Qed.

Lemma two_state_unreferenced (NBUF : nat) (s : state) (L : nat -> list nat) (k : nat) :
  two_state NBUF s L -> (k < NBUF)%nat -> refcnt (bufs s k) = 0 ->
  exists i, (i < NSHARD)%nat /\ In k (L i) /\ NoDup (L i) /\
            forall j, (j < NSHARD)%nat -> In k (L j) -> j = i.
Proof.
  intros [(Hl & _ & Hd) Hr] Hk Hz. destruct (Hr k Hk) as [_ [H _]].
  destruct (H Hz) as (i & Hi & Hin). exists i. repeat split; auto.
  - apply (Hl i Hi).
  - intros j Hj Hjn. apply (Hd j i k); assumption.
Qed.

Lemma lru_list_same_links (s s' : state) (j : nat) (l : list nat) :
  same_links s s' -> lru_list s j l -> lru_list s' j l.
Proof. intros H. apply lru_list_frame. intros q _. apply H. Qed.

Lemma lists_ok_same_links (NBUF : nat) (s s' : state) (L : nat -> list nat) :
  same_links s s' -> lists_ok NBUF s L -> lists_ok NBUF s' L.
Proof.
  intros H (Hl & Hb & Hd). split; [|split]; auto.
  intros i Hi. apply (lru_list_same_links s); auto.
Qed.

Lemma refs_ok_same_refs (NBUF : nat) (s s' : state) (L : nat -> list nat) :
  same_refs s s' -> refs_ok NBUF s L -> refs_ok NBUF s' L.
Proof. intros H Hr k Hk. rewrite H. apply Hr; assumption. Qed.

Lemma same_links_refl (s : state) : same_links s s.
Proof. intro q. auto. Qed.

Lemma same_links_trans (s1 s2 s3 : state) :
  same_links s1 s2 -> same_links s2 s3 -> same_links s1 s3.
Proof.
  intros H1 H2 q. destruct (H1 q), (H2 q). split; congruence.
Qed.

Lemma same_refs_trans (s1 s2 s3 : state) :
  same_refs s1 s2 -> same_refs s2 s3 -> same_refs s1 s3.
Proof. intros H1 H2 k. rewrite H2. apply H1. Qed.

Lemma same_but_hash_node (s s' : state) (q : ptr) :
  same_but_hash s s' ->
  valid (node s' q) = valid (node s q) /\ dev (node s' q) = dev (node s q) /\
  blockno (node s' q) = blockno (node s q) /\ lock (node s' q) = lock (node s q) /\
  refcnt (node s' q) = refcnt (node s q) /\ prev (node s' q) = prev (node s q) /\
  next (node s' q) = next (node s q) /\ data (node s' q) = data (node s q).
Proof.
  intros [H _]. specialize (H q).
  repeat split;
    [ apply (f_equal valid) in H | apply (f_equal dev) in H
    | apply (f_equal blockno) in H | apply (f_equal lock) in H
    | apply (f_equal refcnt) in H | apply (f_equal prev) in H
    | apply (f_equal next) in H | apply (f_equal data) in H ]; exact H.
Qed.

Lemma same_but_links_node (s s' : state) (q : ptr) :
  same_but_links s s' ->
  valid (node s' q) = valid (node s q) /\ dev (node s' q) = dev (node s q) /\
  blockno (node s' q) = blockno (node s q) /\ lock (node s' q) = lock (node s q) /\
  refcnt (node s' q) = refcnt (node s q) /\
  next_hash (node s' q) = next_hash (node s q) /\ data (node s' q) = data (node s q).
Proof.
  intros [H _]. specialize (H q).
  repeat split;
    [ apply (f_equal valid) in H | apply (f_equal dev) in H
    | apply (f_equal blockno) in H | apply (f_equal lock) in H
    | apply (f_equal refcnt) in H | apply (f_equal next_hash) in H
    | apply (f_equal data) in H ]; exact H.
Qed.

Lemma same_but_hash_links (s s' : state) : same_but_hash s s' -> same_links s s'.
Proof.
  intros H q. destruct (same_but_hash_node s s' q H) as (_ & _ & _ & _ & _ & P & N & _).
  auto.
Qed.

Lemma same_but_hash_refs (s s' : state) : same_but_hash s s' -> same_refs s s'.
Proof.
  intros H k. destruct (same_but_hash_node s s' (Buf k) H) as (_ & _ & _ & _ & R & _).
  exact R.
Qed.

Lemma same_but_links_refs (s s' : state) : same_but_links s s' -> same_refs s s'.
Proof.
  intros H k. destruct (same_but_links_node s s' (Buf k) H) as (_ & _ & _ & _ & R & _).
  exact R.
Qed.

Lemma same_but_links_table (s s' : state) : same_but_links s s' -> same_table s s'.
Proof.
  intros H. split; [apply H|]. intro k.
  destruct (same_but_links_node s s' (Buf k) H) as (_ & D & B & _ & _ & N & _).
  auto.
Qed.

Lemma same_links_upd (s : state) (p : ptr) (f : buf -> buf) :
  p <> Null -> (forall x, next (f x) = next x /\ prev (f x) = prev x) ->
  same_links s (upd s p f).
Proof.
  intros Hp Hf q. rewrite node_upd by assumption.
  destruct (ptr_eqb p q); [apply Hf | auto].
Qed.

Lemma same_refs_upd (s : state) (p : ptr) (f : buf -> buf) :
  p <> Null -> (forall x, refcnt (f x) = refcnt x) -> same_refs s (upd s p f).
Proof.
  intros Hp Hf k. change (bufs (upd s p f) k) with (node (upd s p f) (Buf k)).
  rewrite node_upd by assumption. destruct (ptr_eqb p (Buf k)); [apply Hf | auto].
Qed.

Lemma setL_same (L : nat -> list nat) (i : nat) (l : list nat) : setL L i l i = l.
Proof. unfold setL. rewrite Nat.eqb_refl. reflexivity. Qed.

Lemma setL_other (L : nat -> list nat) (i j : nat) (l : list nat) :
  j <> i -> setL L i l j = L j.
Proof. intro H. unfold setL. apply Nat.eqb_neq in H. rewrite H. reflexivity. Qed.

(** Taking the first buffer off shard [i]'s list. *)
Lemma lists_ok_take (NBUF : nat) (s : state) (L : nat -> list nat)
      (i v : nat) (l : list nat) :
  lists_ok NBUF s L -> (i < NSHARD)%nat -> L i = v :: l ->
  lists_ok NBUF (lru_remove_state s (after_head i l) (Lru i)) (setL L i l).
Proof.
  intros (Hl & Hb & Hd) Hi Hv. split; [|split].
  - intros j Hj. destruct (Nat.eq_dec j i) as [->|Hne].
    + rewrite setL_same. pose proof (Hl i Hi) as H. rewrite Hv in H.
      apply (lru_list_remove s i v l H).
    + rewrite setL_other by assumption.
      apply lru_list_remove_other; auto.
      intros m Hm Hm'. apply Hne. apply (Hd j i m); auto. rewrite Hv. right. assumption.
  - intros j k Hj Hk. destruct (Nat.eq_dec j i) as [->|Hne].
    + rewrite setL_same in Hk. apply (Hb i); auto. rewrite Hv. right. assumption.
    + rewrite setL_other in Hk by assumption. apply (Hb j); auto.
  - intros j j' k Hj Hj' Hk Hk'.
    assert (Hin : forall a, In k (setL L i l a) -> In k (L a)).
    { intros a Ha. destruct (Nat.eq_dec a i) as [->|Hne].
      - rewrite setL_same in Ha. rewrite Hv. right. assumption.
      - rewrite setL_other in Ha by assumption. assumption. }
    apply (Hd j j' k); auto.
Qed.

(** Putting a buffer that is on no list at the end of shard [i]'s list. *)
Lemma lists_ok_give (NBUF : nat) (s : state) (L : nat -> list nat) (i k : nat) :
  lists_ok NBUF s L -> (i < NSHARD)%nat -> (k < NBUF)%nat ->
  (forall j, (j < NSHARD)%nat -> ~ In k (L j)) ->
  lists_ok NBUF (lru_add_state s k i (prev (lrus s i))) (setL L i (L i ++ [k])).
Proof.
  intros (Hl & Hb & Hd) Hi Hk Hoff. split; [|split].
  - intros j Hj. destruct (Nat.eq_dec j i) as [->|Hne].
    + rewrite setL_same. apply (lru_list_add s k i (L i)); auto.
    + rewrite setL_other by assumption.
      apply (lru_list_add_other s k i j (L i) (L j)); auto.
      intros m Hm Hm'. apply Hne. apply (Hd j i m); auto.
  - intros j m Hj Hm. destruct (Nat.eq_dec j i) as [->|Hne].
    + rewrite setL_same in Hm. apply in_app_or in Hm. destruct Hm as [Hm|[<-|[]]]; auto.
      apply (Hb i); auto.
    + rewrite setL_other in Hm by assumption. apply (Hb j); auto.
  - intros j j' m Hj Hj' Hm Hm'.
    assert (Hin : forall a, (a < NSHARD)%nat -> In m (setL L i (L i ++ [k]) a) ->
                            In m (L a) \/ (a = i /\ m = k)).
    { intros a Ha Hma. destruct (Nat.eq_dec a i) as [->|Hne].
      - rewrite setL_same in Hma. apply in_app_or in Hma.
        destruct Hma as [Hma|[<-|[]]]; auto.
      - rewrite setL_other in Hma by assumption. auto. }
    destruct (Hin j Hj Hm) as [H1|[-> ->]], (Hin j' Hj' Hm') as [H2|[-> E2]];
      try reflexivity.
    + apply (Hd j j' m); auto.
    + subst m. exfalso. apply (Hoff j); auto.
    + exfalso. apply (Hoff j'); auto.
Qed.

Lemma refs_ok_take (NBUF : nat) (s s' : state) (L : nat -> list nat)
      (i v : nat) (l : list nat) :
  lists_ok NBUF s L -> refs_ok NBUF s L -> (i < NSHARD)%nat -> L i = v :: l ->
  0 < refcnt (bufs s' v) < 2 ^ 32 ->
  (forall k, k <> v -> refcnt (bufs s' k) = refcnt (bufs s k)) ->
  refs_ok NBUF s' (setL L i l).
Proof.
  intros (Hl & Hb & Hd) Hr Hi Hv Hpos Hsame k Hk.
  destruct (Nat.eq_dec k v) as [->|Hne].
  - split; [lia|]. split; [lia|]. intros (j & Hj & Hin). exfalso.
    pose proof (Hl i Hi) as [Hnd _]. rewrite Hv in Hnd.
    apply NoDup_cons_iff in Hnd. destruct Hnd as [Hvl _].
    destruct (Nat.eq_dec j i) as [->|Hji].
    + rewrite setL_same in Hin. tauto.
    + rewrite setL_other in Hin by assumption.
      apply Hji. apply (Hd j i v); auto. rewrite Hv. left. reflexivity.
  - rewrite Hsame by assumption. destruct (Hr k Hk) as [Hrg Hz]. split; [assumption|].
    rewrite Hz. split; intros (j & Hj & Hin); exists j; split; auto.
    + destruct (Nat.eq_dec j i) as [->|Hji].
      * rewrite setL_same. rewrite Hv in Hin. destruct Hin; [congruence | assumption].
      * rewrite setL_other by assumption. assumption.
    + destruct (Nat.eq_dec j i) as [->|Hji].
      * rewrite setL_same in Hin. rewrite Hv. right. assumption.
      * rewrite setL_other in Hin by assumption. assumption.
Qed.

Lemma refs_ok_give (NBUF : nat) (s s' : state) (L : nat -> list nat) (i k : nat) :
  refs_ok NBUF s L -> (i < NSHARD)%nat ->
  refcnt (bufs s' k) = 0 ->
  (forall m, m <> k -> refcnt (bufs s' m) = refcnt (bufs s m)) ->
  refs_ok NBUF s' (setL L i (L i ++ [k])).
Proof.
  intros Hr Hi Hz Hsame m Hm. destruct (Nat.eq_dec m k) as [->|Hne].
  - rewrite Hz. split; [lia|]. split; [|reflexivity]. intros _.
    exists i. split; [assumption|]. rewrite setL_same. apply in_or_app.
    right. left. reflexivity.
  - rewrite Hsame by assumption. destruct (Hr m Hm) as [Hrg Hzm]. split; [assumption|].
    rewrite Hzm. split; intros (j & Hj & Hin); exists j; split; auto.
    + destruct (Nat.eq_dec j i) as [->|Hji].
      * rewrite setL_same. apply in_or_app. left. assumption.
      * rewrite setL_other by assumption. assumption.
    + destruct (Nat.eq_dec j i) as [->|Hji].
      * rewrite setL_same in Hin. apply in_app_or in Hin.
        destruct Hin as [Hin|[E|[]]]; [assumption | congruence].
      * rewrite setL_other in Hin by assumption. assumption.
Qed.

Lemma refs_ok_bump (NBUF : nat) (s s' : state) (L : nat -> list nat) (k : nat) :
  refs_ok NBUF s L -> 0 < refcnt (bufs s k) ->
  0 < refcnt (bufs s' k) < 2 ^ 32 ->
  (forall m, m <> k -> refcnt (bufs s' m) = refcnt (bufs s m)) ->
  refs_ok NBUF s' L.
Proof.
  intros Hr Hpos Hpos' Hsame m Hm. destruct (Nat.eq_dec m k) as [->|Hne].
  - destruct (Hr k Hm) as [_ Hz]. split; [lia|]. rewrite <- Hz. lia.
  - rewrite Hsame by assumption. apply Hr. assumption.
Qed.

(** ** Stepping through monadic code *)

Lemma bind_ok {A B : Type} (m : M A) (f : A -> M B) (s s1 : state) (a : A) :
  m s = Ok a s1 -> bind m f s = f a s1.
Proof. intro H. unfold bind. rewrite H. reflexivity. Qed.

Lemma bind_inv {A B : Type} (m : M A) (f : A -> M B) (s s' : state) (b : B) :
  bind m f s = Ok b s' -> exists a s1, m s = Ok a s1 /\ f a s1 = Ok b s'.
Proof.
  unfold bind. destruct (m s) as [a s1| | | |]; try discriminate.
  intro H. exists a, s1. auto.
Qed.

Lemma load_inv (p : ptr) (s s' : state) (x : buf) :
  load p s = Ok x s' -> p <> Null /\ x = node s p /\ s' = s.
Proof.
  destruct p; simpl; intro H; try discriminate; inversion H; subst;
    repeat split; discriminate.
Qed.

Lemma store_inv (p : ptr) (f : buf -> buf) (s s' : state) (u : unit) :
  store p f s = Ok u s' -> p <> Null /\ s' = upd s p f.
Proof.
  destruct p; simpl; intro H; try discriminate; inversion H; subst;
    split; reflexivity || discriminate.
Qed.

Lemma slot_get_inv (p : slot) (s s' : state) (q : ptr) :
  slot_get p s = Ok q s' -> good_slot p /\ q = slot_val s p /\ s' = s.
Proof.
  destruct p as [i|[|k|i]]; simpl; unfold bind; simpl; intro H;
    try discriminate; inversion H; subst; auto.
Qed.

(** find_ptr only reads. *)
Lemma find_ptr_loop_reads (d blk : Z) :
  forall (n : nat) (p p' : slot) (s s' : state),
    find_ptr_loop n d blk p s = Ok p' s' -> s' = s /\ good_slot p'.
Proof.
  induction n as [|n IH]; intros p p' s s' H; simpl in H; [discriminate|].
  apply bind_inv in H. destruct H as (q & s1 & Hq & H).
  apply slot_get_inv in Hq. destruct Hq as (Hg & -> & ->).
  destruct (is_null (slot_val s p)).
  - inversion H; subst. auto.
  - apply bind_inv in H. destruct H as (x & s2 & Hx & H).
    apply load_inv in Hx. destruct Hx as (_ & -> & ->).
    destruct (differs d blk (node s (slot_val s p))).
    + apply IH in H. exact H.
    + inversion H; subst. auto.
Qed.

Lemma btable_find_reads (n : nat) (d blk : Z) (s s' : state) (b : ptr) :
  btable_find n d blk s = Ok b s' -> s' = s.
Proof.
  unfold btable_find. intro H. apply bind_inv in H. destruct H as (p & s1 & Hp & H).
  apply find_ptr_loop_reads in Hp. destruct Hp as [-> _].
  apply slot_get_inv in H. tauto.
Qed.

Lemma drop_match_same_table (s s' : state) (d blk : Z) (l : list nat) :
  same_table s s' -> drop_match s' d blk l = drop_match s d blk l.
Proof.
  intro H. induction l as [|k l IH]; simpl; [reflexivity|].
  rewrite (differs_same_table _ _ _ _ _ H), IH. reflexivity.
Qed.

Lemma incr_refcnt_ok (s : state) (k : nat) :
  incr_refcnt (Buf k) s =
    Ok tt (upd s (Buf k) (set_refcnt (wrap32 (refcnt (bufs s k) + 1)))).
Proof. reflexivity. Qed.

Lemma decr_refcnt_ok (s : state) (k : nat) :
  decr_refcnt (Buf k) s =
    Ok tt (upd s (Buf k) (set_refcnt (wrap32 (refcnt (bufs s k) - 1)))).
Proof. reflexivity. Qed.

Lemma acquiresleep_ok (me : Z) (s : state) (k : nat) :
  acquiresleep me (Buf k) s =
    if locked (lock (bufs s k)) then Blocked s
    else Ok tt (upd s (Buf k) (set_lock (mksleeplock true me))).
Proof.
  unfold acquiresleep, bind. simpl load. cbv beta iota.
  destruct (locked (lock (bufs s k))); reflexivity.
Qed.

Lemma bufs_upd_same (s : state) (k : nat) (f : buf -> buf) :
  bufs (upd s (Buf k) f) k = f (bufs s k).
Proof. simpl. rewrite Nat.eqb_refl. reflexivity. Qed.

Lemma bufs_upd_other (s : state) (k j : nat) (f : buf -> buf) :
  j <> k -> bufs (upd s (Buf k) f) j = bufs s j.
Proof.
  intro H. simpl. destruct (Nat.eqb k j) eqn:E; [|reflexivity].
  apply Nat.eqb_eq in E. congruence.
Qed.

Lemma bufs_upd_lru (s : state) (i j : nat) (f : buf -> buf) :
  bufs (upd s (Lru i) f) j = bufs s j.
Proof. reflexivity. Qed.

Lemma lrus_upd_buf (s : state) (k j : nat) (f : buf -> buf) :
  lrus (upd s (Buf k) f) j = lrus s j.
Proof. reflexivity. Qed.

Ltac fsimpl :=
  repeat rewrite bufs_upd_same;
  cbn [valid dev blockno lock refcnt prev next next_hash data
       set_valid set_dev set_blockno set_lock set_refcnt set_prev set_next
       set_next_hash set_data locked pid].

Ltac mstep := erewrite bind_ok by reflexivity; cbv beta; cbn [node].

(** ** brelse *)

Section ReleaseFacts.

Variable fuel : nat.

Lemma bufs_released (s : state) (k j : nat) :
  bufs (released s k) j =
    if Nat.eqb k j
    then set_refcnt (wrap32 (refcnt (bufs s k) - 1)) (set_lock unlocked (bufs s k))
    else bufs s j.
Proof.
  unfold released. simpl. destruct (Nat.eqb k j) eqn:E; [|reflexivity].
  apply Nat.eqb_eq in E. subst. reflexivity.
Qed.

Lemma brelse_not_held (me : Z) (s : state) (k : nat) :
  holdingsleep me (lock (bufs s k)) = false ->
  brelse fuel me (Buf k) s = Panic "brelse"%string.
Proof.
  intro H. unfold brelse, bind. simpl load. cbv beta iota. rewrite H. reflexivity.
Qed.

Lemma brelse_keep (me : Z) (s : state) (k : nat) :
  holdingsleep me (lock (bufs s k)) = true ->
  wrap32 (refcnt (bufs s k) - 1) <> 0 ->
  brelse fuel me (Buf k) s = Ok tt (released s k).
Proof.
  intros Hh Hr. unfold brelse. mstep. rewrite Hh. cbn [negb].
  unfold releasesleep. mstep. mstep. rewrite (bind_ok _ _ _ _ _ (decr_refcnt_ok _ _)).
  mstep. fsimpl. apply Z.eqb_neq in Hr. rewrite Hr. reflexivity.
Qed.

Lemma brelse_zero (me : Z) (s : state) (k : nat) (l C : list nat) :
  let d := dev (bufs s k) in
  let blk := blockno (bufs s k) in
  let idx := hash blk in
  holdingsleep me (lock (bufs s k)) = true ->
  wrap32 (refcnt (bufs s k) - 1) = 0 ->
  lru_list s idx l -> ~ In k l ->
  chain s (elems s idx) C -> (List.length C < fuel)%nat ->
  let s2 := lru_add_state (released s k) k idx (prev (lrus s idx)) in
  exists s',
    brelse fuel me (Buf k) s = Ok tt s' /\ same_but_hash s2 s' /\
    lru_list s2 idx (l ++ [k]) /\ prev (lrus s2 idx) = Buf k /\
    chain s' (elems s' idx) (drop_match s d blk C).
Proof.
  intros d blk idx Hh Hr Hl Hk Hc Hn s2.
  assert (Hlinks : same_links s (released s k)).
  { unfold released. eapply same_links_trans; apply same_links_upd; auto. }
  assert (Htab : same_table s (released s k)).
  { unfold released. eapply same_table_trans; apply same_table_upd; auto. }
  assert (Hl1 : lru_list (released s k) idx l) by (apply (lru_list_same_links s); auto).
  assert (Hprev : prev (lrus (released s k) idx) = prev (lrus s idx)) by reflexivity.
  destruct (lru_list_add (released s k) k idx l Hl1 Hk) as (Hadd & Hl2 & Hmru).
  rewrite Hprev in Hadd, Hl2, Hmru. fold s2 in Hadd, Hl2, Hmru.
  assert (Htab2 : same_table s s2).
  { apply (same_table_trans _ (released s k)); [assumption|].
    apply same_but_links_table. apply lru_add_same_but_links.
    destruct (lru_list_tail _ _ _ Hl); assumption. }
  assert (Hid : dev (bufs s2 k) = d /\ blockno (bufs s2 k) = blk).
  { destruct Htab2 as [_ H]. destruct (H k) as (_ & Hd & Hb). auto. }
  destruct Hid as [Hd2 Hb2].
  assert (Hc2 : chain s2 (elems s2 (hash (blockno (bufs s2 k)))) C).
  { rewrite Hb2. fold idx. destruct Htab2 as [He Hb]. rewrite He.
    apply (chain_same_table s); [split; assumption | assumption]. }
  destruct (btable_remove_ok fuel s2 k C Hc2 Hn) as (s' & Hrem & Hsh & Hc').
  exists s'. split; [|split; [assumption|split; [assumption|split; [assumption|]]]].
  - unfold brelse. mstep. rewrite Hh. cbn [negb].
    unfold releasesleep. mstep. mstep. rewrite (bind_ok _ _ _ _ _ (decr_refcnt_ok _ _)).
    mstep. fsimpl. rewrite Hr. cbn [Z.eqb].
    unfold released, unlocked, idx, blk in Hadd. rewrite Hr in Hadd.
    rewrite (bind_ok _ _ _ _ _ Hadd). exact Hrem.
  - rewrite Hb2, Hd2 in Hc'. fold idx in Hc'.
    rewrite (drop_match_same_table s s2) in Hc' by assumption. exact Hc'.
Qed.

End ReleaseFacts.

(** ** Everything but the links *)

Lemma same_core_refl (s : state) : same_core s s.
Proof. repeat split. Qed.

Lemma same_core_trans (s1 s2 s3 : state) :
  same_core s1 s2 -> same_core s2 s3 -> same_core s1 s3.
Proof.
  intros (N1 & D1 & R1 & W1) (N2 & D2 & R2 & W2).
  split; [intro q; rewrite N2; apply N1 | repeat split; congruence].
Qed.

Lemma same_but_hash_core (s s' : state) : same_but_hash s s' -> same_core s s'.
Proof.
  intros (N & D & R & W). split; [|auto]. intro q. specialize (N q).
  unfold core. apply (f_equal (fun x => set_next_hash Null (set_prev Null (set_next Null x)))) in N.
  exact N.
Qed.

Lemma same_but_links_core (s s' : state) : same_but_links s s' -> same_core s s'.
Proof.
  intros (N & _ & D & R & W). split; [|auto]. intro q. specialize (N q).
  apply (f_equal (set_next_hash Null)) in N. exact N.
Qed.

Lemma same_core_node (s s' : state) (q : ptr) :
  same_core s s' ->
  valid (node s' q) = valid (node s q) /\ dev (node s' q) = dev (node s q) /\
  blockno (node s' q) = blockno (node s q) /\ lock (node s' q) = lock (node s q) /\
  refcnt (node s' q) = refcnt (node s q) /\ data (node s' q) = data (node s q).
Proof.
  intros [H _]. specialize (H q).
  repeat split;
    [ apply (f_equal valid) in H | apply (f_equal dev) in H
    | apply (f_equal blockno) in H | apply (f_equal lock) in H
    | apply (f_equal refcnt) in H | apply (f_equal data) in H ]; exact H.
Qed.

Lemma same_core_upd (s s' : state) (p : ptr) (f : buf -> buf) :
  p <> Null -> (forall x, core (f x) = f (core x)) ->
  same_core s s' -> same_core (upd s p f) (upd s' p f).
Proof.
  intros Hp Hf (N & D & R & W). split; [|auto].
  intro q. rewrite !node_upd by assumption.
  destruct (ptr_eqb p q); [|apply N]. rewrite !Hf. f_equal. apply N.
Qed.

Lemma same_core_upd_link (s : state) (p : ptr) (f : buf -> buf) :
  p <> Null -> (forall x, core (f x) = core x) -> same_core s (upd s p f).
Proof.
  intros Hp Hf. split; [|auto]. intro q. rewrite node_upd by assumption.
  destruct (ptr_eqb p q); [apply Hf | reflexivity].
Qed.

(** ** bget: what each return does *)

Lemma bufs_victim_set (d blk : Z) (s : state) (v j : nat) :
  bufs (victim_set d blk s v) j =
    if Nat.eqb v j
    then set_valid 0 (set_dev d (set_blockno blk (set_refcnt 1 (bufs s v))))
    else bufs s j.
Proof.
  unfold victim_set. simpl. destruct (Nat.eqb v j) eqn:E; [|reflexivity].
  apply Nat.eqb_eq in E. subst. reflexivity.
Qed.

Lemma victim_set_links (d blk : Z) (s : state) (v : nat) :
  same_links s (victim_set d blk s v).
Proof.
  unfold victim_set.
  repeat (eapply same_links_trans; [|apply same_links_upd; auto]).
  apply same_links_refl.
Qed.

Lemma victim_set_next_hash (d blk : Z) (s : state) (v k : nat) :
  next_hash (bufs (victim_set d blk s v) k) = next_hash (bufs s k).
Proof. rewrite bufs_victim_set. destruct (Nat.eqb v k) eqn:E; [|reflexivity].
  apply Nat.eqb_eq in E. subst. reflexivity. Qed.

Lemma victim_set_core (d blk : Z) (s s' : state) (v : nat) :
  same_core s s' -> same_core (victim_set d blk s v) (victim_set d blk s' v).
Proof.
  intro H. unfold victim_set.
  repeat (apply same_core_upd; [discriminate | reflexivity |]). exact H.
Qed.

Lemma lock_chain (s1 s2 s3 : state) (v : nat) :
  same_but_hash s1 s2 -> same_but_links s2 s3 ->
  lock (bufs s3 v) = lock (bufs s1 v).
Proof.
  intros H1 H2.
  destruct (same_but_hash_node _ _ (Buf v) H1) as (_ & _ & _ & L1 & _).
  destruct (same_but_links_node _ _ (Buf v) H2) as (_ & _ & _ & L2 & _).
  simpl in *. congruence.
Qed.

Section AcquireFacts.

Variable fuel : nat.
Variable env : nat -> state -> state.

Lemma bget_hit (me d blk : Z) (s : state) (C : list nat) (k : nat) :
  chain s (elems s (hash blk)) C -> (List.length C < fuel)%nat ->
  lookup s d blk C = Buf k ->
  bget_via fuel env me d blk s = lock_and_return me (bumped s k) k (Buf k, ByHit).
Proof.
  intros Hc Hn Hl. unfold bget_via.
  rewrite (bind_ok _ _ _ _ _ (btable_find_chain fuel s d blk C Hc Hn)).
  rewrite Hl. cbn [is_null negb].
  rewrite (bind_ok _ _ _ _ _ (incr_refcnt_ok _ _)). fold (bumped s k).
  unfold bind at 1. rewrite acquiresleep_ok. unfold lock_and_return.
  destruct (locked (lock (bufs (bumped s k) k))); reflexivity.
Qed.

Lemma bget_no_local (me d blk : Z) (s : state) (C : list nat) :
  chain s (elems s (hash blk)) C -> (List.length C < fuel)%nat ->
  lookup s d blk C = Null ->
  next (lrus s (hash blk)) = Lru (hash blk) ->
  bget_via fuel env me d blk s = steal_loop fuel env me d blk (hash blk) NSHARD 0 s.
Proof.
  intros Hc Hn Hl He. unfold bget_via.
  rewrite (bind_ok _ _ _ _ _ (btable_find_chain fuel s d blk C Hc Hn)).
  rewrite Hl. cbn [is_null negb]. mstep. rewrite He, ptr_eqb_refl. reflexivity.
Qed.

Lemma bget_local (me d blk : Z) (s : state) (C l : list nat) (v : nat) :
  let idx := hash blk in
  chain s (elems s idx) C -> (List.length C < fuel)%nat ->
  lookup s d blk C = Null ->
  lru_list s idx (v :: l) ->
  exists s2,
    same_but_hash (victim_set d blk s v) s2 /\
    let s3 := lru_remove_state s2 (after_head idx l) (Lru idx) in
    lru_list s3 idx l /\ same_core (victim_set d blk s v) s3 /\
    bget_via fuel env me d blk s = lock_and_return me s3 v (Buf v, ByLocal).
Proof.
  intros idx Hc Hn Hl Hlru.
  destruct (lru_list_head _ _ _ _ Hlru) as (Hh & _).
  set (s1 := victim_set d blk s v).
  assert (Hc1 : chain s1 (elems s1 (hash (blockno (bufs s1 v)))) C).
  { unfold s1. rewrite bufs_victim_set, Nat.eqb_refl. cbn [blockno set_valid set_dev set_blockno].
    apply (chain_ext s); [|exact Hc]. intros k _. apply victim_set_next_hash. }
  destruct (btable_insert_ok fuel s1 v C Hc1 Hn) as (s2 & Hins & Hsh).
  exists s2. split; [assumption|]. intro s3.
  assert (Hl2 : lru_list s2 idx (v :: l)).
  { apply (lru_list_same_links s); [|assumption].
    eapply same_links_trans; [apply victim_set_links|].
    apply same_but_hash_links. exact Hsh. }
  destruct (lru_list_remove s2 idx v l Hl2) as (Hrem & Hl3). fold s3 in Hrem, Hl3.
  split; [assumption|]. split.
  { apply (same_core_trans _ s2); [apply same_but_hash_core; assumption|].
    apply same_but_links_core. apply lru_remove_same_but_links;
      [destruct l; discriminate | discriminate]. }
  unfold bget_via.
  rewrite (bind_ok _ _ _ _ _ (btable_find_chain fuel s d blk C Hc Hn)).
  rewrite Hl. cbn [is_null negb]. mstep. fold idx. rewrite Hh.
  cbn [ptr_eqb negb]. do 4 mstep. fold (victim_set d blk s v). fold s1.
  rewrite (bind_ok _ _ _ _ _ Hins). rewrite (bind_ok _ _ _ _ _ Hrem).
  unfold bind at 1. rewrite acquiresleep_ok. unfold lock_and_return.
  destruct (locked (lock (bufs s3 v))); reflexivity.
Qed.

Lemma steal_iter_hit (me d blk : Z) (i : nat) (s : state) (C : list nat) (k : nat) :
  chain s (elems s (hash blk)) C -> (List.length C < fuel)%nat ->
  lookup s d blk C = Buf k ->
  steal_iter fuel me d blk i s =
    lock_and_return me (bumped s k) k (Some (Buf k, ByRecheck i)).
Proof.
  intros Hc Hn Hl. unfold steal_iter.
  rewrite (bind_ok _ _ _ _ _ (btable_find_chain fuel s d blk C Hc Hn)).
  rewrite Hl. cbn [is_null negb].
  rewrite (bind_ok _ _ _ _ _ (incr_refcnt_ok _ _)). fold (bumped s k).
  unfold bind at 1. rewrite acquiresleep_ok. unfold lock_and_return.
  destruct (locked (lock (bufs (bumped s k) k))); reflexivity.
Qed.

Lemma steal_iter_empty (me d blk : Z) (i : nat) (s : state) (C : list nat) :
  chain s (elems s (hash blk)) C -> (List.length C < fuel)%nat ->
  lookup s d blk C = Null ->
  next (lrus s i) = Lru i ->
  steal_iter fuel me d blk i s = Ok None s.
Proof.
  intros Hc Hn Hl He. unfold steal_iter.
  rewrite (bind_ok _ _ _ _ _ (btable_find_chain fuel s d blk C Hc Hn)).
  rewrite Hl. cbn [is_null negb]. mstep. rewrite He, ptr_eqb_refl. reflexivity.
Qed.

Lemma steal_iter_steal (me d blk : Z) (i : nat) (s : state) (C C' l : list nat) (v : nat) :
  chain s (elems s (hash blk)) C -> (List.length C < fuel)%nat ->
  lookup s d blk C = Null ->
  lru_list s i (v :: l) ->
  chain s (elems s (hash (blockno (bufs s v)))) C' -> (List.length C' < fuel)%nat ->
  let s1 := lru_remove_state s (after_head i l) (Lru i) in
  lru_list s1 i l /\
  exists s2,
    same_but_hash s1 s2 /\
    same_core (victim_set d blk s v) (victim_set d blk s2 v) /\
    steal_iter fuel me d blk i s =
      lock_and_return me (victim_set d blk s2 v) v (Some (Buf v, BySteal i)).
Proof.
  intros Hc Hn Hl Hlru Hc' Hn' s1.
  destruct (lru_list_head _ _ _ _ Hlru) as (Hh & _).
  destruct (lru_list_remove s i v l Hlru) as (Hrem & Hl1). fold s1 in Hrem, Hl1.
  split; [assumption|].
  assert (Hsl : same_but_links s s1).
  { apply lru_remove_same_but_links; [destruct l; discriminate | discriminate]. }
  assert (Hc1 : chain s1 (elems s1 (hash (blockno (bufs s1 v)))) C').
  { destruct (same_but_links_table _ _ Hsl) as [He Hb].
    destruct (Hb v) as (_ & _ & Hbv). rewrite Hbv, He.
    apply (chain_same_table s); [split; assumption | assumption]. }
  destruct (btable_insert_ok fuel s1 v C' Hc1 Hn') as (s2 & Hins & Hsh).
  exists s2. split; [assumption|]. split.
  { apply victim_set_core. apply (same_core_trans _ s1);
      [apply same_but_links_core | apply same_but_hash_core]; assumption. }
  unfold steal_iter.
  rewrite (bind_ok _ _ _ _ _ (btable_find_chain fuel s d blk C Hc Hn)).
  rewrite Hl. cbn [is_null negb]. mstep. rewrite Hh.
  cbn [ptr_eqb]. mstep. rewrite Hh.
  rewrite (bind_ok _ _ _ _ _ Hrem). rewrite (bind_ok _ _ _ _ _ Hins).
  do 4 mstep. fold (victim_set d blk s2 v).
  unfold bind at 1. rewrite acquiresleep_ok. unfold lock_and_return.
  destruct (locked (lock (bufs (victim_set d blk s2 v) v))); reflexivity.
Qed.

End AcquireFacts.

(** ** Properties preserved by every step *)

Lemma keeps_ret {A : Type} (P : state -> Prop) (a : A) : keeps P (ret a).
Proof. intros s H. exact H. Qed.

Lemma keeps_panic {A : Type} (P : state -> Prop) (msg : string) :
  keeps P (@panic A msg).
Proof. intros s H. exact I. Qed.

Lemma keeps_bind {A B : Type} (P : state -> Prop) (m : M A) (f : A -> M B) :
  keeps P m -> (forall a, keeps P (f a)) -> keeps P (bind m f).
Proof.
  intros Hm Hf s H. unfold bind. specialize (Hm s H).
  destruct (m s) as [a s1| | |s1|]; auto. apply (Hf a s1 Hm).
Qed.

Lemma keeps_load (P : state -> Prop) (p : ptr) : keeps P (load p).
Proof. intros s H. destruct p; simpl; auto. Qed.

Lemma keeps_slot_get (P : state -> Prop) (p : slot) : keeps P (slot_get p).
Proof.
  destruct p as [i|q]; simpl.
  - intros s H. exact H.
  - apply keeps_bind; [apply keeps_load | intro; apply keeps_ret].
Qed.

Lemma keeps_if {A : Type} (P : state -> Prop) (c : bool) (m1 m2 : M A) :
  keeps P m1 -> keeps P m2 -> keeps P (if c then m1 else m2).
Proof. destruct c; auto. Qed.

Lemma keeps_find_ptr_loop (P : state -> Prop) (d blk : Z) :
  forall n p, keeps P (find_ptr_loop n d blk p).
Proof.
  induction n as [|n IH]; intro p; simpl.
  - intros s H. exact I.
  - apply keeps_bind; [apply keeps_slot_get|]. intro q.
    apply keeps_if; [apply keeps_ret|].
    apply keeps_bind; [apply keeps_load|]. intro x.
    apply keeps_if; [apply IH | apply keeps_ret].
Qed.

Lemma wrap32_range (z : Z) : 0 <= wrap32 z < 2 ^ 32.
Proof. unfold wrap32. apply Z.mod_pos_bound. lia. Qed.

Lemma keeps_range_store (p : ptr) (f : buf -> buf) :
  (forall x, 0 <= refcnt x < 2 ^ 32 -> 0 <= refcnt (f x) < 2 ^ 32) ->
  keeps refs_in_range (store p f).
Proof.
  intros Hf s H. destruct p as [|k|i]; simpl; auto; intro q;
    rewrite node_upd by discriminate;
    destruct (ptr_eqb _ q); auto.
Qed.

Lemma keeps_range_slot_set (p : slot) (v : ptr) : keeps refs_in_range (slot_set p v).
Proof.
  destruct p as [i|q]; simpl.
  - intros s H r. exact (H r).
  - apply keeps_range_store. auto.
Qed.

Section RangeFacts.

Variable fuel : nat.
Variable env : nat -> state -> state.
Hypothesis env_range : forall i s, refs_in_range s -> refs_in_range (env i s).

Ltac keeps_auto :=
  repeat first
    [ apply keeps_ret | apply keeps_panic | apply keeps_load | apply keeps_slot_get
    | apply keeps_range_slot_set | apply keeps_find_ptr_loop
    | apply keeps_range_store;
      first [ solve [auto] | intros; cbn [refcnt set_refcnt]; first [apply wrap32_range | lia] ]
    | apply keeps_bind; [| intro]
    | apply keeps_if ].

Lemma keeps_range_btable_find (d blk : Z) :
  keeps refs_in_range (btable_find fuel d blk).
Proof. unfold btable_find, find_ptr. keeps_auto. Qed.

Lemma keeps_range_btable_insert (b : ptr) :
  keeps refs_in_range (btable_insert fuel b).
Proof. unfold btable_insert, find_ptr. keeps_auto. Qed.

Lemma keeps_range_btable_remove (b : ptr) :
  keeps refs_in_range (btable_remove fuel b).
Proof. unfold btable_remove, find_ptr. keeps_auto. Qed.

Lemma keeps_range_lru_add (b h : ptr) : keeps refs_in_range (lru_add b h).
Proof. unfold lru_add. keeps_auto. Qed.

Lemma keeps_range_lru_remove (b : ptr) : keeps refs_in_range (lru_remove b).
Proof. unfold lru_remove. keeps_auto. Qed.

Lemma keeps_range_incr (b : ptr) : keeps refs_in_range (incr_refcnt b).
Proof. unfold incr_refcnt. keeps_auto. Qed.

Lemma keeps_range_decr (b : ptr) : keeps refs_in_range (decr_refcnt b).
Proof. unfold decr_refcnt. keeps_auto. Qed.

Lemma keeps_range_acquiresleep (me : Z) (b : ptr) :
  keeps refs_in_range (acquiresleep me b).
Proof.
  unfold acquiresleep. apply keeps_bind; [apply keeps_load|]. intro x.
  apply keeps_if; [|keeps_auto]. intros s H. exact H.
Qed.

Lemma keeps_range_steal_iter (me d blk : Z) (i : nat) :
  keeps refs_in_range (steal_iter fuel me d blk i).
Proof.
  unfold steal_iter.
  apply keeps_bind; [apply keeps_range_btable_find|]. intro b.
  apply keeps_if.
  - apply keeps_bind; [apply keeps_range_incr|]. intro.
    apply keeps_bind; [apply keeps_range_acquiresleep|]. intro. apply keeps_ret.
  - apply keeps_bind; [apply keeps_load|]. intro h.
    apply keeps_if; [apply keeps_ret|].
    apply keeps_bind; [apply keeps_load|]. intro h'.
    apply keeps_bind; [apply keeps_range_lru_remove|]. intro.
    apply keeps_bind; [apply keeps_range_btable_insert|]. intro.
    do 4 (apply keeps_bind; [keeps_auto|]; intro).
    apply keeps_bind; [apply keeps_range_acquiresleep|]. intro. apply keeps_ret.
Qed.

Lemma keeps_range_steal_loop (me d blk : Z) (idx : nat) :
  forall n i, keeps refs_in_range (steal_loop fuel env me d blk idx n i).
Proof.
  induction n as [|n IH]; intro i; simpl; [apply keeps_panic|].
  apply keeps_if; [apply IH|].
  apply keeps_bind.
  - apply keeps_if; [apply keeps_ret|]. intros s H. apply env_range. exact H.
  - intro. apply keeps_bind; [apply keeps_range_steal_iter|].
    intros [x|]; [apply keeps_ret | apply IH].
Qed.

Lemma keeps_range_bget_via (me d blk : Z) :
  keeps refs_in_range (bget_via fuel env me d blk).
Proof.
  unfold bget_via.
  apply keeps_bind; [apply keeps_range_btable_find|]. intro b.
  apply keeps_if.
  - apply keeps_bind; [apply keeps_range_incr|]. intro.
    apply keeps_bind; [apply keeps_range_acquiresleep|]. intro. apply keeps_ret.
  - apply keeps_bind; [apply keeps_load|]. intro h.
    apply keeps_if; [|apply keeps_range_steal_loop].
    do 4 (apply keeps_bind; [keeps_auto|]; intro).
    apply keeps_bind; [apply keeps_range_btable_insert|]. intro.
    apply keeps_bind; [apply keeps_range_lru_remove|]. intro.
    apply keeps_bind; [apply keeps_range_acquiresleep|]. intro. apply keeps_ret.
Qed.

Lemma keeps_range_bget (me d blk : Z) :
  keeps refs_in_range (bget fuel env me d blk).
Proof.
  unfold bget. apply keeps_bind; [apply keeps_range_bget_via | intro; apply keeps_ret].
Qed.

Lemma keeps_range_brelse (me : Z) (b : ptr) :
  keeps refs_in_range (brelse fuel me b).
Proof.
  unfold brelse, releasesleep.
  apply keeps_bind; [apply keeps_load|]. intro x.
  apply keeps_if; [apply keeps_panic|].
  apply keeps_bind; [keeps_auto|]. intro.
  apply keeps_bind; [apply keeps_load|]. intro y.
  apply keeps_bind; [apply keeps_range_decr|]. intro.
  apply keeps_bind; [apply keeps_load|]. intro z.
  apply keeps_if; [|apply keeps_ret].
  apply keeps_bind; [apply keeps_range_lru_add | intro; apply keeps_range_btable_remove].
Qed.

End RangeFacts.

(** ** Resource exhaustion *)

Lemma steal_loop_exhausted (fuel : nat) (env : nat -> state -> state)
      (me d blk : Z) (idx : nat) :
  (forall i s, exhausted fuel d blk s -> exhausted fuel d blk (env i s)) ->
  forall n i s, (i + n = NSHARD)%nat -> exhausted fuel d blk s ->
    steal_loop fuel env me d blk idx n i s = Panic "bget: no buffers"%string.
Proof.
  intro Henv. induction n as [|n IH]; intros i s Hin Hs; simpl; [reflexivity|].
  destruct (Nat.eqb i idx); [apply IH; [lia | assumption]|].
  assert (Hstep : forall s', exhausted fuel d blk s' ->
            (r <- steal_iter fuel me d blk i ;;
             match r with
             | Some x => ret x
             | None => steal_loop fuel env me d blk idx n (S i)
             end) s' = Panic "bget: no buffers"%string).
  { intros s' [Hf He]. unfold steal_iter.
    rewrite bind_ok with (a := None) (s1 := s').
    - apply IH; [lia | split; assumption].
    - rewrite (bind_ok _ _ _ _ _ Hf). cbn [is_null negb]. mstep.
      rewrite He by lia. rewrite ptr_eqb_refl. reflexivity. }
  destruct (Nat.ltb i idx).
  - rewrite bind_ok with (a := tt) (s1 := s) by reflexivity. apply Hstep. assumption.
  - rewrite bind_ok with (a := tt) (s1 := env i s) by reflexivity.
    apply Hstep. apply Henv. assumption.
Qed.

(** C8: when bget finds neither the requested identity in the home chain
    nor a victim on any of the thirteen shards' LRU lists (and this stays so
    whenever it re-acquires the home lock), it panics with "bget: no
    buffers": it does not return, block or loop. *)
Theorem bget_exhausted_panics (fuel : nat) (env : nat -> state -> state)
        (me d blk : Z) (s : state) :
  (forall i s', exhausted fuel d blk s' -> exhausted fuel d blk (env i s')) ->
  exhausted fuel d blk s ->
  bget fuel env me d blk s = Panic "bget: no buffers"%string.
Proof.
  intros Henv Hs. unfold bget, bget_via. destruct Hs as [Hf He].
  unfold bind at 1. unfold bind at 1. rewrite Hf. cbn [is_null negb].
  unfold bind at 1. cbn [load node]. rewrite He by apply hash_lt.
  rewrite ptr_eqb_refl. cbn [negb].
  rewrite (steal_loop_exhausted fuel env me d blk (hash blk) Henv NSHARD 0 s);
    [reflexivity | reflexivity | split; assumption].
Qed.

(** ** Release followed by re-acquisition *)

Lemma differs_same_core (s s' : state) (d blk : Z) (k : nat) :
  same_core s s' -> differs d blk (bufs s' k) = differs d blk (bufs s k).
Proof.
  intro H. destruct (same_core_node s s' (Buf k) H) as (_ & Hd & Hb & _).
  simpl in Hd, Hb. unfold differs. rewrite Hd, Hb. reflexivity.
Qed.

Lemma lookup_same_core (s s' : state) (d blk : Z) (l : list nat) :
  same_core s s' -> lookup s' d blk l = lookup s d blk l.
Proof.
  intro H. induction l as [|k l IH]; simpl; [reflexivity|].
  rewrite (differs_same_core _ _ _ _ _ H), IH. reflexivity.
Qed.

Lemma length_drop_match (s : state) (d blk : Z) (l : list nat) :
  (List.length (drop_match s d blk l) <= List.length l)%nat.
Proof.
  induction l as [|k l IH]; simpl; [lia|].
  destruct (differs d blk (bufs s k)); simpl; lia.
Qed.

Lemma in_drop_match (s : state) (d blk : Z) (l : list nat) (j : nat) :
  In j (drop_match s d blk l) -> In j l.
Proof.
  induction l as [|k l IH]; simpl; [tauto|].
  destruct (differs d blk (bufs s k)); simpl; tauto.
Qed.

(** When only [k] can carry the identity, unlinking the first match
    unlinks [k]. *)
Lemma drop_match_unlinks (s : state) (d blk : Z) (k : nat) (l : list nat) :
  NoDup l -> differs d blk (bufs s k) = false ->
  (forall j, In j l -> j <> k -> differs d blk (bufs s j) = true) ->
  ~ In k (drop_match s d blk l).
Proof.
  induction l as [|j l IH]; intros Hnd Hk Hu; simpl; [tauto|].
  apply NoDup_cons_iff in Hnd. destruct Hnd as [Hjl Hnd].
  destruct (differs d blk (bufs s j)) eqn:E.
  - simpl. intros [->|Hin]; [congruence|].
    revert Hin. apply IH; auto. intros i Hi. apply Hu. right. assumption.
  - destruct (Nat.eq_dec j k) as [->|Hne]; [assumption|].
    rewrite (Hu j) in E by (auto; left; reflexivity). discriminate.
Qed.

Lemma lookup_ext (s s' : state) (d blk : Z) (l : list nat) :
  (forall k, differs d blk (bufs s' k) = differs d blk (bufs s k)) ->
  lookup s' d blk l = lookup s d blk l.
Proof.
  intro H. induction l as [|k l IH]; simpl; [reflexivity|].
  rewrite H, IH. reflexivity.
Qed.

Lemma differs_released (s : state) (d blk : Z) (k j : nat) :
  differs d blk (bufs (released s k) j) = differs d blk (bufs s j).
Proof.
  rewrite bufs_released. destruct (Nat.eqb k j) eqn:E; [|reflexivity].
  apply Nat.eqb_eq in E. subst. reflexivity.
Qed.

Lemma lock_and_return_free {A : Type} (me : Z) (s : state) (k : nat) (a : A) :
  locked (lock (bufs s k)) = false ->
  lock_and_return me s k a = Ok a (upd s (Buf k) (set_lock (mksleeplock true me))).
Proof. intro H. unfold lock_and_return. rewrite H. reflexivity. Qed.

Section ReleaseThenAcquire.

Variable fuel : nat.
Variable env : nat -> state -> state.

(** What brelse leaves behind when it drops the last reference, and what
    the next bget of the same identity does. *)
Lemma release_then_reacquire (me me' : Z) (s : state) (k : nat) (l C : list nat) :
  let d := dev (bufs s k) in
  let blk := blockno (bufs s k) in
  let idx := hash blk in
  holdingsleep me (lock (bufs s k)) = true ->
  refcnt (bufs s k) = 1 ->
  lru_list s idx l -> ~ In k l ->
  chain s (elems s idx) C -> (List.length C < fuel)%nat ->
  (forall j, In j C -> j <> k -> differs d blk (bufs s j) = true) ->
  (forall j, In j l -> locked (lock (bufs s j)) = false) ->
  exists s1 Cr,
    brelse fuel me (Buf k) s = Ok tt s1 /\
    same_core (released s k) s1 /\
    chain s1 (elems s1 idx) Cr /\ ~ In k Cr /\
    btable_find fuel d blk s1 = Ok Null s1 /\
    lru_list s1 idx (l ++ [k]) /\ prev (lrus s1 idx) = Buf k /\
    exists s3,
      same_core (victim_set d blk s1 (hd k l)) s3 /\
      bget_via fuel env me' d blk s1 =
        Ok (Buf (hd k l), ByLocal)
           (upd s3 (Buf (hd k l)) (set_lock (mksleeplock true me'))).
Proof.
  intros d blk idx Hh Hr Hl Hk Hc Hn Hu Hfree.
  assert (Hw : wrap32 (refcnt (bufs s k) - 1) = 0) by (rewrite Hr; reflexivity).
  destruct (brelse_zero fuel me s k l C Hh Hw Hl Hk Hc Hn)
    as (s1 & Hrel & Hsh & Hl2 & Hmru & Hc1).
  fold d blk idx in Hsh, Hl2, Hmru, Hc1.
  set (s2 := lru_add_state (released s k) k idx (prev (lrus s idx))) in *.
  assert (Htail : prev (lrus s idx) <> Null) by (destruct (lru_list_tail _ _ _ Hl); assumption).
  assert (Hcore : same_core (released s k) s1).
  { apply (same_core_trans _ s2).
    - apply same_but_links_core. apply lru_add_same_but_links. assumption.
    - apply same_but_hash_core. assumption. }
  assert (Hdiff : forall j, differs d blk (bufs s1 j) = differs d blk (bufs s j)).
  { intro j. rewrite (differs_same_core _ _ _ _ _ Hcore). apply differs_released. }
  pose proof (chain_NoDup _ _ _ Hc) as Hnd.
  assert (Hself : differs d blk (bufs s k) = false).
  { unfold differs, d, blk. rewrite !Z.eqb_refl. reflexivity. }
  set (Cr := drop_match s d blk C) in *.
  assert (Hfind : btable_find fuel d blk s1 = Ok Null s1).
  { rewrite (btable_find_chain fuel s1 d blk Cr Hc1).
    - rewrite (lookup_ext s s1) by assumption. unfold Cr.
      rewrite (lookup_drop_match s d blk k C Hnd Hu). reflexivity.
    - pose proof (length_drop_match s d blk C). unfold Cr. lia. }
  assert (Hl1 : lru_list s1 idx (l ++ [k])).
  { apply (lru_list_same_links s2); [apply same_but_hash_links|]; assumption. }
  assert (Hmru1 : prev (lrus s1 idx) = Buf k).
  { destruct (same_but_hash_links _ _ Hsh (Lru idx)) as [_ Hp]. cbn [node] in Hp.
    rewrite Hp. exact Hmru. }
  exists s1, Cr. repeat (split; [first [assumption | apply (drop_match_unlinks s d blk k C)]; assumption|]).
  assert (Hsplit : l ++ [k] = hd k l :: tl (l ++ [k])) by (destruct l; reflexivity).
  set (v := hd k l) in *. rewrite Hsplit in Hl1.
  assert (HCr : (List.length Cr < fuel)%nat).
  { pose proof (length_drop_match s d blk C). unfold Cr. lia. }
  assert (Hlook : lookup s1 d blk Cr = Null).
  { rewrite (lookup_ext s s1) by assumption. apply (lookup_drop_match s d blk k C Hnd Hu). }
  destruct (bget_local fuel env me' d blk s1 Cr (tl (l ++ [k])) v Hc1 HCr Hlook Hl1)
    as (s2' & Hsh' & _ & Hcore3 & Hget).
  fold idx in Hcore3, Hget.
  set (s3 := lru_remove_state s2' (after_head idx (tl (l ++ [k]))) (Lru idx)) in *.
  exists s3. split; [assumption|].
  rewrite Hget. apply lock_and_return_free.
  destruct (same_core_node _ _ (Buf v) Hcore3) as (_ & _ & _ & Hlk & _). cbn [node] in Hlk.
  rewrite Hlk, bufs_victim_set, Nat.eqb_refl. cbn [lock set_valid set_dev set_blockno set_refcnt].
  destruct (same_core_node _ _ (Buf v) Hcore) as (_ & _ & _ & Hlk1 & _). cbn [node] in Hlk1.
  rewrite Hlk1, bufs_released.
  destruct (Nat.eqb k v) eqn:E; [reflexivity|].
  apply Hfree. unfold v. destruct l as [|a l']; simpl in *.
  - rewrite Nat.eqb_refl in E. discriminate.
  - left. reflexivity.
Qed.

End ReleaseThenAcquire.

(** ** Block I/O and bread *)

Lemma bwrite_ok (me : Z) (s : state) (k : nat) :
  holdingsleep me (lock (bufs s k)) = true ->
  bwrite me (Buf k) s = Ok tt (disk_written s k).
Proof.
  intro H. unfold bwrite. mstep. rewrite H. cbn [negb].
  unfold virtio_disk_rw. mstep. reflexivity.
Qed.

Lemma bwrite_not_held (me : Z) (s : state) (k : nat) :
  holdingsleep me (lock (bufs s k)) = false ->
  bwrite me (Buf k) s = Panic "bwrite"%string.
Proof. intro H. unfold bwrite. mstep. rewrite H. reflexivity. Qed.

Lemma bread_via_after (fuel : nat) (env : nat -> state -> state)
      (me d blk : Z) (s sF : state) (v : nat) (w : via) :
  bget_via fuel env me d blk s = Ok (Buf v, w) sF ->
  bread_via fuel env me d blk s =
    if Z.eqb (valid (bufs sF v)) 0
    then Ok (Buf v, w) (upd (disk_read sF v) (Buf v) (set_valid 1))
    else Ok (Buf v, w) sF.
Proof.
  intro H. unfold bread_via. rewrite (bind_ok _ _ _ _ _ H). cbn [fst].
  mstep. destruct (Z.eqb (valid (bufs sF v)) 0).
  - unfold virtio_disk_rw. unfold bind. cbn [load node store]. reflexivity.
  - reflexivity.
Qed.

Lemma disk_written_links (s : state) (k : nat) : same_links s (disk_written s k).
Proof. intro q. destruct q; auto. Qed.

Lemma chain_disk_written (s : state) (k : nat) (p : ptr) (l : list nat) :
  chain s p l -> chain (disk_written s k) p l.
Proof. apply chain_ext. reflexivity. Qed.

(** The fields of a freshly installed victim. *)
Lemma installed_fields (d blk : Z) (s1 s3 : state) (v : nat) (lk : sleeplock) :
  same_core (victim_set d blk s1 v) s3 ->
  let sF := upd s3 (Buf v) (set_lock lk) in
  valid (bufs sF v) = 0 /\ refcnt (bufs sF v) = 1 /\
  dev (bufs sF v) = d /\ blockno (bufs sF v) = blk /\
  data (bufs sF v) = data (bufs s1 v) /\
  disk sF = disk s1 /\ nread sF = nread s1 /\ nwrite sF = nwrite s1.
Proof.
  intros H sF. unfold sF. rewrite bufs_upd_same.
  destruct (same_core_node _ _ (Buf v) H) as (Hv & Hd & Hb & _ & Hr & Hdt).
  destruct H as (_ & Hdk & Hnr & Hnw).
  cbn [node] in *. rewrite bufs_victim_set, Nat.eqb_refl in Hv, Hd, Hb, Hr, Hdt.
  cbn [valid dev blockno refcnt data set_lock set_valid set_dev set_blockno set_refcnt] in *.
  repeat split; assumption.
Qed.

(** C2: when brelse drops the last reference of a buffer, it unlinks the
    buffer's identity from the home shard's hash chain and appends the
    buffer at the most-recently-used end of that shard's LRU list; the next
    bget for that identity therefore misses the chain lookup and installs a
    victim from the shard's list (line 126), with [valid] reset to 0. *)
Theorem brelse_unlinks_and_next_bget_reinstalls
        (fuel : nat) (env : nat -> state -> state)
        (me me' : Z) (s : state) (k : nat) (l C : list nat) :
  let d := dev (bufs s k) in
  let blk := blockno (bufs s k) in
  let idx := hash blk in
  holdingsleep me (lock (bufs s k)) = true ->
  refcnt (bufs s k) = 1 ->
  lru_list s idx l -> ~ In k l ->
  chain s (elems s idx) C -> (List.length C < fuel)%nat ->
  (forall j, In j C -> j <> k -> differs d blk (bufs s j) = true) ->
  (forall j, In j l -> locked (lock (bufs s j)) = false) ->
  exists s1 Cr s2,
    brelse fuel me (Buf k) s = Ok tt s1 /\
    refcnt (bufs s1 k) = 0 /\
    chain s1 (elems s1 idx) Cr /\ ~ In k Cr /\
    btable_find fuel d blk s1 = Ok Null s1 /\
    lru_list s1 idx (l ++ [k]) /\ prev (lrus s1 idx) = Buf k /\
    bget_via fuel env me' d blk s1 = Ok (Buf (hd k l), ByLocal) s2 /\
    valid (bufs s2 (hd k l)) = 0 /\ refcnt (bufs s2 (hd k l)) = 1 /\
    dev (bufs s2 (hd k l)) = d /\ blockno (bufs s2 (hd k l)) = blk.
Proof.
  intros d blk idx Hh Hr Hl Hk Hc Hn Hu Hfree.
  destruct (release_then_reacquire fuel env me me' s k l C Hh Hr Hl Hk Hc Hn Hu Hfree)
    as (s1 & Cr & Hrel & Hcore & Hc1 & HkCr & Hfind & Hl1 & Hmru & s3 & Hcore3 & Hget).
  fold d blk idx in Hc1, Hfind, Hl1, Hmru, Hcore3, Hget.
  exists s1, Cr, (upd s3 (Buf (hd k l)) (set_lock (mksleeplock true me'))).
  destruct (installed_fields d blk s1 s3 (hd k l) (mksleeplock true me') Hcore3)
    as (Hv & Hrc & Hd & Hb & _).
  destruct (same_core_node _ _ (Buf k) Hcore) as (_ & _ & _ & _ & Hr1 & _).
  cbn [node] in Hr1. rewrite bufs_released, Nat.eqb_refl in Hr1.
  cbn [refcnt set_refcnt] in Hr1. rewrite Hr in Hr1.
  repeat (split; [assumption|]). assumption.
Qed.

(** A buffer written and released by its only holder loses its
    hash-chain entry; re-reading the same identity
    installs a victim and costs exactly one more device read, which brings
    back the written content. *)
Lemma write_release_reread_last_holder
      (fuel : nat) (env : nat -> state -> state)
      (me me' : Z) (s : state) (k : nat) (l C : list nat) :
  let d := dev (bufs s k) in
  let blk := blockno (bufs s k) in
  let idx := hash blk in
  holdingsleep me (lock (bufs s k)) = true ->
  refcnt (bufs s k) = 1 ->
  lru_list s idx l -> ~ In k l ->
  chain s (elems s idx) C -> (List.length C < fuel)%nat ->
  (forall j, In j C -> j <> k -> differs d blk (bufs s j) = true) ->
  (forall j, In j l -> locked (lock (bufs s j)) = false) ->
  exists s1 s2 s3,
    bwrite me (Buf k) s = Ok tt s1 /\
    brelse fuel me (Buf k) s1 = Ok tt s2 /\
    bread_via fuel env me' d blk s2 = Ok (Buf (hd k l), ByLocal) s3 /\
    data (bufs s3 (hd k l)) = data (bufs s k) /\
    valid (bufs s3 (hd k l)) = 1 /\
    nread s3 = S (nread s).
Proof.
  intros d blk idx Hh Hr Hl Hk Hc Hn Hu Hfree.
  set (sw := disk_written s k).
  assert (Hlw : lru_list sw idx l)
    by (apply (lru_list_same_links s); [apply disk_written_links | assumption]).
  assert (Hcw : chain sw (elems sw idx) C) by (apply chain_disk_written; assumption).
  destruct (release_then_reacquire fuel env me me' sw k l C Hh Hr Hlw Hk Hcw Hn Hu Hfree)
    as (s2 & Cr & Hrel & Hcore & _ & _ & _ & _ & _ & s3 & Hcore3 & Hget).
  cbn [sw disk_written bufs] in Hrel, Hcore3, Hget. fold d blk idx in Hcore3, Hget.
  set (v := hd k l) in *.
  set (sF := upd s3 (Buf v) (set_lock (mksleeplock true me'))) in *.
  destruct (installed_fields d blk s2 s3 v (mksleeplock true me') Hcore3)
    as (Hv & _ & Hd & Hb & _ & Hdk & Hnr & _).
  fold sF in Hv, Hd, Hb, Hdk, Hnr.
  destruct Hcore as (_ & Hdk2 & Hnr2 & _).
  exists sw, s2, (upd (disk_read sF v) (Buf v) (set_valid 1)).
  split; [apply bwrite_ok; assumption|]. split; [exact Hrel|].
  split; [rewrite (bread_via_after fuel env me' d blk s2 sF v ByLocal Hget), Hv; reflexivity|].
  rewrite bufs_upd_same. unfold disk_read at 1 2. rewrite bufs_upd_same.
  cbn [data valid set_valid set_data]. rewrite Hd, Hb, Hdk, Hdk2.
  split; [|split; [reflexivity|]].
  - cbn [released upd disk sw disk_written]. fold d blk. rewrite !Z.eqb_refl. reflexivity.
  - cbn [disk_read upd nread]. rewrite Hnr, Hnr2. reflexivity.
Qed.

(** When somebody else still references the buffer (it is pinned, say),
    brelse leaves it in its chain;
    re-reading finds it there and issues no device read. *)
Lemma write_release_reread_still_referenced
      (fuel : nat) (env : nat -> state -> state)
      (me me' : Z) (s : state) (k : nat) (C : list nat) :
  let d := dev (bufs s k) in
  let blk := blockno (bufs s k) in
  let idx := hash blk in
  holdingsleep me (lock (bufs s k)) = true ->
  1 < refcnt (bufs s k) < 2 ^ 32 ->
  valid (bufs s k) = 1 ->
  chain s (elems s idx) C -> (List.length C < fuel)%nat ->
  lookup s d blk C = Buf k ->
  exists s1 s2 s3,
    bwrite me (Buf k) s = Ok tt s1 /\
    brelse fuel me (Buf k) s1 = Ok tt s2 /\
    bread_via fuel env me' d blk s2 = Ok (Buf k, ByHit) s3 /\
    data (bufs s3 k) = data (bufs s k) /\
    nread s3 = nread s.
Proof.
  intros d blk idx Hh Hr Hv Hc Hn Hlk.
  set (sw := disk_written s k).
  assert (Hw : wrap32 (refcnt (bufs sw k) - 1) <> 0).
  { cbn [sw disk_written bufs]. unfold wrap32. rewrite Z.mod_small by lia. lia. }
  pose proof (brelse_keep fuel me sw k Hh Hw) as Hrel.
  set (s2 := released sw k) in *.
  assert (Hc2 : chain s2 (elems s2 (hash blk)) C).
  { apply (chain_ext s); [|exact Hc]. intros j _. unfold s2.
    rewrite bufs_released. destruct (Nat.eqb k j) eqn:E; [|reflexivity].
    apply Nat.eqb_eq in E. subst. reflexivity. }
  assert (Hlk2 : lookup s2 d blk C = Buf k).
  { rewrite <- Hlk. apply lookup_ext. intro j. unfold s2. apply (differs_released sw). }
  pose proof (bget_hit fuel env me' d blk s2 C k Hc2 Hn Hlk2) as Hget.
  rewrite lock_and_return_free in Hget.
  2:{ unfold bumped. rewrite bufs_upd_same. unfold s2. rewrite bufs_released, Nat.eqb_refl.
      reflexivity. }
  exists sw, s2. eexists.
  split; [apply bwrite_ok; assumption|]. split; [exact Hrel|].
  rewrite (bread_via_after fuel env me' d blk s2 _ k ByHit Hget).
  rewrite bufs_upd_same. unfold bumped. rewrite bufs_upd_same. unfold s2.
  rewrite bufs_released, Nat.eqb_refl.
  cbn [valid set_lock set_refcnt sw disk_written bufs]. rewrite Hv. cbn [Z.eqb].
  split; [reflexivity|]. rewrite !bufs_upd_same, bufs_released, Nat.eqb_refl.
  split; reflexivity.
Qed.

(** C1 (as amended): let the caller hold buffer [k], whose home chain
    (the chain of the shard of its block number) is finite.  Writing the
    buffer, releasing it and re-reading its identity then returns the
    written content in two cases.  (1) The caller's reference is the last
    one (count 1), the buffer is not on the shard's LRU list, no other
    buffer of the home chain carries the identity and the buffers on that
    list are unlocked: the release takes the buffer out of the chain, the
    re-read installs the head of the shard's LRU list and performs exactly
    one more device read.  (2) The buffer stays referenced (count above
    1), is valid and is the buffer the home chain's lookup finds for the
    identity: the re-read returns the same buffer and performs no device
    read. *)
Theorem write_release_reread
        (fuel : nat) (env : nat -> state -> state)
        (me me' : Z) (s : state) (k : nat) (l C : list nat) :
  let d := dev (bufs s k) in
  let blk := blockno (bufs s k) in
  let idx := hash blk in
  holdingsleep me (lock (bufs s k)) = true ->
  chain s (elems s idx) C -> (List.length C < fuel)%nat ->
  (refcnt (bufs s k) = 1 ->
   lru_list s idx l -> ~ In k l ->
   (forall j, In j C -> j <> k -> differs d blk (bufs s j) = true) ->
   (forall j, In j l -> locked (lock (bufs s j)) = false) ->
   exists s1 s2 s3,
     bwrite me (Buf k) s = Ok tt s1 /\
     brelse fuel me (Buf k) s1 = Ok tt s2 /\
     bread_via fuel env me' d blk s2 = Ok (Buf (hd k l), ByLocal) s3 /\
     data (bufs s3 (hd k l)) = data (bufs s k) /\
     nread s3 = S (nread s)) /\
  (1 < refcnt (bufs s k) < 2 ^ 32 ->
   valid (bufs s k) = 1 -> lookup s d blk C = Buf k ->
   exists s1 s2 s3,
     bwrite me (Buf k) s = Ok tt s1 /\
     brelse fuel me (Buf k) s1 = Ok tt s2 /\
     bread_via fuel env me' d blk s2 = Ok (Buf k, ByHit) s3 /\
     data (bufs s3 k) = data (bufs s k) /\
     nread s3 = nread s).
Proof.
  intros d blk idx Hh Hc Hn. split.
  - intros Hr Hl Hk Hu Hfree.
    destruct (write_release_reread_last_holder fuel env me me' s k l C
                Hh Hr Hl Hk Hc Hn Hu Hfree)
      as (s1 & s2 & s3 & H1 & H2 & H3 & H4 & _ & H5).
    exists s1, s2, s3. auto.
  - intros Hr Hv Hlk.
    apply (write_release_reread_still_referenced fuel env me me' s k C); assumption.
Qed.

(** ** Operations and the two-state invariant *)

Lemma two_state_lock_and_return {A : Type} (NBUF : nat) (me : Z) (s : state)
      (L : nat -> list nat) (k : nat) (a : A) :
  two_state NBUF s L -> invariant_kept NBUF (lock_and_return me s k a).
Proof.
  intros [Hl Hr]. unfold lock_and_return.
  destruct (locked (lock (bufs s k))); simpl; exists L; [split; assumption|].
  split.
  - apply (lists_ok_same_links NBUF s); [apply same_links_upd; auto | assumption].
  - apply (refs_ok_same_refs NBUF s); [apply same_refs_upd; auto | assumption].
Qed.

Lemma two_state_bumped (NBUF : nat) (s : state) (L : nat -> list nat) (k : nat) :
  two_state NBUF s L -> (k < NBUF)%nat -> 0 < refcnt (bufs s k) < 2 ^ 32 - 1 ->
  two_state NBUF (bumped s k) L.
Proof.
  intros [Hl Hr] Hk Hpos. split.
  - apply (lists_ok_same_links NBUF s); [apply same_links_upd; auto | assumption].
  - apply (refs_ok_bump NBUF s (bumped s k) L k); auto; try lia.
    + unfold bumped. rewrite bufs_upd_same. cbn [refcnt set_refcnt]. unfold wrap32.
      rewrite Z.mod_small by lia. lia.
    + intros m Hm. unfold bumped. rewrite bufs_upd_other by assumption. reflexivity.
Qed.

(** The state in which a victim [v], first on shard [i]'s list, has been
    unlinked and given its new identity satisfies the invariant. *)
Lemma two_state_installed (NBUF : nat) (d blk : Z) (s sm s' : state)
      (L : nat -> list nat) (i v : nat) (l : list nat) :
  two_state NBUF s L -> (i < NSHARD)%nat -> L i = v :: l ->
  same_links s sm ->
  same_links (lru_remove_state sm (after_head i l) (Lru i)) s' ->
  same_core (victim_set d blk s v) s' ->
  two_state NBUF s' (setL L i l).
Proof.
  intros [Hl Hr] Hi Hv Hsm Hs' Hcore. split.
  - apply (lists_ok_same_links NBUF _ s' _ Hs').
    apply (lists_ok_take NBUF sm L i v l); auto.
    apply (lists_ok_same_links NBUF s); assumption.
  - apply (refs_ok_take NBUF s s' L i v l); auto.
    + destruct (same_core_node _ _ (Buf v) Hcore) as (_ & _ & _ & _ & R & _).
      cbn [node] in R. rewrite R, bufs_victim_set, Nat.eqb_refl.
      cbn [refcnt set_valid set_dev set_blockno set_refcnt]. lia.
    + intros k Hk. destruct (same_core_node _ _ (Buf k) Hcore) as (_ & _ & _ & _ & R & _).
      cbn [node] in R. rewrite R, bufs_victim_set.
      apply Nat.eqb_neq in Hk. rewrite Nat.eqb_sym, Hk. reflexivity.
Qed.

Section InvariantFacts.

Variable NBUF : nat.
Variable fuel : nat.
Variable env : nat -> state -> state.

Lemma ready_lookup (d blk : Z) (s : state) :
  chains_wf fuel s ->
  exists C, chain s (elems s (hash blk)) C /\ (List.length C < fuel)%nat /\
            (lookup s d blk C = Null \/ exists k, lookup s d blk C = Buf k).
Proof.
  intro Hw. destruct (Hw (hash blk) (hash_lt blk)) as (C & Hc & Hn).
  exists C. split; [assumption|]. split; [assumption|].
  destruct (lookup_cases s d blk C) as [E|(k & E & _)]; [left | right; exists k]; assumption.
Qed.

Lemma steal_iter_kept (me d blk : Z) (i : nat) (s : state) :
  bget_ready NBUF fuel d blk s -> (i < NSHARD)%nat ->
  steal_iter fuel me d blk i s = Ok None s \/
  (match steal_iter fuel me d blk i s with Ok None _ => False | _ => True end /\
   invariant_kept NBUF (steal_iter fuel me d blk i s)).
Proof.
  intros ([L Hts] & Hw & Hh) Hi.
  destruct (ready_lookup d blk s Hw) as (C & Hc & Hn & [Hl|[k Hl]]).
  - pose proof (proj1 (proj1 Hts) i Hi) as Hli.
    destruct (L i) as [|v l] eqn:E.
    + left. apply (steal_iter_empty fuel me d blk i s C); auto.
      destruct Hli as [_ [Hnx _]]. exact Hnx.
    + right.
      destruct (Hw (hash (blockno (bufs s v))) (hash_lt _)) as (C' & Hc' & Hn').
      destruct (steal_iter_steal fuel me d blk i s C C' l v Hc Hn Hl Hli Hc' Hn')
        as (_ & s2 & Hsh & Hcore & Hres).
      rewrite Hres.
      assert (Hts' : two_state NBUF (victim_set d blk s2 v) (setL L i l)).
      { apply (two_state_installed NBUF d blk s s _ L i v l); auto.
        - apply same_links_refl.
        - eapply same_links_trans; [apply same_but_hash_links; eassumption|].
          apply victim_set_links. }
      split.
      * unfold lock_and_return. destruct (locked _); exact I.
      * apply (two_state_lock_and_return NBUF me _ (setL L i l)). assumption.
  - right. rewrite (steal_iter_hit fuel me d blk i s C k Hc Hn Hl).
    destruct (Hh C k Hc Hl) as [Hk Hpos].
    split.
    + unfold lock_and_return. destruct (locked _); exact I.
    + apply (two_state_lock_and_return NBUF me _ L). apply two_state_bumped; assumption.
Qed.

Hypothesis env_ready :
  forall d blk i s, bget_ready NBUF fuel d blk s -> bget_ready NBUF fuel d blk (env i s).

Lemma steal_loop_kept (me d blk : Z) (idx : nat) :
  forall n i s, (i + n = NSHARD)%nat -> bget_ready NBUF fuel d blk s ->
    invariant_kept NBUF (steal_loop fuel env me d blk idx n i s).
Proof.
  induction n as [|n IH]; intros i s Hin Hs; simpl; [reflexivity|].
  destruct (Nat.eqb i idx); [apply IH; [lia | assumption]|].
  assert (Hstep : forall s', bget_ready NBUF fuel d blk s' ->
            invariant_kept NBUF
              ((r <- steal_iter fuel me d blk i ;;
                match r with
                | Some x => ret x
                | None => steal_loop fuel env me d blk idx n (S i)
                end) s')).
  { intros s' Hs'.
    destruct (steal_iter_kept me d blk i s' Hs' ltac:(lia)) as [Hnone|[Hsome Hk]].
    - rewrite (bind_ok _ _ _ _ _ Hnone). apply IH; [lia | assumption].
    - unfold bind. destruct (steal_iter fuel me d blk i s') as [[x|] s1|m| |s1|];
        try exact Hk; try tauto. }
  destruct (Nat.ltb i idx).
  - rewrite bind_ok with (a := tt) (s1 := s) by reflexivity. apply Hstep. assumption.
  - rewrite bind_ok with (a := tt) (s1 := env i s) by reflexivity.
    apply Hstep. apply env_ready. assumption.
Qed.

(** bget keeps the invariant. *)
Lemma bget_via_kept (me d blk : Z) (s : state) :
  bget_ready NBUF fuel d blk s ->
  invariant_kept NBUF (bget_via fuel env me d blk s).
Proof.
  intros Hs. pose proof Hs as ([L Hts] & Hw & Hh).
  destruct (ready_lookup d blk s Hw) as (C & Hc & Hn & [Hl|[k Hl]]).
  - pose proof (proj1 (proj1 Hts) (hash blk) (hash_lt blk)) as Hli.
    destruct (L (hash blk)) as [|v l] eqn:E.
    + rewrite (bget_no_local fuel env me d blk s C Hc Hn Hl).
      * apply steal_loop_kept; [reflexivity | assumption].
      * destruct Hli as [_ [Hnx _]]. exact Hnx.
    + destruct (bget_local fuel env me d blk s C l v Hc Hn Hl Hli)
        as (s2 & Hsh & _ & Hcore & Hres).
      rewrite Hres.
      apply (two_state_lock_and_return NBUF me _ (setL L (hash blk) l)).
      apply (two_state_installed NBUF d blk s s2 _ L (hash blk) v l); auto.
      * apply hash_lt.
      * eapply same_links_trans; [apply victim_set_links|].
        apply same_but_hash_links. eassumption.
      * apply same_links_refl.
  - rewrite (bget_hit fuel env me d blk s C k Hc Hn Hl).
    destruct (Hh C k Hc Hl) as [Hk Hpos].
    apply (two_state_lock_and_return NBUF me _ L). apply two_state_bumped; assumption.
Qed.

End InvariantFacts.

Section ReleaseInvariant.

Variable NBUF : nat.
Variable fuel : nat.

Lemma released_links (s : state) (k : nat) : same_links s (released s k).
Proof. unfold released. eapply same_links_trans; apply same_links_upd; auto. Qed.

Lemma brelse_kept (me : Z) (s : state) (L : nat -> list nat) (k : nat) (C : list nat) :
  two_state NBUF s L -> (k < NBUF)%nat ->
  holdingsleep me (lock (bufs s k)) = true ->
  0 < refcnt (bufs s k) ->
  chain s (elems s (hash (blockno (bufs s k)))) C -> (List.length C < fuel)%nat ->
  exists s' L', brelse fuel me (Buf k) s = Ok tt s' /\ two_state NBUF s' L'.
Proof.
  intros Hts Hk Hh Hpos Hc Hn. pose proof Hts as [Hl Hr].
  destruct (Hr k Hk) as [Hrange _].
  assert (Hwrap : wrap32 (refcnt (bufs s k) - 1) = refcnt (bufs s k) - 1).
  { unfold wrap32. apply Z.mod_small. lia. }
  destruct (Z.eq_dec (refcnt (bufs s k)) 1) as [Hone|Hmore].
  - set (idx := hash (blockno (bufs s k))) in *.
    assert (Hi : (idx < NSHARD)%nat) by apply hash_lt.
    assert (Hoff : forall j, (j < NSHARD)%nat -> ~ In k (L j))
      by (apply (two_state_referenced NBUF s L k); assumption).
    assert (Hw0 : wrap32 (refcnt (bufs s k) - 1) = 0) by (rewrite Hwrap; lia).
    destruct (brelse_zero fuel me s k (L idx) C Hh Hw0 (proj1 Hl idx Hi) (Hoff idx Hi) Hc Hn)
      as (s' & Hrel & Hsh & _).
    fold idx in Hsh.
    exists s', (setL L idx (L idx ++ [k])). split; [assumption|]. split.
    + apply (lists_ok_same_links NBUF _ s' _ (same_but_hash_links _ _ Hsh)).
      apply (lists_ok_give NBUF (released s k) L idx k); auto.
      apply (lists_ok_same_links NBUF s); [apply released_links | assumption].
    + assert (Hrefs : forall m, refcnt (bufs s' m) = refcnt (bufs (released s k) m)).
      { intro m. rewrite (same_but_hash_refs _ _ Hsh m).
        apply (same_but_links_refs (released s k)).
        apply lru_add_same_but_links.
        destruct (lru_list_tail _ _ _ (proj1 Hl idx Hi)); assumption. }
      apply (refs_ok_give NBUF s s' L idx k); auto.
      * rewrite Hrefs, bufs_released, Nat.eqb_refl. cbn [refcnt set_refcnt]. assumption.
      * intros m Hm. rewrite Hrefs, bufs_released.
        apply Nat.eqb_neq in Hm. rewrite Nat.eqb_sym, Hm. reflexivity.
  - assert (Hw : wrap32 (refcnt (bufs s k) - 1) <> 0) by (rewrite Hwrap; lia).
    exists (released s k), L. split; [apply brelse_keep; assumption|]. split.
    + apply (lists_ok_same_links NBUF s); [apply released_links | assumption].
    + apply (refs_ok_bump NBUF s (released s k) L k); auto.
      * rewrite bufs_released, Nat.eqb_refl. cbn [refcnt set_refcnt]. rewrite Hwrap. lia.
      * intros m Hm. rewrite bufs_released.
        apply Nat.eqb_neq in Hm. rewrite Nat.eqb_sym, Hm. reflexivity.
Qed.

Lemma bpin_kept (s : state) (L : nat -> list nat) (k : nat) :
  two_state NBUF s L -> (k < NBUF)%nat -> 0 < refcnt (bufs s k) < 2 ^ 32 - 1 ->
  exists s', bpin (Buf k) s = Ok tt s' /\ two_state NBUF s' L.
Proof.
  intros Hts Hk Hpos. exists (bumped s k). split; [reflexivity|].
  apply two_state_bumped; assumption.
Qed.

Lemma bunpin_kept (s : state) (L : nat -> list nat) (k : nat) :
  two_state NBUF s L -> (k < NBUF)%nat -> 1 < refcnt (bufs s k) ->
  exists s', bunpin (Buf k) s = Ok tt s' /\ two_state NBUF s' L.
Proof.
  intros [Hl Hr] Hk Hpos. eexists. split; [reflexivity|].
  destruct (Hr k Hk) as [Hrange _]. split.
  - apply (lists_ok_same_links NBUF s); [apply same_links_upd; auto | assumption].
  - apply (refs_ok_bump NBUF s _ L k); auto; try lia.
    + rewrite bufs_upd_same. cbn [refcnt set_refcnt node]. unfold wrap32.
      rewrite Z.mod_small by lia. lia.
    + intros m Hm. rewrite bufs_upd_other by assumption. reflexivity.
Qed.

End ReleaseInvariant.

(** C4 (as amended): bget and brelse preserve the two-state invariant
    (a referenced buffer is on no shard's LRU list, an unreferenced one on
    exactly one), in states whose hash chains are finite and whose lookups
    find referenced buffers only.  bpin and bunpin are bare increments and
    decrements: they preserve it when the buffer is referenced before and
    after the call, that is when the count is positive before bpin and above
    one before bunpin. *)
Theorem operations_keep_two_state
        (NBUF fuel : nat) (env : nat -> state -> state) :
  (forall d blk i s, bget_ready NBUF fuel d blk s ->
                     bget_ready NBUF fuel d blk (env i s)) ->
  (forall me d blk s,
      bget_ready NBUF fuel d blk s ->
      invariant_kept NBUF (bget fuel env me d blk s)) /\
  (forall me s L k C,
      two_state NBUF s L -> (k < NBUF)%nat ->
      holdingsleep me (lock (bufs s k)) = true ->
      0 < refcnt (bufs s k) ->
      chain s (elems s (hash (blockno (bufs s k)))) C -> (List.length C < fuel)%nat ->
      exists s' L', brelse fuel me (Buf k) s = Ok tt s' /\ two_state NBUF s' L') /\
  (forall s L k,
      two_state NBUF s L -> (k < NBUF)%nat -> 0 < refcnt (bufs s k) < 2 ^ 32 - 1 ->
      exists s', bpin (Buf k) s = Ok tt s' /\ two_state NBUF s' L) /\
  (forall s L k,
      two_state NBUF s L -> (k < NBUF)%nat -> 1 < refcnt (bufs s k) ->
      exists s', bunpin (Buf k) s = Ok tt s' /\ two_state NBUF s' L).
Proof.
  intro Henv. split; [|split; [|split]].
  - intros me d blk s Hs.
    pose proof (bget_via_kept NBUF fuel env Henv me d blk s Hs) as H.
    unfold bget, bind. destruct (bget_via fuel env me d blk s); exact H.
  - intros me s L k C. apply brelse_kept.
  - intros s L k. apply bpin_kept.
  - intros s L k. apply bunpin_kept.
Qed.

(** C6 (as amended): reference counts are unsigned 32-bit values and stay
    in [0, 2^32) under bget, brelse, bpin and bunpin, so they never become
    negative.  brelse rejects a caller that does not hold the buffer's
    content lock with panic("brelse").  bunpin has no check at all: it
    decrements whatever count it finds, modulo 2^32. *)
Theorem refcnt_discipline (fuel : nat) (env : nat -> state -> state) :
  (forall i s, refs_in_range s -> refs_in_range (env i s)) ->
  (forall me d blk, keeps refs_in_range (bget fuel env me d blk)) /\
  (forall me b, keeps refs_in_range (brelse fuel me b)) /\
  (forall b, keeps refs_in_range (bpin b)) /\
  (forall b, keeps refs_in_range (bunpin b)) /\
  (forall me s k,
      holdingsleep me (lock (bufs s k)) = false ->
      brelse fuel me (Buf k) s = Panic "brelse"%string) /\
  (forall s k,
      bunpin (Buf k) s =
        Ok tt (upd s (Buf k) (set_refcnt (wrap32 (refcnt (bufs s k) - 1))))).
Proof.
  intro Henv. repeat split.
  - intros me d blk. apply keeps_range_bget. assumption.
  - intros me b. apply keeps_range_brelse.
  - intro b. apply keeps_range_incr.
  - intro b. apply keeps_range_decr.
  - intros me s k. apply brelse_not_held.
Qed.

(** ** A pool of sixteen buffers *)

Lemma returned_ok {A : Type} (r : res A) (a : A) (dflt : state) :
  returned r = Some a -> r = Ok a (final_state r dflt).
Proof. destruct r; simpl; intro H; inversion H; reflexivity. Qed.

Lemma binit_16 : binit 16 (boot blank) = Ok tt (pool 16).
Proof. apply returned_ok. vm_compute. reflexivity. Qed.

Lemma in_round_robin (NBUF i k : nat) :
  In k (round_robin NBUF i) <-> (k < NBUF)%nat /\ Nat.modulo k NSHARD = i.
Proof.
  unfold round_robin. rewrite filter_In, in_seq, Nat.eqb_eq. intuition lia.
Qed.

Lemma forall_below (n : nat) (P : nat -> Prop) :
  Forall P (seq 0 n) -> forall i, (i < n)%nat -> P i.
Proof.
  intros H i Hi. rewrite Forall_forall in H. apply H. apply in_seq. lia.
Qed.

(** Case analysis on an index below a concrete bound. *)
Ltac below n :=
  match goal with
  | |- forall i, (i < _)%nat -> @?P i => refine (forall_below n P _)
  end;
  cbv [seq];
  repeat (first [simple apply Forall_nil | simple apply Forall_cons]);
  cbv beta.

(** ** Deciding the invariant on concrete states *)

Lemma memb_In (k : nat) (l : list nat) : memb k l = true <-> In k l.
Proof.
  unfold memb. rewrite existsb_exists. split.
  - intros (x & Hx & E). apply Nat.eqb_eq in E. subst. assumption.
  - intro H. exists k. split; [assumption | apply Nat.eqb_refl].
Qed.

Lemma nodupb_sound (l : list nat) : nodupb l = true -> NoDup l.
Proof.
  induction l as [|k l IH]; simpl; intro H; [constructor|].
  apply andb_prop in H. destruct H as [H1 H2]. constructor; [|auto].
  intro Hin. apply memb_In in Hin. rewrite Hin in H1. discriminate.
Qed.

Lemma pathb_sound (s : state) (l : list nat) (q : ptr) :
  forall p, pathb s p l q = true -> path s p l q.
Proof.
  induction l as [|k l IH]; intros p H; cbn [pathb path] in *.
  - apply andb_prop in H. destruct H as [H1 H2].
    apply ptr_eqb_eq in H1, H2. auto.
  - apply andb_prop in H. destruct H as [H12 H3].
    apply andb_prop in H12. destruct H12 as [H1 H2].
    apply ptr_eqb_eq in H1, H2. auto.
Qed.

Lemma lru_listb_sound (s : state) (i : nat) (l : list nat) :
  lru_listb s i l = true -> lru_list s i l.
Proof.
  unfold lru_listb. intro H. apply andb_prop in H. destruct H as [H1 H2].
  split; [apply nodupb_sound | apply pathb_sound]; assumption.
Qed.

Lemma chainb_sound (s : state) (l : list nat) :
  forall p, chainb s p l = true -> chain s p l.
Proof.
  induction l as [|k l IH]; intros p H; cbn [chainb chain] in *.
  - destruct p; simpl in H; congruence.
  - apply andb_prop in H. destruct H as [H1 H2]. apply ptr_eqb_eq in H1. auto.
Qed.

Lemma forallb_below (f : nat -> bool) (n i : nat) :
  forallb f (seq 0 n) = true -> (i < n)%nat -> f i = true.
Proof.
  intros H Hi. rewrite forallb_forall in H. apply H. apply in_seq. lia.
Qed.

Lemma listsb_sound (NBUF : nat) (s : state) (L : nat -> list nat) :
  listsb NBUF s L = true -> lists_ok NBUF s L.
Proof.
  intro H. unfold listsb in H.
  assert (Hi : forall i, (i < NSHARD)%nat ->
     lru_listb s i (L i) = true /\
     forallb (fun k => Nat.ltb k NBUF) (L i) = true /\
     forallb (fun j => Nat.eqb i j || forallb (fun k => negb (memb k (L j))) (L i))
             (seq 0 NSHARD) = true).
  { intros i Hi. pose proof (forallb_below _ _ i H Hi) as Hb. cbv beta in Hb.
    apply andb_prop in Hb. destruct Hb as [Hb H3].
    apply andb_prop in Hb. destruct Hb as [H1 H2]. auto. }
  split; [|split].
  - intros i Hlt. apply lru_listb_sound. apply (Hi i Hlt).
  - intros i k Hlt Hk. destruct (Hi i Hlt) as (_ & H2 & _).
    rewrite forallb_forall in H2. apply Nat.ltb_lt. apply H2. assumption.
  - intros i j k Hlt Hlt' Hk Hk'. destruct (Hi i Hlt) as (_ & _ & H3).
    pose proof (forallb_below _ _ j H3 Hlt') as Hj. cbv beta in Hj.
    apply orb_prop in Hj. destruct Hj as [Hj|Hj]; [apply Nat.eqb_eq; assumption|].
    rewrite forallb_forall in Hj. specialize (Hj k Hk).
    apply memb_In in Hk'. rewrite Hk' in Hj. discriminate.
Qed.

Lemma refsb_sound (NBUF : nat) (s : state) (L : nat -> list nat) :
  refsb NBUF s L = true -> refs_ok NBUF s L.
Proof.
  intros H k Hk. pose proof (forallb_below _ _ k H Hk) as Hb. cbv beta zeta in Hb.
  apply andb_prop in Hb. destruct Hb as [Hb H3].
  apply andb_prop in Hb. destruct Hb as [H1 H2].
  apply Z.leb_le in H1. apply Z.ltb_lt in H2. split; [lia|].
  apply Bool.eqb_prop in H3. rewrite <- Z.eqb_eq, H3, existsb_exists.
  split; intros (i & Hi & Hm); exists i.
  - apply in_seq in Hi. apply memb_In in Hm. split; [lia | assumption].
  - split; [apply in_seq; lia | apply memb_In; assumption].
Qed.

Lemma two_stateb_sound (NBUF : nat) (s : state) (L : nat -> list nat) :
  two_stateb NBUF s L = true -> two_state NBUF s L.
Proof.
  unfold two_stateb. intro H. apply andb_prop in H. destruct H as [H1 H2].
  split; [apply listsb_sound | apply refsb_sound]; assumption.
Qed.

Lemma pool_16_two_state : two_state 16 (pool 16) (round_robin 16).
Proof. apply two_stateb_sound. vm_compute. reflexivity. Qed.

Lemma pool_16_chains (fuel : nat) : (0 < fuel)%nat -> chains_wf fuel (pool 16).
Proof.
  intros Hf c Hc. exists []. split; [|simpl; lia].
  revert c Hc. below 13%nat; vm_compute; reflexivity.
Qed.

Lemma chain_null (s : state) (C : list nat) : chain s Null C -> C = [].
Proof. destruct C; simpl; [reflexivity | intros [H _]; discriminate]. Qed.

Lemma pool_16_ready (fuel : nat) (d blk : Z) :
  (0 < fuel)%nat -> bget_ready 16 fuel d blk (pool 16).
Proof.
  intro Hf. split; [exists (round_robin 16); apply pool_16_two_state|].
  split; [apply pool_16_chains; assumption|].
  intros C k Hc Hl. exfalso.
  assert (He : elems (pool 16) (hash blk) = Null).
  { pose proof (hash_lt blk) as Hh. revert Hh. generalize (hash blk).
    below 13%nat; vm_compute; reflexivity. }
  rewrite He in Hc. apply chain_null in Hc. subst C.
  cbn [lookup] in Hl. discriminate Hl.
Qed.


(** ** Victims are unreferenced *)


Lemma same_table_sym (s s' : state) : same_table s s' -> same_table s' s.
Proof.
  intros [He Hb]. split; [intro i; symmetry; apply He|].
  intro k. destruct (Hb k) as (H1 & H2 & H3). repeat split; symmetry; assumption.
Qed.

Lemma chain_short (NBUF : nat) (s : state) (p : ptr) (C : list nat) :
  chain s p C -> (forall k, In k C -> (k < NBUF)%nat) -> (List.length C <= NBUF)%nat.
Proof.
  intros Hc Hb. pose proof (chain_NoDup s C p Hc) as Hnd.
  assert (H : (List.length C <= List.length (seq 0 NBUF))%nat).
  { apply NoDup_incl_length; [assumption|].
    intros k Hk. apply in_seq. specialize (Hb k Hk). lia. }
  rewrite length_seq in H. exact H.
Qed.

(** A change that touches neither the links nor the identities, and the
    count of no buffer that is on a list, keeps the invariant. *)
Lemma cache_inv_frame (NBUF : nat) (s s' : state) (L : nat -> list nat) :
  same_links s s' -> same_table s s' ->
  (forall k, refcnt (bufs s' k) = refcnt (bufs s k) \/
             forall i, (i < NSHARD)%nat -> ~ In k (L i)) ->
  cache_inv NBUF s L -> cache_inv NBUF s' L.
Proof.
  intros Hlk Htab Href (Hl & Hz & Hch & Hm & Hu).
  pose proof (same_table_sym _ _ Htab) as Hback.
  assert (Hid : forall k, dev (bufs s' k) = dev (bufs s k) /\
                          blockno (bufs s' k) = blockno (bufs s k)).
  { intro k. destruct Htab as [_ Hb]. destruct (Hb k) as (_ & H1 & H2). auto. }
  assert (He : forall c, elems s' c = elems s c) by (destruct Htab; assumption).
  split; [apply (lists_ok_same_links NBUF s); assumption|].
  split; [|split; [|split]].
  - intros i k Hi Hk. destruct (Href k) as [E|Hoff]; [rewrite E; eauto|].
    exfalso. apply (Hoff i Hi Hk).
  - intros c Hc. destruct (Hch c Hc) as (C & HC & Hb). exists C. split; [|assumption].
    rewrite He. apply (chain_same_table s); assumption.
  - intros c C k Hc HC Hk Hh. rewrite He in HC.
    apply (chain_same_table s' s) in HC; [|assumption].
    destruct (Hid k) as [_ Hb]. rewrite Hb in Hh. eauto.
  - intros c C j k Hc HC Hj Hk Hh Hd Hb. rewrite He in HC.
    apply (chain_same_table s' s) in HC; [|assumption].
    destruct (Hid j) as [Hdj Hbj]. destruct (Hid k) as [Hdk Hbk].
    rewrite Hbj in Hh. rewrite Hdj, Hdk in Hd. rewrite Hbj, Hbk in Hb. eauto.
Qed.

(** Assignments to a buffer that keep its links and its identity. *)
Lemma cache_inv_upd (NBUF : nat) (s : state) (L : nat -> list nat) (k : nat)
      (f : buf -> buf) :
  (forall x, next (f x) = next x /\ prev (f x) = prev x) ->
  (forall x, next_hash (f x) = next_hash x /\ dev (f x) = dev x /\
             blockno (f x) = blockno x) ->
  ((forall x, refcnt (f x) = refcnt x) \/ forall i, (i < NSHARD)%nat -> ~ In k (L i)) ->
  cache_inv NBUF s L -> cache_inv NBUF (upd s (Buf k) f) L.
Proof.
  intros Hlk Hid Href. apply cache_inv_frame.
  - apply same_links_upd; [discriminate | assumption].
  - apply same_table_upd; [discriminate | assumption].
  - intro j. destruct (Nat.eq_dec j k) as [->|Hne].
    + destruct Href as [Hr|Hoff]; [left | right; assumption].
      rewrite bufs_upd_same. apply Hr.
    + left. rewrite bufs_upd_other by assumption. reflexivity.
Qed.

(** *** The chains after btable_insert and btable_remove *)

Lemma relinked_chain (v : nat) (s s' : state) :
  relinked v s s' ->
  forall C h, chain s h C -> exists C', chain s' h C' /\ incl C' (v :: C).
Proof.
  intros (Hv & Hk & _). induction C as [|k C IH]; intros h Hc.
  - exists []. split; [exact Hc | intros x []].
  - destruct Hc as [-> Hc]. destruct (Nat.eq_dec k v) as [->|Hne].
    + exists [v]. split; [split; [reflexivity | rewrite Hv; reflexivity]|].
      intros x [<-|[]]. left. reflexivity.
    + destruct (Hk k Hne) as [E|E].
      * destruct (IH _ Hc) as (C' & Hc' & Hin). exists (k :: C'). split.
        -- split; [reflexivity | rewrite E; exact Hc'].
        -- intros x [<-|Hx]; [right; left; reflexivity|].
           destruct (Hin x Hx) as [<-|Hx']; [left; reflexivity | right; right; assumption].
      * exists [k; v]. split.
        -- split; [reflexivity|]. rewrite E. split; [reflexivity | rewrite Hv; reflexivity].
        -- intros x [<-|[<-|[]]]; [right; left; reflexivity | left; reflexivity].
Qed.

Lemma relinked_head (v : nat) (s s' : state) (c : nat) (C : list nat) :
  relinked v s s' -> chain s (elems s c) C ->
  exists C', chain s' (elems s' c) C' /\ incl C' (v :: C).
Proof.
  intros Hr Hc. pose proof Hr as (Hv & _ & He). destruct (He c) as [E|E]; rewrite E.
  - apply (relinked_chain v s s' Hr). assumption.
  - exists [v]. split; [split; [reflexivity | rewrite Hv; reflexivity]|].
    intros x [<-|[]]. left. reflexivity.
Qed.

Lemma unlinked_chain (s s' : state) :
  unlinked s s' ->
  forall n C h, (List.length C <= n)%nat -> chain s h C ->
    exists C', chain s' h C' /\ incl C' C.
Proof.
  intros (Hk & _). induction n as [|n IH]; intros C h Hn Hc.
  - destruct C; [|simpl in Hn; lia]. exists []. split; [exact Hc | intros x []].
  - destruct C as [|k C]; [exists []; split; [exact Hc | intros x []]|].
    destruct Hc as [-> Hc]. simpl in Hn. destruct (Hk k) as [E|(q & Eq & E)].
    + destruct (IH C _ ltac:(lia) Hc) as (C' & Hc' & Hin). exists (k :: C'). split.
      * split; [reflexivity | rewrite E; exact Hc'].
      * intros x [<-|Hx]; [left; reflexivity | right; apply Hin; assumption].
    + rewrite Eq in Hc. destruct C as [|q' C]; [discriminate Hc|].
      destruct Hc as [Hq Hc]. inversion Hq. subst q'. simpl in Hn.
      destruct (IH C _ ltac:(lia) Hc) as (C' & Hc' & Hin). exists (k :: C'). split.
      * split; [reflexivity | rewrite E; exact Hc'].
      * intros x [<-|Hx]; [left; reflexivity | right; right; apply Hin; assumption].
Qed.

Lemma unlinked_head (s s' : state) (c : nat) (C : list nat) :
  unlinked s s' -> chain s (elems s c) C ->
  exists C', chain s' (elems s' c) C' /\ incl C' C.
Proof.
  intros Hu Hc. pose proof Hu as (_ & He). destruct (He c) as [E|(q & Eq & E)]; rewrite E.
  - apply (unlinked_chain s s' Hu (List.length C)); [lia | assumption].
  - rewrite Eq in Hc. destruct C as [|q' C]; [discriminate Hc|].
    destruct Hc as [Hq Hc]. inversion Hq. subst q'.
    destruct (unlinked_chain s s' Hu (List.length C) C _ ltac:(lia) Hc) as (C' & Hc' & Hin).
    exists C'. split; [assumption|]. intros x Hx. right. apply Hin. assumption.
Qed.

Lemma lookup_null_differ (s : state) (d blk : Z) (l : list nat) :
  lookup s d blk l = Null -> forall j, In j l -> differs d blk (bufs s j) = true.
Proof.
  induction l as [|k l IH]; simpl; [tauto|].
  destruct (differs d blk (bufs s k)) eqn:E; [|discriminate].
  intros H j [<-|Hj]; auto.
Qed.

Lemma differs_true (d blk : Z) (x : buf) :
  differs d blk x = true -> ~ (dev x = d /\ blockno x = blk).
Proof.
  unfold differs. intros H [Hd Hb]. subst.
  rewrite !Z.eqb_refl in H. discriminate H.
Qed.

Lemma drop_match_incl (s : state) (d blk : Z) (l : list nat) :
  incl (drop_match s d blk l) l.
Proof.
  induction l as [|k l IH]; simpl; [intros x []|].
  destruct (differs d blk (bufs s k)).
  - intros x [<-|Hx]; [left; reflexivity | right; apply IH; assumption].
  - intros x Hx. right. assumption.
Qed.

Lemma drop_match_unique (s : state) (d blk : Z) (k : nat) (l : list nat) :
  NoDup l -> differs d blk (bufs s k) = false ->
  (forall j, In j l -> j <> k -> differs d blk (bufs s j) = true) ->
  ~ In k (drop_match s d blk l).
Proof.
  intros Hnd Hk. induction Hnd as [|m l Hm Hnd IH]; intros Hu; simpl; [tauto|].
  destruct (differs d blk (bufs s m)) eqn:E.
  - intros [->|Hin]; [congruence|].
    apply IH; [|assumption]. intros j Hj. apply Hu. right. assumption.
  - destruct (Nat.eq_dec m k) as [->|Hne]; [assumption|].
    rewrite (Hu m (or_introl eq_refl) Hne) in E. discriminate E.
Qed.

Section LinkFacts.

Variable fuel : nat.

(** btable_insert, with what it does to the links of the hash table. *)
Lemma btable_insert_links (s : state) (v : nat) (l : list nat) :
  chain s (elems s (hash (blockno (bufs s v)))) l -> (List.length l < fuel)%nat ->
  exists s', btable_insert fuel (Buf v) s = Ok tt s' /\ same_but_hash s s' /\
             relinked v s s'.
Proof.
  intros Hc Hn. unfold btable_insert, bind. simpl load. cbv beta iota.
  rewrite (find_ptr_chain fuel s _ _ l Hc Hn).
  set (p := walk s _ _ _ l).
  assert (Hg : good_slot p) by (apply walk_good; exact I).
  rewrite slot_set_ok by assumption. simpl store.
  eexists. split; [reflexivity|]. split.
  { apply (same_but_hash_trans _ (slot_put s p (Buf v)));
      [apply slot_put_same_but_hash; assumption|].
    apply upd_next_hash_same_but_hash. discriminate. }
  split; [rewrite bufs_upd_same; reflexivity|]. split.
  - intros k Hk. rewrite bufs_upd_other by assumption.
    destruct p as [c|[|m|i]]; cbn [slot_put].
    + left. reflexivity.
    + destruct Hg.
    + destruct (Nat.eq_dec k m) as [->|Hne].
      * right. rewrite bufs_upd_same. reflexivity.
      * left. rewrite bufs_upd_other by assumption. reflexivity.
    + left. rewrite bufs_upd_lru. reflexivity.
  - intro c. destruct p as [c0|[|m|i]]; cbn [slot_put upd elems set_elems].
    + destruct (Nat.eqb c0 c); [right | left]; reflexivity.
    + destruct Hg.
    + left. reflexivity.
    + left. reflexivity.
Qed.

(** btable_remove, with what it does to the links of the hash table. *)
Lemma btable_remove_links (s : state) (v : nat) (l : list nat) :
  let d := dev (bufs s v) in
  let blk := blockno (bufs s v) in
  chain s (elems s (hash blk)) l -> (List.length l < fuel)%nat ->
  exists s', btable_remove fuel (Buf v) s = Ok tt s' /\ same_but_hash s s' /\
             chain s' (elems s' (hash blk)) (drop_match s d blk l) /\
             unlinked s s'.
Proof.
  intros d blk Hc Hn. unfold btable_remove, bind. simpl load. cbv beta iota.
  fold d blk. rewrite (find_ptr_chain fuel s d blk l Hc Hn).
  set (p := walk s d blk (Elem (hash blk)) l).
  assert (Hg : good_slot p) by (apply walk_good; exact I).
  rewrite slot_get_ok by assumption.
  assert (Hval : slot_val s p = lookup s d blk l) by (apply walk_val; exact Hc).
  rewrite Hval.
  destruct (lookup_cases s d blk l) as [E|(k & E & Hin & Hd)]; rewrite E; simpl.
  - exists s. split; [reflexivity|]. split; [apply same_but_hash_refl|]. split.
    + rewrite drop_match_none by assumption. assumption.
    + split; intros; left; reflexivity.
  - rewrite slot_set_ok by assumption. rewrite E in Hval.
    eexists. split; [reflexivity|]. split; [apply slot_put_same_but_hash; assumption|].
    split.
    { apply (drop_match_chain s d blk l (Elem (hash blk)) k); try assumption; try exact I.
      eapply chain_NoDup; eassumption. }
    split.
    + intro m. destruct p as [c|[|q|i]]; cbn [slot_put].
      * left. reflexivity.
      * destruct Hg.
      * destruct (Nat.eq_dec m q) as [->|Hne].
        -- right. exists k. rewrite bufs_upd_same. split; [exact Hval | reflexivity].
        -- left. rewrite bufs_upd_other by assumption. reflexivity.
      * left. rewrite bufs_upd_lru. reflexivity.
    + intro c. destruct p as [c0|[|q|i]]; cbn [slot_put upd elems set_elems].
      * destruct (Nat.eqb c0 c) eqn:Ec; [|left; reflexivity].
        apply Nat.eqb_eq in Ec. subst c0. right. exists k. split; [exact Hval | reflexivity].
      * destruct Hg.
      * left. reflexivity.
      * left. reflexivity.
Qed.

(** brelse of the last reference, with what it does to the hash table. *)
Lemma brelse_zero_links (me : Z) (s : state) (k : nat) (l C : list nat) :
  let d := dev (bufs s k) in
  let blk := blockno (bufs s k) in
  let idx := hash blk in
  holdingsleep me (lock (bufs s k)) = true ->
  wrap32 (refcnt (bufs s k) - 1) = 0 ->
  lru_list s idx l -> ~ In k l ->
  chain s (elems s idx) C -> (List.length C < fuel)%nat ->
  let s2 := lru_add_state (released s k) k idx (prev (lrus s idx)) in
  exists s',
    brelse fuel me (Buf k) s = Ok tt s' /\ same_but_hash s2 s' /\
    same_table s s2 /\ unlinked s2 s' /\
    chain s' (elems s' idx) (drop_match s d blk C).
Proof.
  intros d blk idx Hh Hr Hl Hk Hc Hn s2.
  assert (Hlinks : same_links s (released s k)).
  { unfold released. eapply same_links_trans; apply same_links_upd; auto; discriminate. }
  assert (Htab : same_table s (released s k)).
  { unfold released. eapply same_table_trans; apply same_table_upd; auto; discriminate. }
  assert (Hl1 : lru_list (released s k) idx l) by (apply (lru_list_same_links s); auto).
  assert (Hprev : prev (lrus (released s k) idx) = prev (lrus s idx)) by reflexivity.
  destruct (lru_list_add (released s k) k idx l Hl1 Hk) as (Hadd & Hl2 & Hmru).
  rewrite Hprev in Hadd, Hl2, Hmru. fold s2 in Hadd, Hl2, Hmru.
  assert (Htab2 : same_table s s2).
  { apply (same_table_trans _ (released s k)); [assumption|].
    apply same_but_links_table. apply lru_add_same_but_links.
    destruct (lru_list_tail _ _ _ Hl); assumption. }
  assert (Hid : dev (bufs s2 k) = d /\ blockno (bufs s2 k) = blk).
  { destruct Htab2 as [_ H]. destruct (H k) as (_ & Hd & Hb). auto. }
  destruct Hid as [Hd2 Hb2].
  assert (Hc2 : chain s2 (elems s2 (hash (blockno (bufs s2 k)))) C).
  { rewrite Hb2. fold idx. destruct Htab2 as [He Hb]. rewrite He.
    apply (chain_same_table s); [split; assumption | assumption]. }
  destruct (btable_remove_links s2 k C Hc2 Hn) as (s' & Hrem & Hsh & Hc' & Hun).
  exists s'. split; [|split; [assumption|split; [assumption|split; [assumption|]]]].
  - unfold brelse. mstep. rewrite Hh. cbn [negb].
    unfold releasesleep. mstep. mstep. rewrite (bind_ok _ _ _ _ _ (decr_refcnt_ok _ _)).
    mstep. fsimpl. rewrite Hr. cbn [Z.eqb].
    unfold released, unlocked, idx, blk in Hadd. rewrite Hr in Hadd.
    rewrite (bind_ok _ _ _ _ _ Hadd). exact Hrem.
  - rewrite Hb2, Hd2 in Hc'. fold idx in Hc'.
    rewrite (drop_match_same_table s s2) in Hc' by assumption. exact Hc'.
Qed.

End LinkFacts.

(** *** Installing a victim *)


Lemma same_table_hash (s s' : state) : same_table s s' -> same_hash s s'.
Proof. intros [He Hb]. split; [assumption|]. intro k. apply (Hb k). Qed.

Lemma victim_set_hash (d blk : Z) (s : state) (v : nat) :
  same_hash s (victim_set d blk s v).
Proof. split; [reflexivity|]. intro k. apply victim_set_next_hash. Qed.

Lemma relinked_ext (v : nat) (a b a' b' : state) :
  same_hash a a' -> same_hash b b' -> relinked v a b -> relinked v a' b'.
Proof.
  intros [Ea Na] [Eb Nb] (Hv & Hk & He). split; [rewrite Nb; assumption|]. split.
  - intros k Hne. rewrite Nb, Na. apply Hk. assumption.
  - intro c. rewrite Eb, Ea. apply He.
Qed.

Lemma lists_ok_installed (NBUF : nat) (s sm s' : state) (L : nat -> list nat)
      (i v : nat) (l : list nat) :
  lists_ok NBUF s L -> (i < NSHARD)%nat -> L i = v :: l ->
  same_links s sm ->
  same_links (lru_remove_state sm (after_head i l) (Lru i)) s' ->
  lists_ok NBUF s' (setL L i l).
Proof.
  intros Hl Hi Hv Hsm Hs'.
  apply (lists_ok_same_links NBUF _ s' _ Hs').
  apply (lists_ok_take NBUF sm L i v l); auto.
  apply (lists_ok_same_links NBUF s); assumption.
Qed.

Lemma taken_off_lists (NBUF : nat) (s : state) (L : nat -> list nat)
      (i v : nat) (l : list nat) :
  lists_ok NBUF s L -> (i < NSHARD)%nat -> L i = v :: l ->
  forall j k, (j < NSHARD)%nat -> In k (setL L i l j) -> In k (L j) /\ k <> v.
Proof.
  intros (Hl & _ & Hd) Hi Hv j k Hj Hk.
  destruct (Hl i Hi) as [Hnd _]. rewrite Hv in Hnd. inversion Hnd as [|? ? Hvl _]. subst.
  unfold setL in Hk. destruct (Nat.eqb j i) eqn:E.
  - apply Nat.eqb_eq in E. subst j. split; [rewrite Hv; right; assumption|].
    intros ->. contradiction.
  - split; [assumption|]. intros ->. apply Nat.eqb_neq in E. apply E.
    apply (Hd j i v Hj Hi Hk). rewrite Hv. left. reflexivity.
Qed.

Lemma installed_identity (d blk : Z) (s sF : state) (v : nat) :
  same_core (victim_set d blk s v) sF ->
  (dev (bufs sF v) = d /\ blockno (bufs sF v) = blk) /\
  forall k, k <> v ->
    dev (bufs sF k) = dev (bufs s k) /\ blockno (bufs sF k) = blockno (bufs s k) /\
    refcnt (bufs sF k) = refcnt (bufs s k).
Proof.
  intro Hcore. split.
  - destruct (same_core_node _ _ (Buf v) Hcore) as (_ & Hd & Hb & _).
    cbn [node] in Hd, Hb. rewrite Hd, Hb, bufs_victim_set, Nat.eqb_refl.
    split; reflexivity.
  - intros k Hk. destruct (same_core_node _ _ (Buf k) Hcore) as (_ & Hd & Hb & _ & Hr & _).
    cbn [node] in Hd, Hb, Hr. rewrite Hd, Hb, Hr, bufs_victim_set.
    apply Nat.eqb_neq in Hk. rewrite Nat.eqb_sym, Hk. repeat split.
Qed.

(** The state in which a victim [v], first on shard [i]'s list, has been
    unlinked from the list, linked into a chain and given the identity
    [(d, blk)], which no buffer of the home chain carried, satisfies the
    invariant. *)
Lemma cache_inv_installed (NBUF : nat) (d blk : Z) (s sF : state)
      (L : nat -> list nat) (i v : nat) (l C : list nat) :
  cache_inv NBUF s L -> (i < NSHARD)%nat -> L i = v :: l ->
  lists_ok NBUF sF (setL L i l) ->
  relinked v s sF -> same_core (victim_set d blk s v) sF ->
  chain s (elems s (hash blk)) C -> lookup s d blk C = Null ->
  cache_inv NBUF sF (setL L i l).
Proof.
  intros (Hl & Hz & Hch & Hm & Hu) Hi Hv Hlists Hrel Hcore HC Hlook.
  destruct (installed_identity d blk s sF v Hcore) as [[Hdv Hbv] Hother].
  pose proof (taken_off_lists NBUF s L i v l Hl Hi Hv) as Hoff.
  assert (Hvb : (v < NBUF)%nat).
  { destruct Hl as (_ & Hb & _). apply (Hb i v Hi). rewrite Hv. left. reflexivity. }
  assert (Hold : forall c C', (c < NSHARD)%nat -> chain sF (elems sF c) C' ->
            exists C0, chain s (elems s c) C0 /\ incl C' (v :: C0) /\
                       forall k, In k C0 -> (k < NBUF)%nat).
  { intros c C' Hc HC'. destruct (Hch c Hc) as (C0 & HC0 & Hb0).
    destruct (relinked_head v s sF c C0 Hrel HC0) as (C1 & HC1 & Hin).
    rewrite (chain_det sF C' _ _ HC' HC1). exists C0. auto. }
  assert (Hmiss : forall k, In k C -> k <> v ->
            ~ (dev (bufs sF k) = d /\ blockno (bufs sF k) = blk)).
  { intros k Hk Hne. destruct (Hother k Hne) as (Hd & Hb & _). rewrite Hd, Hb.
    apply differs_true. apply (lookup_null_differ s d blk C); assumption. }
  split; [assumption|]. split; [|split; [|split]].
  - intros j k Hj Hk. destruct (Hoff j k Hj Hk) as [Hin Hne].
    destruct (Hother k Hne) as (_ & _ & Hr). rewrite Hr. eauto.
  - intros c Hc. destruct (Hch c Hc) as (C0 & HC0 & Hb0).
    destruct (relinked_head v s sF c C0 Hrel HC0) as (C1 & HC1 & Hin).
    exists C1. split; [assumption|]. intros k Hk.
    destruct (Hin k Hk) as [<-|Hk0]; auto.
  - intros c C' k Hc HC' Hk Hh j Hj Hin.
    destruct (Hoff j k Hj Hin) as [Hin0 Hne].
    destruct (Hold c C' Hc HC') as (C0 & HC0 & Hincl & _).
    destruct (Hincl k Hk) as [E|Hk0]; [congruence|].
    destruct (Hother k Hne) as (_ & Hb & _). rewrite Hb in Hh.
    apply (Hm c C0 k Hc HC0 Hk0 Hh j Hj Hin0).
  - intros c C' j k Hc HC' Hj Hk Hh Hd Hb.
    destruct (Hold c C' Hc HC') as (C0 & HC0 & Hincl & _).
    destruct (Nat.eq_dec j v) as [->|Hjv]; destruct (Nat.eq_dec k v) as [->|Hkv];
      try reflexivity.
    + exfalso. rewrite Hbv in Hh. subst c.
      rewrite (chain_det s C0 _ _ HC0 HC) in Hincl.
      destruct (Hincl k Hk) as [E|Hk0]; [congruence|].
      apply (Hmiss k Hk0 Hkv). split; congruence.
    + exfalso. rewrite Hb, Hbv in Hh. subst c.
      rewrite (chain_det s C0 _ _ HC0 HC) in Hincl.
      destruct (Hincl j Hj) as [E|Hj0]; [congruence|].
      apply (Hmiss j Hj0 Hjv). split; congruence.
    + destruct (Hother j Hjv) as (Hdj & Hbj & _).
      destruct (Hother k Hkv) as (Hdk & Hbk & _).
      rewrite Hbj in Hh. rewrite Hdj, Hdk in Hd. rewrite Hbj, Hbk in Hb.
      destruct (Hincl j Hj) as [E|Hj0]; [congruence|].
      destruct (Hincl k Hk) as [E|Hk0]; [congruence|].
      apply (Hu c C0 j k Hc HC0 Hj0 Hk0 Hh Hd Hb).
Qed.

Section InstallFacts.

Variable fuel : nat.
Variable env : nat -> state -> state.

Lemma bget_local_links (me d blk : Z) (s : state) (C l : list nat) (v : nat) :
  let idx := hash blk in
  chain s (elems s idx) C -> (List.length C < fuel)%nat ->
  lookup s d blk C = Null ->
  lru_list s idx (v :: l) ->
  exists s2,
    same_links s s2 /\
    let s3 := lru_remove_state s2 (after_head idx l) (Lru idx) in
    same_core (victim_set d blk s v) s3 /\ relinked v s s3 /\
    bget_via fuel env me d blk s = lock_and_return me s3 v (Buf v, ByLocal).
Proof.
  intros idx Hc Hn Hl Hlru.
  destruct (lru_list_head _ _ _ _ Hlru) as (Hh & _).
  set (s1 := victim_set d blk s v).
  assert (Hc1 : chain s1 (elems s1 (hash (blockno (bufs s1 v)))) C).
  { unfold s1. rewrite bufs_victim_set, Nat.eqb_refl. cbn [blockno set_valid set_dev set_blockno].
    apply (chain_ext s); [|exact Hc]. intros k _. apply victim_set_next_hash. }
  destruct (btable_insert_links fuel s1 v C Hc1 Hn) as (s2 & Hins & Hsh & Hrel).
  exists s2.
  assert (Hlk : same_links s s2).
  { eapply same_links_trans; [apply victim_set_links|].
    apply same_but_hash_links. exact Hsh. }
  split; [assumption|]. intro s3.
  assert (Hl2 : lru_list s2 idx (v :: l)) by (apply (lru_list_same_links s); assumption).
  destruct (lru_list_remove s2 idx v l Hl2) as (Hrem & Hl3). fold s3 in Hrem, Hl3.
  assert (Hsl : same_but_links s2 s3).
  { apply lru_remove_same_but_links; [destruct l; discriminate | discriminate]. }
  split; [|split].
  { apply (same_core_trans _ s2); [apply same_but_hash_core; assumption|].
    apply same_but_links_core. assumption. }
  { apply (relinked_ext v s1 s2); [| |assumption].
    - split; [reflexivity|]. intro k. symmetry. apply victim_set_next_hash.
    - apply same_table_hash. apply same_but_links_table. assumption. }
  unfold bget_via.
  rewrite (bind_ok _ _ _ _ _ (btable_find_chain fuel s d blk C Hc Hn)).
  rewrite Hl. cbn [is_null negb]. mstep. fold idx. rewrite Hh.
  cbn [ptr_eqb negb]. do 4 mstep. fold (victim_set d blk s v). fold s1.
  rewrite (bind_ok _ _ _ _ _ Hins). rewrite (bind_ok _ _ _ _ _ Hrem).
  unfold bind at 1. rewrite acquiresleep_ok. unfold lock_and_return.
  destruct (locked (lock (bufs s3 v))); reflexivity.
Qed.

Lemma steal_iter_steal_links (me d blk : Z) (i : nat) (s : state)
      (C C' l : list nat) (v : nat) :
  chain s (elems s (hash blk)) C -> (List.length C < fuel)%nat ->
  lookup s d blk C = Null ->
  lru_list s i (v :: l) ->
  chain s (elems s (hash (blockno (bufs s v)))) C' -> (List.length C' < fuel)%nat ->
  exists sF,
    same_links (lru_remove_state s (after_head i l) (Lru i)) sF /\
    same_core (victim_set d blk s v) sF /\ relinked v s sF /\
    steal_iter fuel me d blk i s = lock_and_return me sF v (Some (Buf v, BySteal i)).
Proof.
  intros Hc Hn Hl Hlru Hc' Hn'. set (s1 := lru_remove_state s (after_head i l) (Lru i)).
  destruct (lru_list_head _ _ _ _ Hlru) as (Hh & _).
  destruct (lru_list_remove s i v l Hlru) as (Hrem & Hl1). fold s1 in Hrem, Hl1.
  assert (Hsl : same_but_links s s1).
  { apply lru_remove_same_but_links; [destruct l; discriminate | discriminate]. }
  assert (Hc1 : chain s1 (elems s1 (hash (blockno (bufs s1 v)))) C').
  { destruct (same_but_links_table _ _ Hsl) as [He Hb].
    destruct (Hb v) as (_ & _ & Hbv). rewrite Hbv, He.
    apply (chain_same_table s); [split; assumption | assumption]. }
  destruct (btable_insert_links fuel s1 v C' Hc1 Hn') as (s2 & Hins & Hsh & Hrel).
  exists (victim_set d blk s2 v). split; [|split; [|split]].
  { eapply same_links_trans; [apply same_but_hash_links; eassumption|].
    apply victim_set_links. }
  { apply victim_set_core. apply (same_core_trans _ s1);
      [apply same_but_links_core | apply same_but_hash_core]; assumption. }
  { apply (relinked_ext v s1 s2); [| |assumption].
    - apply same_table_hash. apply same_table_sym. apply same_but_links_table. assumption.
    - apply victim_set_hash. }
  unfold steal_iter.
  rewrite (bind_ok _ _ _ _ _ (btable_find_chain fuel s d blk C Hc Hn)).
  rewrite Hl. cbn [is_null negb]. mstep. rewrite Hh.
  cbn [ptr_eqb]. mstep. rewrite Hh.
  rewrite (bind_ok _ _ _ _ _ Hrem). rewrite (bind_ok _ _ _ _ _ Hins).
  do 4 mstep. fold (victim_set d blk s2 v).
  unfold bind at 1. rewrite acquiresleep_ok. unfold lock_and_return.
  destruct (locked (lock (bufs (victim_set d blk s2 v) v))); reflexivity.
Qed.

End InstallFacts.

(** *** bget keeps the invariant and takes unreferenced victims *)

Lemma cache_inv_lock_and_return {A : Type} (NBUF : nat) (me : Z) (s : state)
      (L : nat -> list nat) (k : nat) (a : A) :
  cache_inv NBUF s L -> cache_kept NBUF (lock_and_return me s k a).
Proof.
  intro H. unfold lock_and_return.
  destruct (locked (lock (bufs s k))); simpl; exists L; [assumption|].
  apply cache_inv_upd; auto.
Qed.

Lemma cache_inv_bumped (NBUF : nat) (s : state) (L : nat -> list nat) (k : nat) :
  cache_inv NBUF s L -> (forall i, (i < NSHARD)%nat -> ~ In k (L i)) ->
  cache_inv NBUF (bumped s k) L.
Proof. intros H Hoff. apply cache_inv_upd; auto. Qed.

Lemma cache_inv_chain (NBUF fuel : nat) (s : state) (L : nat -> list nat) (c : nat) :
  (NBUF < fuel)%nat -> cache_inv NBUF s L -> (c < NSHARD)%nat ->
  exists C, chain s (elems s c) C /\ (List.length C < fuel)%nat.
Proof.
  intros Hf (_ & _ & Hch & _) Hc. destruct (Hch c Hc) as (C & HC & Hb).
  exists C. split; [assumption|]. pose proof (chain_short NBUF s _ C HC Hb). lia.
Qed.

(** A buffer the lookup finds is on no list. *)
Lemma cache_inv_hit (NBUF : nat) (d blk : Z) (s : state) (L : nat -> list nat)
      (C : list nat) (k : nat) :
  cache_inv NBUF s L -> chain s (elems s (hash blk)) C -> lookup s d blk C = Buf k ->
  forall i, (i < NSHARD)%nat -> ~ In k (L i).
Proof.
  intros (_ & _ & _ & Hm & _) HC Hl.
  destruct (lookup_cases s d blk C) as [E|(k' & E & Hin & Hd)]; [congruence|].
  rewrite Hl in E. inversion E. subst k'.
  apply (Hm (hash blk) C k (hash_lt blk) HC Hin).
  unfold differs in Hd. apply orb_false_iff in Hd. destruct Hd as [Hb _].
  apply negb_false_iff, Z.eqb_eq in Hb. rewrite Hb. reflexivity.
Qed.


Section VictimFacts.

Variable NBUF : nat.
Variable fuel : nat.
Variable env : nat -> state -> state.
Hypothesis fuel_enough : (NBUF < fuel)%nat.

Lemma steal_iter_cases (me d blk : Z) (i : nat) (s : state) :
  cache_ok NBUF s -> (i < NSHARD)%nat ->
  steal_iter fuel me d blk i s = Ok None s \/
  (cache_kept NBUF (steal_iter fuel me d blk i s) /\
   iter_result NBUF i s (steal_iter fuel me d blk i s)).
Proof.
  intros [L Hinv] Hi.
  destruct (cache_inv_chain NBUF fuel s L (hash blk) fuel_enough Hinv (hash_lt blk))
    as (C & Hc & Hn).
  pose proof Hinv as (Hl & Hz & _).
  destruct (lookup_cases s d blk C) as [Hlk|(k & Hlk & _)].
  - pose proof (proj1 Hl i Hi) as Hli.
    destruct (L i) as [|v l] eqn:E.
    + left. apply (steal_iter_empty fuel me d blk i s C); auto.
      destruct Hli as [_ [Hnx _]]. exact Hnx.
    + right.
      destruct (cache_inv_chain NBUF fuel s L (hash (blockno (bufs s v))) fuel_enough
                  Hinv (hash_lt _)) as (C' & Hc' & Hn').
      destruct (steal_iter_steal_links fuel me d blk i s C C' l v Hc Hn Hlk Hli Hc' Hn')
        as (sF & Hlinks & Hcore & Hrel & Hres).
      rewrite Hres.
      assert (HF : cache_inv NBUF sF (setL L i l)).
      { apply (cache_inv_installed NBUF d blk s sF L i v l C); auto.
        apply (lists_ok_installed NBUF s s sF L i v l); auto. apply same_links_refl. }
      split; [apply (cache_inv_lock_and_return NBUF me sF (setL L i l)); assumption|].
      unfold lock_and_return. destruct (locked _); [exact I|]. cbn [iter_result].
      split; [reflexivity|]. exists v. split; [reflexivity|].
      assert (Hin : In v (L i)) by (rewrite E; left; reflexivity).
      split; [apply (proj1 (proj2 Hl) i v Hi Hin) | apply (Hz i v Hi Hin)].
  - right. rewrite (steal_iter_hit fuel me d blk i s C k Hc Hn Hlk). split.
    + apply (cache_inv_lock_and_return NBUF me _ L). apply cache_inv_bumped; [assumption|].
      apply (cache_inv_hit NBUF d blk s L C k); assumption.
    + unfold lock_and_return. destruct (locked _); [exact I|].
      cbn [iter_result]. exists k. reflexivity.
Qed.

Hypothesis env_ok : forall i s, cache_ok NBUF s -> cache_ok NBUF (env i s).



Lemma ahead_S (idx i m : nat) (s : state) :
  ahead env idx i (S m) s =
    ahead env idx (S i) m (if Nat.ltb idx i then env i s else s).
Proof. unfold ahead. rewrite <- cons_seq. reflexivity. Qed.

Lemma steal_loop_cache (me d blk : Z) (idx : nat) :
  forall n i s, (i + n = NSHARD)%nat -> cache_ok NBUF s ->
    cache_kept NBUF (steal_loop fuel env me d blk idx n i s) /\
    loop_result NBUF fuel env me d blk idx i s (steal_loop fuel env me d blk idx n i s).
Proof.
  induction n as [|n IH]; intros i s Hin Hs; cbn [steal_loop].
  { split; [reflexivity | exact I]. }
  assert (Hshift : forall s1,
            s1 = (if Nat.ltb idx i then env i s else s) ->
            forall r, loop_result NBUF fuel env me d blk idx (S i) s1 r -> loop_result NBUF fuel env me d blk idx i s r).
  { intros s1 Hs1 r Hr. destruct r as [[b w] s'| | | |]; try exact I.
    destruct w; try exact Hr.
    destruct Hr as (m & Hj & k & Hb & Hk & Hz & Hit).
    exists (S m). split; [lia|]. exists k. rewrite ahead_S, <- Hs1. auto. }
  destruct (Nat.eqb i idx) eqn:Eidx.
  { apply Nat.eqb_eq in Eidx. destruct (IH (S i) s ltac:(lia) Hs) as [Hk Hr].
    split; [assumption|]. apply (Hshift s); [|assumption].
    subst i. rewrite Nat.ltb_irrefl. reflexivity. }
  set (s1 := if Nat.ltb idx i then env i s else s).
  assert (Hs1 : cache_ok NBUF s1).
  { unfold s1. destruct (Nat.ltb idx i); [apply env_ok|]; assumption. }
  assert (Hrun : (if Nat.ltb i idx then ret tt else interfere env i) s = Ok tt s1).
  { unfold s1. apply Nat.eqb_neq in Eidx.
    destruct (Nat.ltb i idx) eqn:E1.
    - apply Nat.ltb_lt in E1. replace (Nat.ltb idx i) with false; [reflexivity|].
      symmetry. apply Nat.ltb_ge. lia.
    - apply Nat.ltb_ge in E1. replace (Nat.ltb idx i) with true; [reflexivity|].
      symmetry. apply Nat.ltb_lt. lia. }
  rewrite (bind_ok _ _ _ _ _ Hrun).
  destruct (steal_iter_cases me d blk i s1 Hs1 ltac:(lia)) as [Hnone|[Hk Hr]].
  - rewrite (bind_ok _ _ _ _ _ Hnone).
    destruct (IH (S i) s1 ltac:(lia) Hs1) as [Hk Hr].
    split; [assumption|]. apply (Hshift s1); [reflexivity | assumption].
  - unfold bind.
    destruct (steal_iter fuel me d blk i s1) as [[[b w]|] s2|m| |s2|] eqn:Eit;
      cbn [cache_kept iter_result] in *; try tauto.
    split; [assumption|]. cbn [ret loop_result].
    destruct w as [| |j|j]; try exact Hr.
    destruct Hr as (-> & k & Hb & Hkb & Hz).
    exists 0%nat. split; [lia|]. exists k.
    assert (Ha : ahead env idx i 0 s = s1) by reflexivity.
    rewrite Ha. auto.
Qed.

(** bget keeps the invariant, and the victim it returns was unreferenced
    when it was selected. *)
Lemma bget_via_cache (me d blk : Z) (s : state) :
  cache_ok NBUF s ->
  cache_kept NBUF (bget_via fuel env me d blk s) /\
  forall r s', bget_via fuel env me d blk s = Ok r s' ->
    (exists k, fst r = Buf k) /\ victim_unreferenced NBUF fuel env me d blk s s' r.
Proof.
  intros Hs. pose proof Hs as [L Hinv].
  destruct (cache_inv_chain NBUF fuel s L (hash blk) fuel_enough Hinv (hash_lt blk))
    as (C & Hc & Hn).
  pose proof Hinv as (Hl & Hz & _).
  destruct (lookup_cases s d blk C) as [Hlk|(k & Hlk & _)].
  - pose proof (proj1 Hl (hash blk) (hash_lt blk)) as Hli.
    destruct (L (hash blk)) as [|v l] eqn:E.
    + rewrite (bget_no_local fuel env me d blk s C Hc Hn Hlk).
      2:{ destruct Hli as [_ [Hnx _]]. exact Hnx. }
      destruct (steal_loop_cache me d blk (hash blk) NSHARD 0 s eq_refl Hs) as [Hk Hr].
      split; [assumption|]. intros [b w] s' Hrun. rewrite Hrun in Hr.
      unfold victim_unreferenced. cbn [fst snd loop_result] in *.
      destruct w as [| |j|j]; try (destruct Hr; fail).
      * split; [exact Hr | exact I].
      * destruct Hr as (m & Hj & k & Hb & Hkb & Hzk & Hit).
        simpl in Hj. subst j. split; [exists k; assumption|]. exists k. auto.
    + destruct (bget_local_links fuel env me d blk s C l v Hc Hn Hlk Hli)
        as (s2 & Hlinks & Hcore & Hrel & Hres).
      rewrite Hres.
      assert (HF : cache_inv NBUF
                     (lru_remove_state s2 (after_head (hash blk) l) (Lru (hash blk)))
                     (setL L (hash blk) l)).
      { apply (cache_inv_installed NBUF d blk s _ L (hash blk) v l C); auto.
        - apply hash_lt.
        - apply (lists_ok_installed NBUF s s2 _ L (hash blk) v l); auto.
          + apply hash_lt.
          + apply same_links_refl. }
      split; [apply (cache_inv_lock_and_return NBUF me _ (setL L (hash blk) l)); assumption|].
      intros r s' Hrun. unfold lock_and_return in Hrun.
      destruct (locked _); [discriminate Hrun|]. inversion Hrun. subst.
      unfold victim_unreferenced. cbn [fst snd].
      split; [exists v; reflexivity|]. exists v. split; [reflexivity|].
      assert (Hin : In v (L (hash blk))) by (rewrite E; left; reflexivity).
      split; [apply (proj1 (proj2 Hl) (hash blk) v (hash_lt blk) Hin)
             | apply (Hz (hash blk) v (hash_lt blk) Hin)].
  - rewrite (bget_hit fuel env me d blk s C k Hc Hn Hlk). split.
    + apply (cache_inv_lock_and_return NBUF me _ L). apply cache_inv_bumped; [assumption|].
      apply (cache_inv_hit NBUF d blk s L C k); assumption.
    + intros r s' Hrun. unfold lock_and_return in Hrun.
      destruct (locked _); [discriminate Hrun|]. inversion Hrun.
      split; [exists k; reflexivity | exact I].
Qed.

End VictimFacts.

(** *** The operations keep the invariant *)

Lemma cache_inv_counters (NBUF : nat) (s : state) (L : nat -> list nat)
      (dk : Z -> Z -> block) (nr nw : nat) :
  cache_inv NBUF s L ->
  cache_inv NBUF (mkstate (bufs s) (lrus s) (elems s) dk nr nw) L.
Proof.
  apply cache_inv_frame.
  - intros [|k|i]; split; reflexivity.
  - split; [reflexivity|]. intro k. repeat split.
  - intro k. left. reflexivity.
Qed.

Lemma referenced_off_lists (NBUF : nat) (s : state) (L : nat -> list nat) (k : nat) :
  cache_inv NBUF s L -> 0 < refcnt (bufs s k) ->
  forall i, (i < NSHARD)%nat -> ~ In k (L i).
Proof.
  intros (_ & Hz & _) Hpos i Hi Hin. rewrite (Hz i k Hi Hin) in Hpos. lia.
Qed.

(** The state brelse leaves when it drops the last reference satisfies
    the invariant. *)
Lemma cache_inv_released (NBUF : nat) (s s' : state) (L : nat -> list nat)
      (k : nat) (C : list nat) :
  let d := dev (bufs s k) in
  let blk := blockno (bufs s k) in
  let idx := hash blk in
  let s2 := lru_add_state (released s k) k idx (prev (lrus s idx)) in
  cache_inv NBUF s L -> (k < NBUF)%nat ->
  (forall i, (i < NSHARD)%nat -> ~ In k (L i)) ->
  wrap32 (refcnt (bufs s k) - 1) = 0 ->
  chain s (elems s idx) C ->
  same_but_hash s2 s' -> same_table s s2 -> unlinked s2 s' ->
  chain s' (elems s' idx) (drop_match s d blk C) ->
  cache_inv NBUF s' (setL L idx (L idx ++ [k])).
Proof.
  intros d blk idx s2 (Hl & Hz & Hch & HM & HU) Hk Hoff Hw HC Hsh Htab Hun HC'.
  assert (Hi : (idx < NSHARD)%nat) by apply hash_lt.
  assert (Hrefs : forall m, refcnt (bufs s' m) = refcnt (bufs (released s k) m)).
  { intro m. rewrite (same_but_hash_refs _ _ Hsh m).
    apply (same_but_links_refs (released s k)).
    apply lru_add_same_but_links.
    destruct (lru_list_tail _ _ _ (proj1 Hl idx Hi)); assumption. }
  assert (Hid : forall m, dev (bufs s' m) = dev (bufs s m) /\
                          blockno (bufs s' m) = blockno (bufs s m)).
  { intro m. destruct (same_but_hash_node _ _ (Buf m) Hsh) as (_ & Hd & Hb & _).
    cbn [node] in Hd, Hb. destruct Htab as [_ Ht]. destruct (Ht m) as (_ & Hd2 & Hb2).
    rewrite Hd, Hb, Hd2, Hb2. split; reflexivity. }
  assert (Hold : forall c C1, (c < NSHARD)%nat -> chain s' (elems s' c) C1 ->
            exists C0, chain s (elems s c) C0 /\ incl C1 C0).
  { intros c C1 Hc HC1. destruct (Hch c Hc) as (C0 & HC0 & _).
    assert (HC2 : chain s2 (elems s2 c) C0).
    { destruct Htab as [He Hb]. rewrite He.
      apply (chain_same_table s); [split; assumption | assumption]. }
    destruct (unlinked_head s2 s' c C0 Hun HC2) as (C3 & HC3 & Hin).
    rewrite (chain_det s' C1 _ _ HC1 HC3). exists C0. auto. }
  assert (Hlist : forall j m, (j < NSHARD)%nat -> In m (setL L idx (L idx ++ [k]) j) ->
            m = k \/ In m (L j)).
  { intros j m Hj Hin. unfold setL in Hin. destruct (Nat.eqb j idx) eqn:E; [|auto].
    apply Nat.eqb_eq in E. subst j. apply in_app_or in Hin.
    destruct Hin as [Hin|[<-|[]]]; auto. }
  split; [|split; [|split; [|split]]].
  - apply (lists_ok_same_links NBUF _ s' _ (same_but_hash_links _ _ Hsh)).
    apply (lists_ok_give NBUF (released s k) L idx k); auto.
    apply (lists_ok_same_links NBUF s); [apply released_links | assumption].
  - intros j m Hj Hin. rewrite Hrefs, bufs_released.
    destruct (Hlist j m Hj Hin) as [->|Hin0].
    + rewrite Nat.eqb_refl. cbn [refcnt set_refcnt]. assumption.
    + destruct (Nat.eqb k m) eqn:E.
      * apply Nat.eqb_eq in E. subst m. exfalso. apply (Hoff j Hj Hin0).
      * eauto.
  - intros c Hc. destruct (Hch c Hc) as (C0 & HC0 & Hb0).
    assert (HC2 : chain s2 (elems s2 c) C0).
    { destruct Htab as [He Hb]. rewrite He.
      apply (chain_same_table s); [split; assumption | assumption]. }
    destruct (unlinked_head s2 s' c C0 Hun HC2) as (C3 & HC3 & Hin).
    exists C3. split; [assumption|]. intros m Hmem. apply Hb0. apply Hin. assumption.
  - intros c C1 m Hc HC1 Hmem Hh j Hj Hin.
    destruct (Hold c C1 Hc HC1) as (C0 & HC0 & Hincl).
    destruct (Hid m) as [_ Hbm]. rewrite Hbm in Hh.
    destruct (Hlist j m Hj Hin) as [->|Hin0].
    + fold blk in Hh. fold idx in Hh. subst c.
      rewrite (chain_det s' C1 _ _ HC1 HC') in Hmem.
      pose proof (chain_det s C0 _ _ HC0 HC). subst C0.
      revert Hmem. destruct (in_dec Nat.eq_dec k C) as [HkC|HkC].
      * apply drop_match_unique.
        -- eapply chain_NoDup; eassumption.
        -- unfold differs, d, blk. rewrite !Z.eqb_refl. reflexivity.
        -- intros j' Hj' Hne. destruct (differs d blk (bufs s j')) eqn:E; [reflexivity|].
           exfalso. apply Hne. unfold differs in E. apply orb_false_iff in E.
           destruct E as [Eb Ed]. apply negb_false_iff, Z.eqb_eq in Eb.
           apply negb_false_iff, Z.eqb_eq in Ed.
           apply (HU idx C j' k Hi HC Hj' HkC).
           ++ rewrite Eb. reflexivity.
           ++ rewrite Ed. reflexivity.
           ++ rewrite Eb. reflexivity.
      * intro Hmem. apply HkC. apply (drop_match_incl s d blk C). assumption.
    + apply (HM c C0 m Hc HC0 (Hincl m Hmem) Hh j Hj Hin0).
  - intros c C1 j m Hc HC1 Hj Hm0 Hh Hd Hb.
    destruct (Hold c C1 Hc HC1) as (C0 & HC0 & Hincl).
    destruct (Hid j) as [Hdj Hbj]. destruct (Hid m) as [Hdm Hbm].
    rewrite Hbj in Hh. rewrite Hdj, Hdm in Hd. rewrite Hbj, Hbm in Hb.
    apply (HU c C0 j m Hc HC0 (Hincl j Hj) (Hincl m Hm0) Hh Hd Hb).
Qed.

Section OperationFacts.

Variable NBUF : nat.
Variable fuel : nat.
Variable env : nat -> state -> state.
Hypothesis fuel_enough : (NBUF < fuel)%nat.
Hypothesis env_ok : forall i s, cache_ok NBUF s -> cache_ok NBUF (env i s).

Lemma bread_cache (me d blk : Z) (s : state) :
  cache_ok NBUF s -> cache_kept NBUF (bread fuel env me d blk s).
Proof.
  intro Hs.
  destruct (bget_via_cache NBUF fuel env fuel_enough env_ok me d blk s Hs) as [Hk Hr].
  unfold bread, bread_via, bind.
  destruct (bget_via fuel env me d blk s) as [[b w] s1|m| |s1|] eqn:E;
    cbn [cache_kept] in *; try assumption.
  destruct (Hr (b, w) s1 eq_refl) as [[k Hb] _]. cbn [fst] in *. subst b.
  cbn [load node]. destruct Hk as [L Hinv].
  destruct (Z.eqb (valid (bufs s1 k)) 0); cbn [ret cache_kept].
  - unfold virtio_disk_rw, bind. cbn [load node store]. exists L.
    apply cache_inv_upd; auto. apply cache_inv_upd; auto.
    apply cache_inv_counters. assumption.
  - exists L. assumption.
Qed.

Lemma brelse_cache (me : Z) (s s' : state) (k : nat) :
  cache_ok NBUF s -> (k < NBUF)%nat -> 0 < refcnt (bufs s k) ->
  brelse fuel me (Buf k) s = Ok tt s' -> cache_ok NBUF s'.
Proof.
  intros [L Hinv] Hk Hpos Hrun.
  destruct (holdingsleep me (lock (bufs s k))) eqn:Hh.
  2:{ rewrite (brelse_not_held fuel me s k Hh) in Hrun. discriminate Hrun. }
  pose proof (referenced_off_lists NBUF s L k Hinv Hpos) as Hoff.
  destruct (Z.eq_dec (wrap32 (refcnt (bufs s k) - 1)) 0) as [Hz|Hnz].
  - set (idx := hash (blockno (bufs s k))).
    assert (Hi : (idx < NSHARD)%nat) by apply hash_lt.
    destruct (cache_inv_chain NBUF fuel s L idx fuel_enough Hinv Hi) as (C & HC & Hn).
    pose proof (proj1 (proj1 Hinv) idx Hi) as Hli.
    destruct (brelse_zero_links fuel me s k (L idx) C Hh Hz Hli (Hoff idx Hi) HC Hn)
      as (s1 & Hrel & Hsh & Htab & Hun & HC').
    rewrite Hrel in Hrun. inversion Hrun. subst s1.
    exists (setL L idx (L idx ++ [k])).
    apply (cache_inv_released NBUF s s' L k C); assumption.
  - rewrite (brelse_keep fuel me s k Hh Hnz) in Hrun. inversion Hrun.
    exists L. unfold released. apply cache_inv_upd; auto. apply cache_inv_upd; auto.
Qed.

(** One operation of a caller that respects the interface keeps the
    invariant. *)
Lemma op_cache (s s' : state) :
  op NBUF fuel env s s' -> cache_ok NBUF s -> cache_ok NBUF s'.
Proof.
  intros Hop Hs.
  destruct Hop as [me d blk s b s' Hrun|me d blk s s' Hrun|me k s s' Hk Hpos Hrun
                  |me k s s' Hh Hrun|me k c s Hh|me k s s' Hrun
                  |me k s s' Hk Hpos Hrun|k s s' Hk Hpos Hrun|k s s' Hk Hpos Hrun].
  - pose proof (bread_cache me d blk s Hs) as H. rewrite Hrun in H. exact H.
  - pose proof (bread_cache me d blk s Hs) as H. rewrite Hrun in H. exact H.
  - rewrite acquiresleep_ok in Hrun. destruct (locked _); [discriminate Hrun|].
    inversion Hrun. destruct Hs as [L Hinv]. exists L. apply cache_inv_upd; auto.
  - unfold virtio_disk_rw, bind in Hrun. cbn [load node store] in Hrun.
    inversion Hrun. destruct Hs as [L Hinv]. exists L.
    apply cache_inv_upd; auto. apply cache_inv_upd; auto.
    apply cache_inv_counters. assumption.
  - destruct Hs as [L Hinv]. exists L. apply cache_inv_upd; auto.
  - unfold bwrite, bind in Hrun. cbn [load node] in Hrun.
    destruct (negb _); [discriminate Hrun|].
    unfold virtio_disk_rw, bind in Hrun. cbn [load node] in Hrun.
    inversion Hrun. destruct Hs as [L Hinv]. exists L.
    apply cache_inv_counters. assumption.
  - apply (brelse_cache me s s' k); assumption.
  - unfold bpin in Hrun. rewrite incr_refcnt_ok in Hrun. inversion Hrun.
    destruct Hs as [L Hinv]. exists L. apply cache_inv_upd; auto.
    right. apply (referenced_off_lists NBUF s L k); assumption.
  - unfold bunpin in Hrun. rewrite decr_refcnt_ok in Hrun. inversion Hrun.
    destruct Hs as [L Hinv]. exists L. apply cache_inv_upd; auto.
    right. apply (referenced_off_lists NBUF s L k); assumption.
Qed.

Lemma ops_cache (s s' : state) :
  ops NBUF fuel env s s' -> cache_ok NBUF s -> cache_ok NBUF s'.
Proof.
  induction 1 as [s|s s1 s2 H12 IH Hop]; intro Hs; [assumption|].
  apply (op_cache s1 s2 Hop). apply IH. assumption.
Qed.

End OperationFacts.

(** *** binit *)

Lemma same_but_links_refl (s : state) : same_but_links s s.
Proof. repeat split. Qed.

Lemma same_but_links_trans (s1 s2 s3 : state) :
  same_but_links s1 s2 -> same_but_links s2 s3 -> same_but_links s1 s3.
Proof.
  intros (N1 & E1 & D1 & R1 & W1) (N2 & E2 & D2 & R2 & W2).
  split; [intro q; rewrite N2; apply N1|].
  split; [intro i; rewrite E2; apply E1|].
  repeat split; congruence.
Qed.

Lemma same_but_links_upd (s : state) (p : ptr) (f : buf -> buf) :
  p <> Null ->
  (forall x, set_prev Null (set_next Null (f x)) = set_prev Null (set_next Null x)) ->
  same_but_links s (upd s p f).
Proof.
  intros Hp Hf. split; [|repeat split].
  intro q. rewrite node_upd by assumption.
  destruct (ptr_eqb p q); [apply Hf | reflexivity].
Qed.

(** The first loop of binit makes every list head point to itself. *)
Lemma binit_heads_ok :
  forall (n i : nat) (s : state),
  exists s',
    binit_heads n i s = Ok tt s' /\ same_but_links s s' /\
    (forall j, (i <= j < i + n)%nat ->
               next (lrus s' j) = Lru j /\ prev (lrus s' j) = Lru j) /\
    (forall j, (j < i)%nat -> lrus s' j = lrus s j).
Proof.
  induction n as [|n IH]; intros i s.
  - exists s. split; [reflexivity|]. split; [apply same_but_links_refl|].
    split; [intros j Hj; lia | reflexivity].
  - set (s1 := upd (upd s (Lru i) (set_next (Lru i))) (Lru i) (set_prev (Lru i))).
    destruct (IH (S i) s1) as (s' & Hrun & Hsl & Hin & Hout).
    exists s'. split; [|split; [|split]].
    + cbn [binit_heads]. do 2 mstep. exact Hrun.
    + apply (same_but_links_trans _ s1); [|exact Hsl].
      apply (same_but_links_trans _ (upd s (Lru i) (set_next (Lru i))));
        apply same_but_links_upd; try discriminate; intro x; reflexivity.
    + intros j Hj. destruct (Nat.eq_dec j i) as [->|Hne].
      * rewrite Hout by lia. unfold s1. cbn [lrus upd ptr_eqb].
        rewrite Nat.eqb_refl. split; reflexivity.
      * apply Hin. lia.
    + intros j Hj. rewrite Hout by lia. unfold s1. cbn [lrus upd ptr_eqb].
      destruct (Nat.eqb i j) eqn:E; [apply Nat.eqb_eq in E; lia | reflexivity].
Qed.

Lemma round_robin_S (k j : nat) :
  round_robin (S k) j =
    setL (round_robin k) (Nat.modulo k NSHARD)
         (round_robin k (Nat.modulo k NSHARD) ++ [k]) j.
Proof.
  unfold round_robin, setL. rewrite seq_S, filter_app. cbn [filter Nat.add].
  destruct (Nat.eqb (Nat.modulo k NSHARD) j) eqn:E.
  - apply Nat.eqb_eq in E. subst j. rewrite Nat.eqb_refl. reflexivity.
  - rewrite Nat.eqb_sym, E. apply app_nil_r.
Qed.

Lemma lists_ok_ext (NBUF NBUF' : nat) (s : state) (L L' : nat -> list nat) :
  (forall i, L' i = L i) -> (NBUF <= NBUF')%nat ->
  lists_ok NBUF s L -> lists_ok NBUF' s L'.
Proof.
  intros HL Hle (Hl & Hb & Hd). split; [|split].
  - intros i Hi. rewrite HL. auto.
  - intros i k Hi Hk. rewrite HL in Hk. specialize (Hb i k Hi Hk). lia.
  - intros i j k Hi Hj Hk Hk'. rewrite HL in Hk, Hk'. eauto.
Qed.

Lemma mod_NSHARD_lt (k : nat) : (Nat.modulo k NSHARD < NSHARD)%nat.
Proof. apply Nat.mod_upper_bound. discriminate. Qed.

(** The second loop of binit appends buffer [i], [i+1], ... to the list of
    shard [i mod 13], [(i+1) mod 13], ... *)
Lemma binit_bufs_ok :
  forall (n i : nat) (s : state),
    lists_ok i s (round_robin i) ->
    exists s',
      binit_bufs n i s = Ok tt s' /\ same_but_links s s' /\
      lists_ok (i + n) s' (round_robin (i + n)).
Proof.
  induction n as [|n IH]; intros i s Hok.
  - exists s. split; [reflexivity|]. split; [apply same_but_links_refl|].
    rewrite Nat.add_0_r. assumption.
  - set (h := Nat.modulo i NSHARD).
    assert (Hh : (h < NSHARD)%nat) by apply mod_NSHARD_lt.
    assert (Hnew : forall j, (j < NSHARD)%nat -> ~ In i (round_robin i j)).
    { intros j _ Hin. apply in_round_robin in Hin. lia. }
    assert (Hok' : lists_ok (S i) s (round_robin i))
      by (apply (lists_ok_ext i (S i) s (round_robin i)); auto).
    pose proof (lists_ok_give (S i) s (round_robin i) h i Hok' Hh (Nat.lt_succ_diag_r i) Hnew)
      as Hgive.
    destruct Hok as (Hl & _ & _).
    destruct (lru_list_add s i h (round_robin i h) (Hl h Hh) (Hnew h Hh)) as (Hadd & _ & _).
    set (s1 := lru_add_state s i h (prev (lrus s h))) in *.
    destruct (IH (S i) s1) as (s' & Hrun & Hsl & Hok2).
    { apply (lists_ok_ext (S i) (S i) s1 (setL (round_robin i) h (round_robin i h ++ [i])));
        [intro j; apply round_robin_S | lia | exact Hgive]. }
    exists s'. split; [|split].
    + cbn [binit_bufs]. fold h. rewrite (bind_ok _ _ _ _ _ Hadd). exact Hrun.
    + apply (same_but_links_trans _ s1); [|exact Hsl].
      apply lru_add_same_but_links.
      destruct (lru_list_tail s h _ (Hl h Hh)) as [Ht _]. exact Ht.
    + replace (i + S n)%nat with (S i + n)%nat by lia. exact Hok2.
Qed.


(** binit establishes the invariant: buffer [k] is on the list of shard
    [k mod 13], every count is 0 and every chain is empty. *)
Lemma binit_cache (NBUF : nat) (dsk : Z -> Z -> block) (s : state) :
  binit NBUF (boot dsk) = Ok tt s -> cache_inv NBUF s (round_robin NBUF).
Proof.
  intro Hrun0.
  destruct (binit_heads_ok NSHARD 0 (boot dsk)) as (s0 & Hh & Hsl0 & Hin & _).
  assert (Hok0 : lists_ok 0 s0 (round_robin 0)).
  { split; [|split].
    - intros i Hi. split; [constructor|]. simpl.
      destruct (Hin i) as [Hn Hp]; [lia|]. auto.
    - intros i k _ [].
    - intros i j k _ _ []. }
  destruct (binit_bufs_ok NBUF 0 s0 Hok0) as (s1 & Hb & Hsl & Hok).
  simpl in Hok.
  assert (E : binit NBUF (boot dsk) = Ok tt s1).
  { unfold binit. rewrite (bind_ok _ _ _ _ _ Hh). exact Hb. }
  rewrite E in Hrun0. inversion Hrun0. subst s1.
  pose proof (same_but_links_trans _ _ _ Hsl0 Hsl) as Hall.
  assert (He : forall c, elems s c = Null).
  { intro c. destruct Hall as (_ & He & _). rewrite He. reflexivity. }
  assert (Hnil : forall c C, chain s (elems s c) C -> C = []).
  { intros c C HC. rewrite He in HC. destruct C as [|k C]; [reflexivity|].
    destruct HC as [HC _]. discriminate HC. }
  split; [assumption|]. split; [|split; [|split]].
  - intros i k _ _. destruct (same_but_links_node _ _ (Buf k) Hall) as (_ & _ & _ & _ & Hr & _).
    cbn [node] in Hr. rewrite Hr. reflexivity.
  - intros c _. exists []. split; [rewrite He; reflexivity | intros k []].
  - intros c C k _ HC Hk. rewrite (Hnil c C HC) in Hk. destruct Hk.
  - intros c C j k _ HC Hj. rewrite (Hnil c C HC) in Hj. destruct Hj.
Qed.

Lemma cache_kept_completes {A : Type} (NBUF : nat) (r : res A) :
  cache_kept NBUF r -> completes r.
Proof. destruct r; simpl; auto. Qed.

(** C5: take any state that the cache reaches from binit through
    operations of callers that respect the interface (a buffer is released,
    pinned or unpinned only while its reference count is positive), and let
    other threads, respecting the interface too, run whenever the stealing
    loop has released the home lock.  Then bget comes to an end, and a
    buffer that it returns through the local-victim path or through the
    stealing path had reference count 0 in the state in which it was
    selected: no sequence of operations makes bget reassign a referenced
    buffer. *)
Theorem bget_victim_unreferenced
        (NBUF fuel : nat) (env : nat -> state -> state)
        (me d blk : Z) (s : state) :
  (NBUF < fuel)%nat ->
  (forall i s0, ops NBUF fuel quiet s0 (env i s0)) ->
  legal NBUF fuel env s ->
  completes (bget_via fuel env me d blk s) /\
  forall r s', bget_via fuel env me d blk s = Ok r s' ->
    victim_unreferenced NBUF fuel env me d blk s s' r.
Proof.
  intros Hf Henv (dsk & s0 & Hinit & Hops).
  assert (Hq : forall i s1, cache_ok NBUF s1 -> cache_ok NBUF (quiet i s1))
    by (intros i s1 H; exact H).
  assert (He : forall i s1, cache_ok NBUF s1 -> cache_ok NBUF (env i s1)).
  { intros i s1 H. apply (ops_cache NBUF fuel quiet Hf Hq s1 (env i s1)); auto. }
  assert (Hs : cache_ok NBUF s).
  { apply (ops_cache NBUF fuel env Hf He s0 s Hops).
    exists (round_robin NBUF). apply (binit_cache NBUF dsk). assumption. }
  destruct (bget_via_cache NBUF fuel env Hf He me d blk s Hs) as [Hk H].
  split; [apply (cache_kept_completes NBUF); assumption|].
  intros r s' Hrun. apply (H r s' Hrun).
Qed.

(** ** Scenarios on the sixteen-buffer pool *)

Lemma is_blocked_state {A : Type} (r : res A) (dflt : state) :
  is_blocked r = true -> r = Blocked (blocked_state r dflt).
Proof. destruct r; simpl; intro H; try discriminate H. reflexivity. Qed.

Lemma returned_after {A : Type} (m : M A) (s : state) (a : A) :
  returned (m s) = Some a -> m s = Ok a (after m s).
Proof. apply returned_ok. Qed.

Lemma on_list_linked (s : state) (l : list nat) (q : ptr) (k : nat) :
  forall p, path s p l q -> In k l -> next (node s (prev (bufs s k))) = Buf k.
Proof.
  induction l as [|m l IH]; intros p H Hin; [destruct Hin|].
  cbn [path] in H. destruct H as (H1 & H2 & H3).
  destruct Hin as [->|Hin]; [rewrite H2; exact H1 | apply (IH _ H3 Hin)].
Qed.

(** Counterexample to C1 as stated.  First: nothing else touched the
    cache between the release and the re-read, and yet the re-read takes
    another buffer (13, the head of shard 0's list) and issues a second
    device read.  Second: thread 2's buffer 0 was stolen and is therefore
    linked in chain 0, not in the home chain of block 16; it stays referenced
    (no eviction), and the re-read of block 16 hits buffer 3, which carries
    the same identity, without a device read: it returns the old content,
    not the content written to the device. *)
Lemma reread_reads_device_again :
  returned (reread_scenario (pool 16)) =
    Some (Buf 0, ByLocal, 1%nat, (Buf 13, ByLocal), 2%nat, ["042"%byte]) /\
  returned (stale_reread_scenario (pool 16)) =
    Some (Buf 0, BySteal 0, (Buf 3, ByLocal), 3%nat, (Buf 3, ByHit), 3%nat,
          [], ["042"%byte]).
Proof. split; vm_compute; reflexivity. Qed.

Lemma write_release_reread_witness :
  (exists s1 s2 s3,
     bwrite 1 (Buf 0) held0 = Ok tt s1 /\
     brelse 64 1 (Buf 0) s1 = Ok tt s2 /\
     bread_via 64 quiet 2 (dev (bufs held0 0)) (blockno (bufs held0 0)) s2 =
       Ok (Buf 13, ByLocal) s3 /\
     data (bufs s3 13) = data (bufs held0 0) /\
     nread s3 = S (nread held0)) /\
  (exists s1 s2 s3,
     bwrite 1 (Buf 0) pinned0 = Ok tt s1 /\
     brelse 64 1 (Buf 0) s1 = Ok tt s2 /\
     bread_via 64 quiet 2 (dev (bufs pinned0 0)) (blockno (bufs pinned0 0)) s2 =
       Ok (Buf 0, ByHit) s3 /\
     data (bufs s3 0) = data (bufs pinned0 0) /\
     nread s3 = nread pinned0).
Proof.
  split.
  - refine (proj1 (write_release_reread 64 quiet 1 2 held0 0 [13%nat] [0%nat] _ _ _) _ _ _ _ _).
    + vm_compute. reflexivity.
    + apply chainb_sound. vm_compute. reflexivity.
    + simpl. lia.
    + vm_compute. reflexivity.
    + apply lru_listb_sound. vm_compute. reflexivity.
    + simpl. lia.
    + intros j [<-|[]] H. congruence.
    + intros j [<-|[]]. vm_compute. reflexivity.
  - refine (proj2 (write_release_reread 64 quiet 1 2 pinned0 0 [] [0%nat] _ _ _) _ _ _).
    + vm_compute. reflexivity.
    + apply chainb_sound. vm_compute. reflexivity.
    + simpl. lia.
    + vm_compute. split; reflexivity.
    + vm_compute. reflexivity.
    + vm_compute. reflexivity.
Defined.

Lemma brelse_unlinks_and_next_bget_reinstalls_witness :
  exists s1 Cr s2,
    brelse 64 1 (Buf 0) held0 = Ok tt s1 /\
    refcnt (bufs s1 0) = 0 /\
    chain s1 (elems s1 (hash (blockno (bufs held0 0)))) Cr /\ ~ In 0%nat Cr /\
    btable_find 64 (dev (bufs held0 0)) (blockno (bufs held0 0)) s1 = Ok Null s1 /\
    lru_list s1 (hash (blockno (bufs held0 0))) ([13%nat] ++ [0%nat]) /\
    prev (lrus s1 (hash (blockno (bufs held0 0)))) = Buf 0 /\
    bget_via 64 quiet 2 (dev (bufs held0 0)) (blockno (bufs held0 0)) s1 =
      Ok (Buf (hd 0%nat [13%nat]), ByLocal) s2 /\
    valid (bufs s2 (hd 0%nat [13%nat])) = 0 /\
    refcnt (bufs s2 (hd 0%nat [13%nat])) = 1 /\
    dev (bufs s2 (hd 0%nat [13%nat])) = dev (bufs held0 0) /\
    blockno (bufs s2 (hd 0%nat [13%nat])) = blockno (bufs held0 0).
Proof.
  refine (brelse_unlinks_and_next_bget_reinstalls
            64 quiet 1 2 held0 0 [13%nat] [0%nat] _ _ _ _ _ _ _ _).
  - vm_compute. reflexivity.
  - vm_compute. reflexivity.
  - apply lru_listb_sound. vm_compute. reflexivity.
  - simpl. lia.
  - apply chainb_sound. vm_compute. reflexivity.
  - simpl. lia.
  - intros j [<-|[]] H. congruence.
  - intros j [<-|[]]. vm_compute. reflexivity.
Defined.

(** C7 (as amended): with 16 buffers and 13 shards, requests for blocks
    0, 13 and 26 of any device, by any thread that releases nothing in
    between, yield three distinct buffers (0, 13 and 1), simultaneously
    referenced under their three distinct identities; the first two come
    from shard 0's own LRU list, which starts with the two buffers 0 and 13,
    and only the third is satisfied by stealing (buffer 1, from shard 1). *)
Theorem three_blocks_of_one_shard (me d : Z) :
  returned (three_blocks me d (pool 16)) =
    Some (Buf 0, ByLocal, (Buf 13, ByLocal), (Buf 1, BySteal 1),
          [(d, 0, 1); (d, 13, 1); (d, 26, 1)]).
Proof. destruct d; vm_compute; reflexivity. Qed.

(** Counterexample to C7 as stated: the second request is not satisfied
    by stealing; it takes buffer 13 from shard 0's own list. *)
Lemma second_request_is_local :
  returned ((bget_via 64 quiet 1 1 0 ;;; bget_via 64 quiet 1 1 13) (pool 16)) =
    Some (Buf 13, ByLocal).
Proof. vm_compute. reflexivity. Qed.

(** C3 fails on the code: the stealing path calls btable_insert before it
    assigns the new identity, so the stolen buffer 0 is linked into the chain
    of its old block number (chain 0) and not into the home chain of block 16
    (chain 3, which still holds buffer 3 only).  The third thread's lookup
    misses, a second buffer (13) is installed, and two referenced buffers
    carry the identity (d, 16). *)
Theorem steal_installs_duplicate (d : Z) :
  returned (duplicate_scenario d (pool 16)) =
    Some (Buf 3, ByLocal, (Buf 0, BySteal 0), (Buf 13, BySteal 0),
          [(d, 16, 1); (d, 16, 1)],
          [Buf 3; Null; Buf 0; Buf 13; Null]).
Proof. destruct d; vm_compute; reflexivity. Qed.

(** Counterexample to C4 as stated: the pin is the last reference;
    bunpin drops it and puts the buffer on no list. *)
Lemma bunpin_leaves_buffer_off_every_list :
  two_state 16 pinned_only (setL (round_robin 16) 0 [13%nat]) /\
  bunpin (Buf 0) pinned_only = Ok tt (after (bunpin (Buf 0)) pinned_only) /\
  refcnt (bufs (after (bunpin (Buf 0)) pinned_only) 0) = 0 /\
  forall i l, lru_list (after (bunpin (Buf 0)) pinned_only) i l -> ~ In 0%nat l.
Proof.
  split; [apply two_stateb_sound; vm_compute; reflexivity|].
  split; [reflexivity|]. split; [vm_compute; reflexivity|].
  intros i l [_ Hp] Hin.
  pose proof (on_list_linked _ _ _ _ _ Hp Hin) as H.
  vm_compute in H. discriminate H.
Qed.

Lemma operations_keep_two_state_witness :
  invariant_kept 16 (bget 64 quiet 1 1 0 (pool 16)) /\
  (exists s' L', brelse 64 1 (Buf 0) held0 = Ok tt s' /\ two_state 16 s' L') /\
  (exists s', bpin (Buf 0) held0 = Ok tt s' /\
              two_state 16 s' (setL (round_robin 16) 0 [13%nat])) /\
  (exists s', bunpin (Buf 0) pinned0 = Ok tt s' /\
              two_state 16 s' (setL (round_robin 16) 0 [13%nat])).
Proof.
  destruct (operations_keep_two_state 16 64 quiet (fun _ _ _ _ H => H))
    as (Hget & Hrel & Hpin & Hunpin).
  split; [|split; [|split]].
  - apply Hget. apply pool_16_ready. lia.
  - apply (Hrel 1 held0 (setL (round_robin 16) 0 [13%nat]) 0%nat [0%nat]).
    + apply two_stateb_sound. vm_compute. reflexivity.
    + lia.
    + vm_compute. reflexivity.
    + vm_compute. reflexivity.
    + apply chainb_sound. vm_compute. reflexivity.
    + simpl. lia.
  - apply Hpin.
    + apply two_stateb_sound. vm_compute. reflexivity.
    + lia.
    + vm_compute. split; reflexivity.
  - apply Hunpin.
    + apply two_stateb_sound. vm_compute. reflexivity.
    + lia.
    + vm_compute. reflexivity.
Defined.

Lemma pool_16_binit : binit 16 (boot blank) = Ok tt (pool 16).
Proof.
  apply (returned_ok (binit 16 (boot blank)) tt (boot blank)). vm_compute. reflexivity.
Qed.

Lemma two_held_legal : legal 16 64 quiet two_held.
Proof.
  exists blank, (pool 16). split; [apply pool_16_binit|].
  unfold two_held.
  apply (ops_step 16 64 quiet (pool 16) (after (bread 64 quiet 1 1 0) (pool 16))).
  - apply (ops_step 16 64 quiet (pool 16) (pool 16)); [apply ops_refl|].
    apply (op_bread 16 64 quiet 1 1 0 (pool 16) (Buf 0)).
    apply returned_after. vm_compute. reflexivity.
  - apply (op_bread 16 64 quiet 1 1 13 (after (bread 64 quiet 1 1 0) (pool 16)) (Buf 13)).
    apply returned_after. vm_compute. reflexivity.
Qed.

Lemma bget_victim_unreferenced_witness :
  completes (bget_via 64 quiet 1 1 26 two_held) /\
  victim_unreferenced 16 64 quiet 1 1 26 two_held
    (after (bget_via 64 quiet 1 1 26) two_held) (Buf 1, BySteal 1).
Proof.
  destruct (bget_victim_unreferenced 16 64 quiet 1 1 26 two_held) as [Hc Hv].
  - lia.
  - intros i s0. apply ops_refl.
  - apply two_held_legal.
  - split; [exact Hc|]. apply Hv. apply returned_after. vm_compute. reflexivity.
Defined.

(** Counterexample to C6 as stated: nobody has acquired or pinned buffer
    0; bunpin accepts the call and the count wraps around. *)
Lemma bunpin_without_pin_is_accepted :
  refcnt (bufs (pool 16) 0) = 0 /\
  returned ((bunpin (Buf 0) ;;; gets (fun s => refcnt (bufs s 0))) (pool 16)) =
    Some 4294967295.
Proof. split; vm_compute; reflexivity. Qed.

Lemma refcnt_discipline_witness :
  brelse 64 2 (Buf 0) held0 = Panic "brelse"%string /\
  keeps refs_in_range (bunpin (Buf 0)).
Proof.
  destruct (refcnt_discipline 64 quiet (fun _ _ H => H))
    as (_ & _ & _ & Hunpin & Hrel & _).
  split; [apply Hrel; vm_compute; reflexivity | apply Hunpin].
Defined.

Lemma pool_0_exhausted (d blk : Z) : exhausted 64 d blk (pool 0).
Proof.
  assert (He : forall c, (c < NSHARD)%nat -> elems (pool 0) c = Null).
  { below 13%nat; vm_compute; reflexivity. }
  split.
  - rewrite (btable_find_chain 64 (pool 0) d blk []); [reflexivity | | simpl; lia].
    cbn [chain]. apply He. apply hash_lt.
  - below 13%nat; vm_compute; reflexivity.
Qed.

Lemma bget_exhausted_panics_witness :
  bget 64 quiet 1 1 5 (pool 0) = Panic "bget: no buffers"%string.
Proof.
  apply bget_exhausted_panics.
  - intros i s' H. exact H.
  - apply pool_0_exhausted.
Defined.



(** * The socket receive path: properties *)

Module SysnetProps.

Import Sysnet.

Section Read.

Variable copyout : Z -> mbuf -> bool.

Lemma wait_spurious (pre : list wake) (rest : list wake) :
  Forall (fun w => wk_rxq w = [] /\ wk_killed w = false) pre ->
  wait_for_data [] false (pre ++ rest) = wait_for_data [] false rest.
Proof.
  induction pre as [|w pre IH]; intro H; [reflexivity|].
  inversion H as [|? ? [Hq Hk] Hpre]; subst. simpl. rewrite Hq, Hk. apply IH. assumption.
Qed.

(** C9: a process that went to sleep in sockread because the queue was
    empty, and that is woken up (after any number of wake-ups that brought
    neither data nor a kill) with its killed flag set and the queue still
    empty, releases the socket lock and returns -1; it does not sleep
    again, whatever would have happened later. *)
Theorem sockread_killed_while_asleep
        (s : sock) (addr n : Z) (pre rest : list wake) :
  rxq s = [] ->
  Forall (fun w => wk_rxq w = [] /\ wk_killed w = false) pre ->
  sockread copyout false s addr n (pre ++ mkwake [] true :: rest) =
    Returned (-1) (mksock false []) None.
Proof.
  intros Hq Hpre. unfold sockread. rewrite Hq.
  rewrite (wait_spurious pre _ Hpre). destruct rest; reflexivity.
Qed.

(** Without the kill the same process is still asleep. *)
Lemma sockread_sleeps_on (s : sock) (addr n : Z) (pre : list wake) :
  rxq s = [] ->
  Forall (fun w => wk_rxq w = [] /\ wk_killed w = false) pre ->
  sockread copyout false s addr n pre = Asleep.
Proof.
  intros Hq Hpre. unfold sockread. rewrite Hq.
  rewrite <- (app_nil_r pre). rewrite (wait_spurious pre _ Hpre). reflexivity.
Qed.

(** A packet that arrived before the kill was noticed is delivered. *)
Lemma sockread_data_wins (s : sock) (addr n : Z) (m : mbuf) (rest : list wake)
      (qs : list mbuf) :
  rxq s = [] -> Z.of_nat (List.length m) <= n -> copyout addr m = true ->
  sockread copyout false s addr n (mkwake (m :: qs) true :: rest) =
    Returned (Z.of_nat (List.length m)) (mksock false qs) (Some m).
Proof.
  intros Hq Hn Hc. unfold sockread. rewrite Hq.
  assert (E : wait_for_data [] false (mkwake (m :: qs) true :: rest) = Data m qs)
    by (destruct rest; reflexivity).
  rewrite E. apply Z.ltb_ge in Hn. rewrite Hn, Hc. reflexivity.
Qed.

End Read.

Lemma sockread_killed_while_asleep_witness :
  sockread (fun _ _ => true) false (mksock false []) 4096 1500
           ([mkwake [] false] ++ mkwake [] true :: [mkwake [["001"%byte]] false]) =
    Returned (-1) (mksock false []) None.
Proof.
  apply sockread_killed_while_asleep.
  - reflexivity.
  - repeat constructor.
Defined.

End SysnetProps.

(** * The locking skeleton: properties *)

Module ShardLocksProps.

Import ShardLocks.

Lemma lockid_eqb_eq (l l' : lockid) : lockid_eqb l l' = true <-> l = l'.
Proof.
  destruct l, l'; simpl; split; intro H; try discriminate; try reflexivity;
    try (apply Nat.eqb_eq in H; subst; reflexivity);
    inversion H; apply Nat.eqb_refl.
Qed.

Lemma free_false (c : config) (l : lockid) :
  free c l = false -> exists t th, nth_error c t = Some th /\ In l (holds th).
Proof.
  unfold free. induction c as [|q c IH]; simpl; [discriminate|].
  destruct (existsb (lockid_eqb l) (holds q)) eqn:E; simpl.
  - intros _. exists 0%nat, q. split; [reflexivity|].
    apply existsb_exists in E. destruct E as (x & Hx & Ex).
    apply lockid_eqb_eq in Ex. subst. assumption.
  - intro H. destruct (IH H) as (t & p & Ht & Hp). exists (S t), p. auto.
Qed.

Lemma free_true (c : config) (l : lockid) :
  free c l = true -> forall t th, nth_error c t = Some th -> ~ In l (holds th).
Proof.
  unfold free. intros Hf t p Ht Hl.
  rewrite forallb_forall in Hf. specialize (Hf p (nth_error_In c t Ht)).
  apply negb_true_iff in Hf.
  assert (E : existsb (lockid_eqb l) (holds p) = true).
  { apply existsb_exists. exists l. split; [assumption|]. apply lockid_eqb_eq. reflexivity. }
  congruence.
Qed.

(** A running thread has a next statement. *)
Lemma can_move (h : list nat) (p : pc) :
  running p = true -> exists th', local_step (h, p) th'.
Proof.
  destruct p as [|idx|idx|idx i|idx i|idx i|idx i|idx i|i|b| | |idx|idx|lk];
    intro H; try discriminate H.
  - exists (h, GetHome idx). constructor.
  - exists (h, GetLoop idx 0). constructor.
  - destruct (Nat.leb NSHARD i) eqn:E1.
    + apply Nat.leb_le in E1. eexists. apply step_loop_panic. assumption.
    + apply Nat.leb_gt in E1.
      destruct (Nat.lt_trichotomy i idx) as [Hlt|[Heq|Hgt]]; eexists.
      * apply step_loop_low; assumption.
      * apply step_loop_skip; assumption.
      * apply step_loop_high; assumption.
  - exists (h, GetBoth idx i). constructor.
  - exists (h, GetReacquire idx i). constructor.
  - exists (h, GetBoth idx i). constructor.
  - exists (h, GetLoop idx (S i)). constructor.
  - exists (h, GetSleep 0). constructor.
  - exists (h, PinHold). constructor.
  - exists (h, Out). constructor.
  - exists (h, RelHome idx). constructor.
  - exists (h, Out). constructor.
Qed.

(** A thread that holds a spinlock while it waits for a lock waits for a
    spinlock of lower rank: it never sleeps with a spinlock held. *)
Lemma wait_goes_down (p : pc) (h w : lockid) :
  valid_pc p -> In h (spins p) -> wants p = Some w -> (rank w < rank h)%nat.
Proof.
  destruct p as [|idx|idx|idx i|idx i|idx i|idx i|idx i|i|b| | |idx|idx|[idx|]];
    simpl; intros Hv Hh Hw; try discriminate; try tauto;
    inversion Hw; subst; destruct Hh as [<-|[]]; simpl; unfold NSHARD; lia.
Qed.

Lemma spins_running (p : pc) (l : lockid) :
  In l (spins p) -> halted p = false -> running p = true.
Proof. destruct p as [| | | | | | | | | | | | | |[idx|]]; simpl; intros H Hh; tauto || congruence. Qed.

Lemma running_wants_spin (p : pc) (l : lockid) :
  running p = true -> wants p = Some l -> forall b, l <> Content b.
Proof.
  destruct p; simpl; intros Hr Hw c; try discriminate; inversion Hw; discriminate.
Qed.

Lemma holds_spin (th : thread) (l : lockid) :
  In l (holds th) -> (forall b, l <> Content b) -> In l (spins (snd th)).
Proof.
  unfold holds. intros H Hl. apply in_app_or in H. destruct H as [H|H]; [assumption|].
  apply in_map_iff in H. destruct H as (b & <- & _). exfalso. apply (Hl b). reflexivity.
Qed.

Lemma holds_content (th : thread) (b : nat) :
  In (Content b) (holds th) -> In b (fst th).
Proof.
  unfold holds. intro H. apply in_app_or in H. destruct H as [H|H].
  - destruct th as [h p]. simpl in H.
    destruct p as [| | | | | | | | | | | | | |[idx|]]; simpl in H;
      repeat destruct H as [H|H]; try discriminate; destruct H.
  - apply in_map_iff in H. destruct H as (b' & E & Hb). inversion E. subst. assumption.
Qed.

Lemma running_steps (c : config) (t : nat) (th : thread) :
  nth_error c t = Some th -> enabled c th = true -> running (snd th) = true ->
  some_runs c.
Proof.
  intros Ht He Hr. destruct th as [h p]. destruct (can_move h p Hr) as (th' & Hs).
  exists t, (h, p). split; [assumption|]. split; [assumption|].
  exists (h, p), th'. auto.
Qed.

(** Whatever spinlock a running thread waits for, some running thread can
    take its next step. *)
Lemma spinning_is_not_deadlock (c : config) :
  Forall (fun th => valid_pc (snd th)) c -> no_panic c ->
  forall r t th l, nth_error c t = Some th -> running (snd th) = true ->
    wants (snd th) = Some l -> (rank l < r)%nat -> some_runs c.
Proof.
  intros Hv Hnp. induction r as [|r IH]; intros t th l Ht Hr Hw Hlt; [lia|].
  destruct (free c l) eqn:Hf.
  - apply (running_steps c t th Ht); [|assumption].
    unfold enabled. rewrite Hw. exact Hf.
  - destruct (free_false c l Hf) as (t' & th' & Ht' & Hh).
    pose proof (holds_spin th' l Hh (running_wants_spin _ l Hr Hw)) as Hsp.
    pose proof (spins_running _ l Hsp (Hnp t' th' Ht')) as Hr'.
    destruct (wants (snd th')) as [l'|] eqn:Hw'.
    + apply (IH t' th' l' Ht' Hr' Hw').
      assert (Hvp : valid_pc (snd th')).
      { rewrite Forall_forall in Hv. apply (Hv th'). eapply nth_error_In. eassumption. }
      pose proof (wait_goes_down _ l l' Hvp Hsp Hw'). lia.
    + apply (running_steps c t' th' Ht'); [|assumption].
      unfold enabled. rewrite Hw'. reflexivity.
Qed.

Lemma running_progress (c : config) (t : nat) (th : thread) :
  Forall (fun th => valid_pc (snd th)) c -> no_panic c ->
  nth_error c t = Some th -> running (snd th) = true -> some_runs c.
Proof.
  intros Hv Hnp Ht Hr. destruct (wants (snd th)) as [l|] eqn:Hw.
  - apply (spinning_is_not_deadlock c Hv Hnp (S (rank l)) t th l); auto.
  - apply (running_steps c t th Ht); [|assumption].
    unfold enabled. rewrite Hw. reflexivity.
Qed.

Lemma local_step_valid (th th' : thread) :
  valid_pc (snd th) -> local_step th th' -> valid_pc (snd th').
Proof.
  intros Hv H. destruct H; simpl in *; auto; lia.
Qed.

Lemma set_nth_valid (c : config) (t : nat) (th : thread) :
  Forall (fun th => valid_pc (snd th)) c -> valid_pc (snd th) ->
  Forall (fun th => valid_pc (snd th)) (set_nth c t th).
Proof.
  intros Hc Hp. revert t. induction Hc as [|q c Hq Hc IH]; intro t; simpl; [constructor|].
  destruct t; constructor; auto.
Qed.

Lemma reachable_valid (n : nat) (c : config) :
  reachable n c -> Forall (fun th => valid_pc (snd th)) c.
Proof.
  induction 1 as [|c c' Hr IH Hs].
  - apply Forall_forall. intros p Hp. apply repeat_spec in Hp. subst. exact I.
  - destruct Hs as [c t p p' Ht He Hl]. apply set_nth_valid; [assumption|].
    apply (local_step_valid p); [|assumption].
    rewrite Forall_forall in IH. apply (IH p). eapply nth_error_In. eassumption.
Qed.

(** The steps respect the locks: a thread gains only the lock it was
    waiting for. *)
Lemma holds_step (th th' : thread) (l : lockid) :
  local_step th th' -> In l (holds th') -> In l (holds th) \/ wants (snd th) = Some l.
Proof.
  intros H Hl. destruct H; unfold holds in *; simpl in *;
    try tauto; try (intuition (subst; auto); fail).
  left. apply in_map_iff in Hl. destruct Hl as (x & <- & Hx).
    apply in_map. apply in_remove in Hx. tauto.
Qed.

Lemma nth_set_nth (c : config) (t u : nat) (p q : thread) :
  nth_error (set_nth c t p) u = Some q ->
  (u = t /\ q = p) \/ (u <> t /\ nth_error c u = Some q).
Proof.
  revert t u. induction c as [|r c IH]; intros t u H.
  - destruct t, u; discriminate H.
  - destruct t as [|t], u as [|u]; simpl in H.
    + left. split; congruence.
    + right. split; [discriminate|assumption].
    + right. split; [discriminate|assumption].
    + destruct (IH t u H) as [[-> ->]|[Hn Hq]]; [left|right]; split; auto.
Qed.

Lemma step_exclusive (c c' : config) : exclusive c -> step c c' -> exclusive c'.
Proof.
  intros Hx Hs. destruct Hs as [c t p p' Ht He Hl].
  assert (Hnew : forall u q l, u <> t -> nth_error c u = Some q ->
                   In l (holds q) -> In l (holds p') -> False).
  { intros u q l Hu Hq Hlq Hlp.
    destruct (holds_step p p' l Hl Hlp) as [Hh|Hw].
    - apply Hu. apply (Hx u t q p l); assumption.
    - unfold enabled in He. rewrite Hw in He.
      apply (free_true c l He u q Hq Hlq). }
  intros u u' q q' l Hq Hq' Hlq Hlq'.
  apply nth_set_nth in Hq. apply nth_set_nth in Hq'.
  destruct Hq as [[-> ->]|[Hu Hq]], Hq' as [[-> ->]|[Hu' Hq']].
  - reflexivity.
  - exfalso. apply (Hnew u' q' l); assumption.
  - exfalso. apply (Hnew u q l); assumption.
  - apply (Hx u u' q q' l); assumption.
Qed.

(** Mutual exclusion: in every reachable configuration a lock has at most
    one holder. *)
Lemma reachable_exclusive (n : nat) (c : config) : reachable n c -> exclusive c.
Proof.
  induction 1 as [|c c' Hr IH Hs].
  - intros t t' p p' l Ht _ Hl _. apply nth_error_In, repeat_spec in Ht.
    subst. destruct Hl.
  - apply (step_exclusive c); assumption.
Qed.

(** C10 (as amended): take any configuration that any number of threads
    can reach by calling bget, bpin, bunpin and brelse concurrently, also
    while they hold buffers, and in which no thread has panicked.  (1) The
    spinlocks never deadlock: if some thread is inside one of these
    operations and not asleep on a content lock, some such thread can take
    its next step; the reason is the order the stealing loop keeps (a thread
    that holds a shard lock while acquiring another acquires a
    lower-numbered one, in both directions of stealing, lines 132-138) and
    that no thread sleeps with a spinlock held.  (2) If threads acquire
    buffers one at a time, a thread asleep on a content lock is not stuck
    either: it can take the lock, or some thread inside the cache can take
    its next step, or the buffer is held by a thread that is outside the
    cache and can call brelse on it. *)
Theorem no_deadlock (n : nat) (c : config) :
  reachable n c -> no_panic c ->
  ((exists t th, nth_error c t = Some th /\ running (snd th) = true) ->
   some_runs c) /\
  (one_at_a_time c ->
   forall t h b, nth_error c t = Some (h, GetSleep b) ->
     can_step c t \/ some_runs c \/ exists t', can_release c t' b).
Proof.
  intros Hr Hnp. pose proof (reachable_valid n c Hr) as Hv. split.
  - intros (t & th & Ht & Hrun). apply (running_progress c t th); assumption.
  - intros Hone t h b Ht.
    destruct (free c (Content b)) eqn:Hf.
    + left. exists (h, GetSleep b), (b :: h, Out).
      split; [assumption|]. split; [exact Hf | constructor].
    + right. destruct (free_false c _ Hf) as (t' & [h' p'] & Ht' & Hh).
      apply holds_content in Hh. simpl in Hh.
      destruct (running p') eqn:Hrun.
      * left. apply (running_progress c t' (h', p')); assumption.
      * right. destruct p' as [| | | | | | | | |b'| | | | |lk]; try discriminate Hrun.
        -- exists t', h', 0%nat. split; [assumption|]. split; [assumption|].
           apply (step_thread c t' (h', Out)); [assumption | reflexivity|].
           apply step_brelse; [assumption | unfold NSHARD; lia].
        -- rewrite (Hone t' h' b' Ht') in Hh. destruct Hh.
        -- specialize (Hnp t' _ Ht'). discriminate Hnp.
Qed.

Lemma reach_go (n : nat) (c : config) (t : nat) (p p' : thread) :
  reachable n c -> nth_error c t = Some p -> enabled c p = true ->
  local_step p p' -> reachable n (set_nth c t p').
Proof.
  intros Hr Ht He Hl. apply (reach_step n c); [assumption|].
  apply (step_thread c t p p'); assumption.
Qed.

Ltac advance R t :=
  refine (reach_go _ _ t _ _ R _ _ _);
  [ reflexivity | reflexivity
  | first [ constructor; unfold NSHARD; lia
          | apply (step_brelse _ 13%nat); [simpl; tauto | unfold NSHARD; lia]
          | constructor ] ].

Lemma crossing_reachable : reachable 2 crossing.
Proof.
  pose proof (reach_init 2) as R0. simpl in R0.
  assert (R1 : reachable 2 [([], Out); ([], GetAcquire 0)]) by advance R0 1%nat.
  assert (R2 : reachable 2 [([], Out); ([], GetHome 0)]) by advance R1 1%nat.
  assert (R3 : reachable 2 [([], Out); ([], GetLoop 0 0)]) by advance R2 1%nat.
  assert (R4 : reachable 2 [([], Out); ([], GetLoop 0 1)]) by advance R3 1%nat.
  assert (R5 : reachable 2 [([], Out); ([], GetAcquireHigh 0 1)]) by advance R4 1%nat.
  assert (R6 : reachable 2 [([], GetAcquire 1); ([], GetAcquireHigh 0 1)]) by advance R5 0%nat.
  assert (R7 : reachable 2 [([], GetHome 1); ([], GetAcquireHigh 0 1)]) by advance R6 0%nat.
  assert (R8 : reachable 2 [([], GetLoop 1 0); ([], GetAcquireHigh 0 1)]) by advance R7 0%nat.
  unfold crossing. advance R8 0%nat.
Qed.

Lemma waiting_reachable : reachable 3 waiting.
Proof.
  pose proof (reach_init 3) as R0. simpl in R0.
  assert (R1 : reachable 3 [([], Out); ([], GetAcquire 0); ([], Out)]) by advance R0 1%nat.
  assert (R2 : reachable 3 [([], Out); ([], GetHome 0); ([], Out)]) by advance R1 1%nat.
  assert (R3 : reachable 3 [([], Out); ([], GetSleep 13); ([], Out)]) by advance R2 1%nat.
  assert (R4 : reachable 3 [([], Out); ([13%nat], Out); ([], Out)]) by advance R3 1%nat.
  assert (R5 : reachable 3 [([], GetAcquire 0); ([13%nat], Out); ([], Out)]) by advance R4 0%nat.
  assert (R6 : reachable 3 [([], GetHome 0); ([13%nat], Out); ([], Out)]) by advance R5 0%nat.
  assert (R7 : reachable 3 [([], GetSleep 13); ([13%nat], Out); ([], Out)]) by advance R6 0%nat.
  assert (R8 : reachable 3 [([], GetSleep 13); ([13%nat], Out); ([], PinAcquire)])
    by advance R7 2%nat.
  unfold waiting. advance R8 2%nat.
Qed.

Lemma embrace_reachable : reachable 2 embrace.
Proof.
  pose proof (reach_init 2) as R0. simpl in R0.
  assert (R1 : reachable 2 [([], GetAcquire 0); ([], Out)]) by advance R0 0%nat.
  assert (R2 : reachable 2 [([], GetHome 0); ([], Out)]) by advance R1 0%nat.
  assert (R3 : reachable 2 [([], GetSleep 0); ([], Out)]) by advance R2 0%nat.
  assert (R4 : reachable 2 [([0%nat], Out); ([], Out)]) by advance R3 0%nat.
  assert (R5 : reachable 2 [([0%nat], Out); ([], GetAcquire 0)]) by advance R4 1%nat.
  assert (R6 : reachable 2 [([0%nat], Out); ([], GetHome 0)]) by advance R5 1%nat.
  assert (R7 : reachable 2 [([0%nat], Out); ([], GetSleep 13)]) by advance R6 1%nat.
  assert (R8 : reachable 2 [([0%nat], Out); ([13%nat], Out)]) by advance R7 1%nat.
  assert (R9 : reachable 2 [([0%nat], GetAcquire 0); ([13%nat], Out)]) by advance R8 0%nat.
  assert (R10 : reachable 2 [([0%nat], GetHome 0); ([13%nat], Out)]) by advance R9 0%nat.
  assert (R11 : reachable 2 [([0%nat], GetSleep 13); ([13%nat], Out)]) by advance R10 0%nat.
  assert (R12 : reachable 2 [([0%nat], GetSleep 13); ([13%nat], GetAcquire 0)])
    by advance R11 1%nat.
  assert (R13 : reachable 2 [([0%nat], GetSleep 13); ([13%nat], GetHome 0)])
    by advance R12 1%nat.
  unfold embrace. advance R13 1%nat.
Qed.

Lemma no_panic_all (c : config) :
  forallb (fun th => negb (halted (snd th))) c = true -> no_panic c.
Proof.
  intros H t th Ht. rewrite forallb_forall in H.
  specialize (H th (nth_error_In c t Ht)). apply negb_true_iff in H. exact H.
Qed.

Lemma no_deadlock_witness :
  some_runs crossing /\
  (can_step waiting 0 \/ some_runs waiting \/ exists t', can_release waiting t' 13).
Proof.
  split.
  - refine (proj1 (no_deadlock 2 crossing crossing_reachable _) _).
    + apply no_panic_all. reflexivity.
    + exists 0%nat, ([], GetAcquireLow 1 0). split; reflexivity.
  - refine (proj2 (no_deadlock 3 waiting waiting_reachable _) _ 0%nat [] 13%nat _).
    + apply no_panic_all. reflexivity.
    + intros [|[|[|t]]] h b H; simpl in H; try discriminate H.
      * inversion H. reflexivity.
      * destruct t; discriminate H.
    + reflexivity.
Defined.

(** Counterexample to C10 as stated: thread 0 holds buffer 0 and thread 1
    holds buffer 13; each then calls bget for the block of the other and
    sleeps in acquiresleep (line 111).  The configuration is reachable,
    nobody has panicked, and no thread can ever take a step.  In the cache
    itself: with blocks 0 and 13 of device 1 held by threads 1 and 2, the
    request of thread 1 for block 13 and then the request of thread 2 for
    block 0 both put the caller to sleep, each on the buffer the other one
    holds. *)
Lemma holders_sleep_forever :
  reachable 2 embrace /\ no_panic embrace /\
  (forall c', ~ step embrace c') /\
  exists s3 s4,
    bget 64 quiet 1 1 13 held_both = Blocked s3 /\
    bget 64 quiet 2 1 0 s3 = Blocked s4 /\
    holdingsleep 1 (lock (bufs s4 0)) = true /\
    holdingsleep 2 (lock (bufs s4 13)) = true.
Proof.
  split; [apply embrace_reachable|]. split; [apply no_panic_all; reflexivity|]. split.
  - intros c' Hs. inversion Hs as [c t th th' Ht He Hl Hc]. subst.
    destruct t as [|[|t]]; simpl in Ht.
    + inversion Ht. subst. discriminate He.
    + inversion Ht. subst. discriminate He.
    + destruct t; discriminate Ht.
  - exists (blocked_state (bget 64 quiet 1 1 13 held_both) held_both).
    exists (blocked_state
              (bget 64 quiet 2 1 0
                 (blocked_state (bget 64 quiet 1 1 13 held_both) held_both))
              held_both).
    split; [apply is_blocked_state; vm_compute; reflexivity|].
    split; [apply is_blocked_state; vm_compute; reflexivity|].
    split; vm_compute; reflexivity.
Qed.

End ShardLocksProps.
